(** * Ledger history, mismatch diagnosis and message framing of rippled

    A shallow embedding of
      - src/ripple/app/ledger/LedgerHistory.cpp  (module [LedgerHistory])
      - src/ripple/overlay/impl/Message.cpp      (module [Message])
    together with the properties of these two files that the specification
    states.

    Conventions.
    - [uint256], [LedgerIndex] and close times are [N]: the code only
      compares them ([==], [<], [isZero]); no arithmetic is done on them.
    - A member function of [LedgerHistory] is a function of the monad [M]:
      it takes the object's state and either returns a value with the new
      state or aborts ([LogicError], a failed [assert], a null dereference).
    - [assert] depends on the build: the variable [NDEBUG] says whether the
      file is compiled with assertions removed.
    - The journal [j_] keeps every line that a [JLOG] statement writes, with
      its severity; a line is a constructor of [Msg] carrying the values the
      statement prints. *)

From stdpp Require Import gmap list strings sorting.
From Stdlib Require Import ZArith Lia.
From Stdlib Require Import Floats.SpecFloat.

Set Default Proof Using "Type".

Module LedgerHistory.

(** ** Data *)

Abbreviation uint256 := N.
Abbreviation LedgerHash := N.
Abbreviation LedgerIndex := N.
Abbreviation Slice := (list N).

(** Json::Value, kept as its text. *)
Definition Json_Value := string.

(** [SHAMapItem].  [item_addr] is the address of the object: [handleMismatch]
    compares vectors of [SHAMapItem const*]. *)
Record SHAMapItem := mkItem {
  item_addr : N;
  key : uint256;
  slice : Slice
}.

(** [LedgerInfo], the fields read in LedgerHistory.cpp. *)
Record LedgerInfo := mkInfo {
  seq : LedgerIndex;
  hash : uint256;
  parentHash : uint256;
  closeTime : N
}.

(** [Ledger], through the members read in LedgerHistory.cpp:
    [info()], [isImmutable()], [stateMap().getHash()] and the leaves of
    [txMap()] in iteration order. *)
Record Ledger := mkLedger {
  info : LedgerInfo;
  isImmutable : bool;
  stateMap_getHash : uint256;
  txMap : list SHAMapItem
}.

(** Modelled from the spec: TxMeta.h and STObject.h are not part of the
    sources.  "parse each side's metadata into (result code, applied-index,
    affected-node-list)": the metadata object [STObject] carries the three
    fields and [TxMeta] is built from it; an affected node is kept as a
    number. *)
Record STObject := mkMeta {
  sfTransactionResult : Z;
  sfTransactionIndex : N;
  sfAffectedNodes : list N
}.

Record TxMeta := mkTxMeta {
  mTransactionID : uint256;
  mLedger : LedgerIndex;
  getIndex : N;
  getResultTER : Z;
  getNodes : list N;
  getJson : STObject
}.

Definition TxMeta_ctor (txID : uint256) (ledger : LedgerIndex) (obj : STObject) : TxMeta :=
  {| mTransactionID := txID; mLedger := ledger;
     getIndex := sfTransactionIndex obj;
     getResultTER := sfTransactionResult obj;
     getNodes := sfAffectedNodes obj;
     getJson := obj |}.

(** [TxMeta::getResult()] is the result code as an int. *)
Definition getResult (m : TxMeta) : Z := getResultTER m.

(** [cv_entry] of LedgerHistory.h: five optionals, all empty when created. *)
Record cv_entry := mkEntry {
  built : option LedgerHash;
  validated : option LedgerHash;
  builtConsensusHash : option uint256;
  validatedConsensusHash : option uint256;
  consensus : option Json_Value
}.

Definition new_cv_entry : cv_entry := mkEntry None None None None None.

(** ** The journal *)

Inductive Severity := debug | error.

(** The [msg] argument of [log_one]: which ledger misses the transaction. *)
Inductive Side := side_valid | side_built.

(** The seven headlines of [log_metadata_difference] that name fields. *)
Inductive Difference :=
  | Different_result_and_index
  | Different_result
  | Different_index
  | Different_result_index_and_nodes
  | Different_result_and_nodes
  | Different_index_and_nodes
  | Different_nodes.

Inductive Msg :=
  (* log_one *)
  | MISMATCH_is_missing_this_transaction (tx : uint256) (msg : Side) (metaData : option STObject)
  (* log_metadata_difference *)
  | MISMATCH_No_apparent_mismatches_detected (tx : uint256)
  | MISMATCH_on_TX (tx : uint256) (what : Difference)
  | Built_ (result : option Z) (index : option N) (nodes : option (list N))
  | Valid_ (result : option Z) (index : option N) (nodes : option (list N))
  | Built_json (m : STObject)
  | Valid_json (m : STObject)
  | MISMATCH_Metadata_Difference_built_has_none (tx : uint256) (m : STObject)
  | MISMATCH_Metadata_Difference_valid_has_none (tx : uint256) (m : STObject)
  (* handleMismatch *)
  | MISMATCH_cannot_be_analyzed (b v : LedgerHash) (builtLedger validLedger : option Ledger)
  | Mismatch_on (s : LedgerIndex) (builtLedger validLedger : Ledger) (c : Json_Value)
  | MISMATCH_on_prior_ledger
  | MISMATCH_on_close_time
  | MISMATCH_on_consensus_transaction_set (b v : uint256)
  | MISMATCH_with_same_consensus_transaction_set (b : uint256)
  | MISMATCH_with_same_transactions (size : nat)
  | MISMATCH_with_built_and_valid_transactions (builtSize validSize : nat)
  | built_getJson (l : Ledger)
  | valid_getJson (l : Ledger)
  (* builtLedger, validatedLedger *)
  | MISMATCH_seq_validated_then (index : LedgerIndex) (v h : LedgerHash)
  | MATCH_seq_late (index : LedgerIndex)
  | Mismatch_on_validated_ledger (index : LedgerIndex) (b h : LedgerHash).

Definition Line : Type := Severity * Msg.

(** ** The object *)

(** One invocation of [handleMismatch], with its arguments. *)
Record Call := mkCall {
  call_built : LedgerHash;
  call_valid : LedgerHash;
  call_builtConsensusHash : option uint256;
  call_validatedConsensusHash : option uint256;
  call_consensus : Json_Value
}.

(** The members of [LedgerHistory] that the member functions change.  Both
    [TaggedCache]s are finite maps; [sweep] is the only member that expires
    entries and is not among the functions embedded here.
    [calls] is not a member of the class: it is the history of the
    invocations of [handleMismatch], kept to state how often and with which
    arguments the function was entered. *)
Record State := mkState {
  mismatch_counter_ : N;
  ledgerCache_ : gmap LedgerHash Ledger;
  consensusValidated_ : gmap LedgerIndex cv_entry;
  mLedgersByIndex : gmap LedgerIndex LedgerHash;
  j_ : list Line;
  calls : list Call
}.

Definition set_counter (f : N → N) (st : State) : State :=
  mkState (f (mismatch_counter_ st)) (ledgerCache_ st) (consensusValidated_ st)
          (mLedgersByIndex st) (j_ st) (calls st).
Definition set_ledgerCache (f : gmap LedgerHash Ledger → gmap LedgerHash Ledger) (st : State) : State :=
  mkState (mismatch_counter_ st) (f (ledgerCache_ st)) (consensusValidated_ st)
          (mLedgersByIndex st) (j_ st) (calls st).
Definition set_consensusValidated (f : gmap LedgerIndex cv_entry → gmap LedgerIndex cv_entry)
    (st : State) : State :=
  mkState (mismatch_counter_ st) (ledgerCache_ st) (f (consensusValidated_ st))
          (mLedgersByIndex st) (j_ st) (calls st).
Definition set_ledgersByIndex (f : gmap LedgerIndex LedgerHash → gmap LedgerIndex LedgerHash)
    (st : State) : State :=
  mkState (mismatch_counter_ st) (ledgerCache_ st) (consensusValidated_ st)
          (f (mLedgersByIndex st)) (j_ st) (calls st).
Definition set_journal (f : list Line → list Line) (st : State) : State :=
  mkState (mismatch_counter_ st) (ledgerCache_ st) (consensusValidated_ st)
          (mLedgersByIndex st) (f (j_ st)) (calls st).
Definition set_calls (f : list Call → list Call) (st : State) : State :=
  mkState (mismatch_counter_ st) (ledgerCache_ st) (consensusValidated_ st)
          (mLedgersByIndex st) (j_ st) (f (calls st)).

(** ** The monad of member functions *)

Inductive Abort :=
  | LogicError          (* ripple::LogicError, contract.h: never returns *)
  | assertion_failed    (* assert(e) with e false, assertions compiled in *)
  | null_dereference    (* operator-> on an empty shared_ptr *)
  | bad_optional_access. (* std::optional::value() on an empty optional *)

Inductive Outcome (A : Type) :=
  | Returns (a : A) (st : State)
  | Aborts (why : Abort) (st : State).
Arguments Returns {A} a st.
Arguments Aborts {A} why st.

Definition M (A : Type) : Type := State → Outcome A.

Definition ret {A} (a : A) : M A := λ st, Returns a st.
Definition bind {A B} (m : M A) (k : A → M B) : M B :=
  λ st, match m st with
        | Returns a st' => k a st'
        | Aborts why st' => Aborts why st'
        end.
Definition abort {A} (why : Abort) : M A := λ st, Aborts why st.
Definition get {A} (f : State → A) : M A := λ st, Returns (f st) st.
Definition modify (f : State → State) : M unit := λ st, Returns tt (f st).

Notation "'let*' x ':=' m 'in' k" := (bind m (λ x, k))
  (at level 10, x name, m at level 100, k at level 200).
Notation "m >> k" := (bind m (λ _, k))
  (at level 100, k at level 200, right associativity).

(** The state in which a call ends, whichever way it ends. *)
Definition final {A} (o : Outcome A) : State :=
  match o with Returns _ st => st | Aborts _ st => st end.

Definition JLOG (sev : Severity) (m : Msg) : M unit :=
  modify (set_journal (λ j, j ++ [(sev, m)])).

Definition when (b : bool) (m : M unit) : M unit := if b then m else ret tt.

Fixpoint for_each {A} (l : list A) (body : A → M unit) : M unit :=
  match l with
  | [] => ret tt
  | x :: l' => body x >> for_each l' body
  end.

(** ** TaggedCache *)

(** Modelled from the spec: TaggedCache.h is not part of the sources.
    "At most one live entry per hash"; [fetch] is a lookup,
    [retrieve_or_insert] is "insert if absent, else return the existing
    instance", [insert_or_assign] "inserts-or-replaces" and "returns whether
    an entry for that hash already existed". *)
Section TaggedCache.
Context {K : Type} `{Countable K} {V : Type}.

Definition fetch (k : K) (c : gmap K V) : option V := c !! k.

Definition retrieve_or_insert (k : K) (data : V) (c : gmap K V) : V * gmap K V :=
  match c !! k with
  | Some cached => (cached, c)
  | None => (data, <[k := data]> c)
  end.

Definition insert_or_assign (k : K) (data : V) (c : gmap K V) : bool * gmap K V :=
  (bool_decide (is_Some (c !! k)), <[k := data]> c).

(** [erase_if (pred)], by its name: the entries whose value satisfies
    [pred] are erased, the others stay. *)
Definition erase_if (pred : V → bool) (c : gmap K V) : gmap K V :=
  filter (λ kv, pred kv.2 = false) c.
End TaggedCache.

Section Members.

(** [true] when the file is compiled with NDEBUG, so that [assert] expands
    to nothing. *)
Variable NDEBUG : bool.

(** The ledger store behind [app_]: [loadByHash] and [loadByIndex] of
    Ledger.cpp, which is not part of the sources. *)
Variable loadByHash : LedgerHash → option Ledger.
Variable loadByIndex : LedgerIndex → option Ledger.

(** [ReadView::txRead(key).second]: the metadata stored with a transaction,
    or null.  Ledger.cpp is not part of the sources. *)
Variable txRead : Ledger → uint256 → option STObject.

Definition assert (e : bool) : M unit :=
  if NDEBUG || e then ret tt else abort assertion_failed.

Definition isNonZero (h : uint256) : bool := negb (N.eqb h 0).
Definition isZero (h : uint256) : bool := N.eqb h 0.

(** ** insert, getLedgerHash, getLedgerBySeq, getLedgerByHash *)

Definition insert (ledger : Ledger) (validated : bool) : M bool :=
  when (negb (isImmutable ledger)) (abort LogicError) >>
  assert (isNonZero (stateMap_getHash ledger)) >>
  let* alreadyHad := (λ st,
     let '(had, c) := insert_or_assign (hash (info ledger)) ledger (ledgerCache_ st) in
     Returns had (set_ledgerCache (λ _, c) st)) in
  when validated
    (modify (set_ledgersByIndex (λ m, <[seq (info ledger) := hash (info ledger)]> m))) >>
  ret alreadyHad.

Definition getLedgerHash (index : LedgerIndex) : M LedgerHash :=
  let* it := get (λ st, mLedgersByIndex st !! index) in
  match it with
  | Some h => ret h
  | None => ret 0%N
  end.

Definition cache_retrieve_or_insert (ledger : Ledger) : M Ledger :=
  λ st, let '(r, c) := retrieve_or_insert (hash (info ledger)) ledger (ledgerCache_ st) in
        Returns r (set_ledgerCache (λ _, c) st).

Definition getLedgerByHash (h : LedgerHash) : M (option Ledger) :=
  let* r := get (λ st, fetch h (ledgerCache_ st)) in
  match r with
  | Some l =>
      assert (isImmutable l) >>
      assert (bool_decide (hash (info l) = h)) >>
      ret (Some l)
  | None =>
      match loadByHash h with
      | None => ret None
      | Some l =>
          assert (isImmutable l) >>
          assert (bool_decide (hash (info l) = h)) >>
          let* l' := cache_retrieve_or_insert l in
          assert (bool_decide (hash (info l') = h)) >>
          ret (Some l')
      end
  end.

Definition getLedgerBySeq (index : LedgerIndex) : M (option Ledger) :=
  let* it := get (λ st, mLedgersByIndex st !! index) in
  match it with
  | Some h => getLedgerByHash h
  | None =>
      match loadByIndex index with
      | None => ret None
      | Some l =>
          assert (bool_decide (seq (info l) = index)) >>
          assert (isImmutable l) >>
          let* l' := cache_retrieve_or_insert l in
          modify (set_ledgersByIndex (λ m, <[seq (info l') := hash (info l')]> m)) >>
          ret (if bool_decide (seq (info l') = index) then Some l' else None)
      end
  end.

(** ** log_one and log_metadata_difference *)

Definition log_one (ledger : Ledger) (tx : uint256) (msg : Side) : M unit :=
  let metaData := txRead ledger tx in
  match metaData with
  | Some m => JLOG debug (MISMATCH_is_missing_this_transaction tx msg (Some m))
  | None => JLOG debug (MISMATCH_is_missing_this_transaction tx msg None)
  end.

(** The lambda [getMeta] of [log_metadata_difference]. *)
Definition getMeta (ledger : Ledger) (txID : uint256) : option TxMeta :=
  match txRead ledger txID with
  | None => None
  | Some meta => Some (TxMeta_ctor txID (seq (info ledger)) meta)
  end.

Definition log_metadata_difference (builtLedger validLedger : Ledger) (tx : uint256) : M unit :=
  let validMetaData := getMeta validLedger tx in
  let builtMetaData := getMeta builtLedger tx in
  assert (bool_decide (validMetaData ≠ None) || bool_decide (builtMetaData ≠ None)) >>
  match validMetaData, builtMetaData with
  | Some vm, Some bm =>
      let validNodes := getNodes vm in
      let builtNodes := getNodes bm in
      let result_diff := bool_decide (getResultTER vm ≠ getResultTER bm) in
      let index_diff := bool_decide (getIndex vm ≠ getIndex bm) in
      let nodes_diff := bool_decide (validNodes ≠ builtNodes) in
      if negb result_diff && negb index_diff && negb nodes_diff then
        JLOG error (MISMATCH_No_apparent_mismatches_detected tx)
      else if negb nodes_diff then
        if result_diff && index_diff then
          JLOG debug (MISMATCH_on_TX tx Different_result_and_index) >>
          JLOG debug (Built_ (Some (getResult bm)) (Some (getIndex bm)) None) >>
          JLOG debug (Valid_ (Some (getResult vm)) (Some (getIndex vm)) None)
        else if result_diff then
          JLOG debug (MISMATCH_on_TX tx Different_result) >>
          JLOG debug (Built_ (Some (getResult bm)) None None) >>
          JLOG debug (Valid_ (Some (getResult vm)) None None)
        else if index_diff then
          JLOG debug (MISMATCH_on_TX tx Different_index) >>
          JLOG debug (Built_ None (Some (getIndex bm)) None) >>
          JLOG debug (Valid_ None (Some (getIndex vm)) None)
        else ret tt
      else
        if result_diff && index_diff then
          JLOG debug (MISMATCH_on_TX tx Different_result_index_and_nodes) >>
          JLOG debug (Built_json (getJson bm)) >>
          JLOG debug (Valid_json (getJson vm))
        else if result_diff then
          JLOG debug (MISMATCH_on_TX tx Different_result_and_nodes) >>
          JLOG debug (Built_ (Some (getResult bm)) None (Some builtNodes)) >>
          JLOG debug (Valid_ (Some (getResult vm)) None (Some validNodes))
        else if index_diff then
          JLOG debug (MISMATCH_on_TX tx Different_index_and_nodes) >>
          JLOG debug (Built_ None (Some (getIndex bm)) (Some builtNodes)) >>
          JLOG debug (Valid_ None (Some (getIndex vm)) (Some validNodes))
        else
          JLOG debug (MISMATCH_on_TX tx Different_nodes) >>
          JLOG debug (Built_ None None (Some builtNodes)) >>
          JLOG debug (Valid_ None None (Some validNodes))
  | Some vm, None =>
      JLOG error (MISMATCH_Metadata_Difference_built_has_none tx (getJson vm))
  | None, Some bm =>
      JLOG error (MISMATCH_Metadata_Difference_valid_has_none tx (getJson bm))
  | None, None =>
      (* the last else branch calls builtMetaData->getJson on a null pointer *)
      abort null_dereference
  end.

(** ** handleMismatch *)

(** The lambda [leaves]: the items of the map, sorted with [std::sort] and
    the comparison [lhs->key() < rhs->key()].  The keys of a SHAMap are
    distinct, so the sorted vector does not depend on the sorting
    algorithm; an insertion sort stands for [std::sort]. *)
Fixpoint sort_insert (x : SHAMapItem) (v : list SHAMapItem) : list SHAMapItem :=
  match v with
  | [] => [x]
  | y :: v' => if (key x <? key y)%N then x :: y :: v' else y :: sort_insert x v'
  end.

Definition leaves (sm : list SHAMapItem) : list SHAMapItem :=
  foldr sort_insert [] sm.

(** [builtTx == validTx] on two [std::vector<SHAMapItem const*>]: the same
    number of pointers and the same pointers in the same places. *)
Definition same_pointers (b v : list SHAMapItem) : bool :=
  bool_decide (item_addr <$> b = item_addr <$> v).

(** The [while (b != builtTx.end() && v != validTx.end())] loop.  It returns
    the two iterators, that is what is left of each vector. *)
Fixpoint log_differences (builtLedger validLedger : Ledger)
    (b : list SHAMapItem) : list SHAMapItem → M (list SHAMapItem * list SHAMapItem) :=
  match b with
  | [] => λ v, ret ([], v)
  | ib :: b' =>
      fix at_b (v : list SHAMapItem) : M (list SHAMapItem * list SHAMapItem) :=
        match v with
        | [] => ret (ib :: b', [])
        | iv :: v' =>
            if (key ib <? key iv)%N then
              log_one builtLedger (key ib) side_valid >>
              log_differences builtLedger validLedger b' (iv :: v')
            else if (key iv <? key ib)%N then
              log_one validLedger (key iv) side_built >>
              at_b v'
            else
              when (bool_decide (slice ib ≠ slice iv))
                   (log_metadata_difference builtLedger validLedger (key ib)) >>
              log_differences builtLedger validLedger b' v'
        end
  end.

(** The last part of [handleMismatch], from
    [if (builtConsensusHash && validatedConsensusHash)] to the end of the
    function: it is reached when both ledgers are found and agree on the
    parent hash and on the close time. *)
Definition compare_transactions
    (builtConsensusHash validatedConsensusHash : option uint256)
    (builtLedger validLedger : Ledger) : M unit :=
  match builtConsensusHash, validatedConsensusHash with
  | Some bc, Some vc =>
      if bool_decide (bc ≠ vc)
      then JLOG error (MISMATCH_on_consensus_transaction_set bc vc)
      else JLOG error (MISMATCH_with_same_consensus_transaction_set bc)
  | _, _ => ret tt
  end >>
  let builtTx := leaves (txMap builtLedger) in
  let validTx := leaves (txMap validLedger) in
  (if same_pointers builtTx validTx
   then JLOG error (MISMATCH_with_same_transactions (length builtTx))
   else JLOG error (MISMATCH_with_built_and_valid_transactions
                      (length builtTx) (length validTx))) >>
  JLOG error (built_getJson builtLedger) >>
  JLOG error (valid_getJson validLedger) >>
  let* bv := log_differences builtLedger validLedger builtTx validTx in
  for_each (fst bv) (λ i, log_one builtLedger (key i) side_valid) >>
  for_each (snd bv) (λ i, log_one validLedger (key i) side_built).

Definition handleMismatch (built valid : LedgerHash)
    (builtConsensusHash validatedConsensusHash : option uint256)
    (consensus : Json_Value) : M unit :=
  modify (set_calls (λ c, c ++ [mkCall built valid builtConsensusHash
                                       validatedConsensusHash consensus])) >>
  assert (bool_decide (built ≠ valid)) >>
  modify (set_counter N.succ) >>
  let* builtLedger := getLedgerByHash built in
  let* validLedger := getLedgerByHash valid in
  match builtLedger, validLedger with
  | Some builtLedger, Some validLedger =>
      assert (bool_decide (seq (info builtLedger) = seq (info validLedger))) >>
      JLOG debug (Mismatch_on (seq (info builtLedger)) builtLedger validLedger consensus) >>
      if bool_decide (parentHash (info builtLedger) ≠ parentHash (info validLedger)) then
        JLOG error MISMATCH_on_prior_ledger
      else if bool_decide (closeTime (info builtLedger) ≠ closeTime (info validLedger)) then
        JLOG error MISMATCH_on_close_time
      else
        compare_transactions builtConsensusHash validatedConsensusHash
                             builtLedger validLedger
  | _, _ =>
      JLOG error (MISMATCH_cannot_be_analyzed built valid builtLedger validLedger)
  end.

(** ** builtLedger, validatedLedger, fixIndex *)

(** [auto entry = std::make_shared<cv_entry>();
     consensusValidated_.retrieve_or_insert(index, entry);]
    Afterwards [entry] points to the entry that the cache holds for [index];
    the writes through [entry] below are writes to that entry. *)
Definition cv_retrieve_or_insert (index : LedgerIndex) : M cv_entry :=
  λ st, let '(e, c) := retrieve_or_insert index new_cv_entry (consensusValidated_ st) in
        Returns e (set_consensusValidated (λ _, c) st).

Definition builtLedger (ledger : Ledger) (consensusHash : uint256)
    (consensus : Json_Value) : M unit :=
  let index := seq (info ledger) in
  let hash := hash (info ledger) in
  assert (negb (isZero hash)) >>
  let* entry := cv_retrieve_or_insert index in
  match validated entry, built entry with
  | Some v, None =>
      if bool_decide (v ≠ hash) then
        JLOG error (MISMATCH_seq_validated_then index v hash) >>
        handleMismatch hash v (Some consensusHash) (validatedConsensusHash entry) consensus
      else
        JLOG debug (MATCH_seq_late index)
  | _, _ => ret tt
  end >>
  modify (set_consensusValidated (alter (λ e,
    mkEntry (Some hash) (validated e) (Some consensusHash)
            (validatedConsensusHash e) (Some consensus)) index)).

Definition validatedLedger (ledger : Ledger) (consensusHash : option uint256) : M unit :=
  let index := seq (info ledger) in
  let hash := hash (info ledger) in
  assert (negb (isZero hash)) >>
  let* entry := cv_retrieve_or_insert index in
  match built entry, validated entry with
  | Some b, None =>
      if bool_decide (b ≠ hash) then
        JLOG error (Mismatch_on_validated_ledger index b hash) >>
        match consensus entry with
        | Some c => handleMismatch b hash (builtConsensusHash entry) consensusHash c
        | None => abort bad_optional_access
        end
      else ret tt
  | _, _ => ret tt
  end >>
  modify (set_consensusValidated (alter (λ e,
    mkEntry (built e) (Some hash) (builtConsensusHash e) consensusHash (consensus e)) index)).

Definition fixIndex (ledgerIndex : LedgerIndex) (ledgerHash : LedgerHash) : M bool :=
  let* it := get (λ st, mLedgersByIndex st !! ledgerIndex) in
  match it with
  | Some h =>
      if bool_decide (h ≠ ledgerHash) then
        modify (set_ledgersByIndex (λ m, <[ledgerIndex := ledgerHash]> m)) >>
        ret false
      else ret true
  | None => ret true
  end.

Definition clearLedgerCachePrior (seq_ : LedgerIndex) : M unit :=
  modify (set_ledgerCache
    (erase_if (λ ledger : Ledger, (seq (info ledger) <? seq_)%N))).

(** ** A caller *)

(** One call of [builtLedger] or [validatedLedger], and a series of such
    calls made one after the other on the same object. *)
Inductive Event :=
  | call_builtLedger (ledger : Ledger) (consensusHash : uint256) (consensus : Json_Value)
  | call_validatedLedger (ledger : Ledger) (consensusHash : option uint256).

Definition event_ledger (e : Event) : Ledger :=
  match e with
  | call_builtLedger l _ _ => l
  | call_validatedLedger l _ => l
  end.

Definition step (e : Event) : M unit :=
  match e with
  | call_builtLedger l ch c => builtLedger l ch c
  | call_validatedLedger l ch => validatedLedger l ch
  end.

Definition run_events (evs : list Event) : M unit := for_each evs step.

(** One call of a public member function that changes or reads the
    members, whatever it returns, and a series of such calls. *)
Inductive Operation :=
  | do_insert (ledger : Ledger) (validated : bool)
  | do_getLedgerHash (index : LedgerIndex)
  | do_getLedgerBySeq (index : LedgerIndex)
  | do_getLedgerByHash (hash : LedgerHash)
  | do_event (e : Event)
  | do_fixIndex (ledgerIndex : LedgerIndex) (ledgerHash : LedgerHash)
  | do_clearLedgerCachePrior (seq_ : LedgerIndex).

Definition perform (op : Operation) : M unit :=
  match op with
  | do_insert ledger validated => insert ledger validated >> ret tt
  | do_getLedgerHash index => getLedgerHash index >> ret tt
  | do_getLedgerBySeq index => getLedgerBySeq index >> ret tt
  | do_getLedgerByHash h => getLedgerByHash h >> ret tt
  | do_event e => step e
  | do_fixIndex ledgerIndex ledgerHash => fixIndex ledgerIndex ledgerHash >> ret tt
  | do_clearLedgerCachePrior seq_ => clearLedgerCachePrior seq_
  end.

Definition perform_all (ops : list Operation) : M unit := for_each ops perform.

End Members.

End LedgerHistory.

(** * Message.cpp *)

Module Message.
Import SpecFloat.
Local Open Scope Z_scope.

(** ** double *)

(** IEEE 754 binary64 on the specification of the Standard Library:
    [(double)n] rounds to nearest even, [1.0] and [0.0] are the literals of
    the constructor, [/], [-] and [>] the operations of the type. *)
Definition double : Type := spec_float.
Definition to_double (n : Z) : double := binary_normalize 53 1024 n 0 false.
Definition one : double := SFone 53 1024.
Definition zero : double := S754_zero false.
Definition ddiv (x y : double) : double := SFdiv 53 1024 x y.
Definition dsub (x y : double) : double := SFsub 53 1024 x y.
Definition dgt (x y : double) : bool := SFltb y x.

Section Members.

(** The message types of ripple.proto ([protocol::mtMANIFESTS] and so on)
    and [ripple::compression::Algorithm::LZ4], a [uint8_t]: neither
    ripple.pb.h nor Compression.h is part of the sources. *)
Variables mtMANIFESTS mtENDPOINTS mtTRANSACTION mtGET_LEDGER : Z.
Variables mtLEDGER_DATA mtGET_OBJECTS mtVALIDATORLIST : Z.
Variable Algorithm_LZ4 : Z.

(** [ripple::compression::compress], by its result: the compressed bytes.
    Compression.h is not part of the sources. *)
Variable compress : list Z → list Z.

(** [true] when the file is compiled with NDEBUG. *)
Variable NDEBUG : bool.

(** [static_cast<std::uint8_t>] and the conversion to a [uint8_t] variable. *)
Definition uint8_t (z : Z) : Z := z mod 256.

(** [std::size_t constexpr headerBytes = 6]. *)
Definition headerBytes : nat := 6.

(** The lambda [set_header]: the six bytes it stores at [ptr].
    [messageBytes] is not negative; [type] is an [int], shifted and masked
    as a two's complement number. *)
Definition set_header (messageBytes : Z) (type : Z) (compressed : bool)
    (compr_algorithm : Z) : list Z :=
  let compr_algorithm := uint8_t compr_algorithm in
  let compression :=
    uint8_t (Z.land (if compressed then 0xF0 else 0)
                    (Z.lor 0x80 (Z.shiftl compr_algorithm 4))) in
  [ uint8_t (Z.land (Z.lor (Z.shiftr messageBytes 24) compression) 0xFF);
    uint8_t (Z.land (Z.shiftr messageBytes 16) 0xFF);
    uint8_t (Z.land (Z.shiftr messageBytes 8) 0xFF);
    uint8_t (Z.land messageBytes 0xFF);
    uint8_t (Z.land (Z.shiftr type 8) 0xFF);
    uint8_t (Z.land type 0xFF) ].

(** The members [mBuffer] and [mBufferCompressed]; [mCategory] is computed
    by [TrafficCount::categorize], which is not part of the sources, and
    plays no part in the buffers. *)
Record Message := mkMessage {
  mBuffer : list Z;
  mBufferCompressed : list Z
}.

Definition compressible (compression_enabled : bool) (type messageBytes : Z) : bool :=
  compression_enabled &&
  ((type =? mtMANIFESTS) || (type =? mtENDPOINTS) ||
   (type =? mtTRANSACTION) || (type =? mtGET_LEDGER) || (type =? mtLEDGER_DATA) ||
   (type =? mtGET_OBJECTS) || (type =? mtVALIDATORLIST)) &&
  (70 <? messageBytes).

(** [double ratio = 1.0 - (double)compressedSize / (double)messageBytes]. *)
Definition ratio (compressedSize messageBytes : Z) : double :=
  dsub one (ddiv (to_double compressedSize) (to_double messageBytes)).

(** The constructor.  The protobuf message is given by its serialization
    [message]: [ByteSize()] is its length and [SerializeToArray] copies it.
    A protobuf size is an [int], so [messageBytes] fits both types it has
    in the two branches of the [#if].  The result is [None] when
    [assert (messageBytes != 0)] fails. *)
Definition Message_ (message : list Z) (type : Z) (compression_enabled : bool)
    : option Message :=
  let messageBytes := Z.of_nat (length message) in
  if negb NDEBUG && (messageBytes =? 0) then None
  else
    let mBuffer := set_header messageBytes type false Algorithm_LZ4 ++ message in
    let mBufferCompressed :=
      if compressible compression_enabled type messageBytes then
        let compressed := compress message in
        let compressedSize := Z.of_nat (length compressed) in
        if dgt (ratio compressedSize messageBytes) zero
        then set_header compressedSize type true Algorithm_LZ4 ++ compressed
        else []
      else [] in
    Some (mkMessage mBuffer mBufferCompressed).

End Members.

End Message.

(** ** Example data *)

Module Examples.
Import LedgerHistory.

(** A new [LedgerHistory]: empty caches, counter at zero. *)
Definition new_history : State := mkState 0 ∅ ∅ ∅ [] [].

(** Transactions: [tx7] and [tx7'] have the same key and different bytes. *)
Definition tx7 : SHAMapItem := mkItem 100 7 [1; 2]%N.
Definition tx7' : SHAMapItem := mkItem 101 7 [1; 3]%N.
Definition tx8 : SHAMapItem := mkItem 102 8 [6]%N.
Definition tx9 : SHAMapItem := mkItem 103 9 [5]%N.

(** Ledgers of sequence 5.  [built5] and [valid5] have the same parent and
    close time; [fork5] has another parent, [late5] another close time;
    [copy5] has the keys of [built5] with other bytes for key 7. *)
Definition built5 : Ledger := mkLedger (mkInfo 5 11 10 1000) true 21 [tx9; tx7].
Definition valid5 : Ledger := mkLedger (mkInfo 5 12 10 1000) true 22 [tx7'; tx8].
Definition fork5 : Ledger := mkLedger (mkInfo 5 13 99 1000) true 23 [].
Definition late5 : Ledger := mkLedger (mkInfo 5 14 10 1030) true 24 [].
Definition copy5 : Ledger := mkLedger (mkInfo 5 15 10 1000) true 25 [tx7'; tx9].
Definition rebuilt5 : Ledger := mkLedger (mkInfo 5 16 10 1000) true 26 [].

(** A ledger whose hash is zero, and a ledger of sequence 6. *)
Definition zero5 : Ledger := mkLedger (mkInfo 5 0 10 1000) true 27 [].
Definition other6 : Ledger := mkLedger (mkInfo 6 17 11 1010) true 28 [].

Definition store : list Ledger :=
  [built5; valid5; fork5; late5; copy5; rebuilt5; other6].

Definition loadByHash (h : LedgerHash) : option Ledger :=
  find (λ l, bool_decide (hash (info l) = h)) store.

(** A store that answers every request by sequence with [other6]. *)
Definition loadByIndex (index : LedgerIndex) : option Ledger := Some other6.

(** Metadata: in [built5] transaction 7 has result 0, in the other ledgers
    result 5; index and nodes are the same. *)
Definition txRead (l : Ledger) (tx : uint256) : option STObject :=
  Some (mkMeta (if bool_decide (hash (info l) = 11%N) then 0 else 5)
               (N.pred tx) [tx]).

(** Calls for sequence 5, with one call for sequence 6 in between: built,
    validated with another hash, then built again. *)
Definition events : list Event :=
  [call_builtLedger built5 1 "c"; call_builtLedger other6 3 "d";
   call_validatedLedger valid5 (Some 2%N); call_builtLedger rebuilt5 1 "e"].

(** Built and validated with the same hash, then built again with another. *)
Definition events_rebuilt : list Event :=
  [call_builtLedger built5 1 "c"; call_validatedLedger built5 None;
   call_builtLedger rebuilt5 3 "d"].

Definition mutable5 : Ledger := mkLedger (mkInfo 5 18 10 1000) false 29 [].
Definition stateless5 : Ledger := mkLedger (mkInfo 5 19 10 1000) true 0 [].

End Examples.

(** ** Example messages *)

Module MessageExamples.
Import Message.
Local Open Scope Z_scope.

(** The message types of ripple.proto that the constructor names, and the
    algorithm [LZ4] of Compression.h. *)
Definition mtMANIFESTS : Z := 2.
Definition mtENDPOINTS : Z := 15.
Definition mtTRANSACTION : Z := 30.
Definition mtGET_LEDGER : Z := 31.
Definition mtLEDGER_DATA : Z := 32.
Definition mtGET_OBJECTS : Z := 42.
Definition mtVALIDATORLIST : Z := 54.
Definition Algorithm_LZ4 : Z := 1.

(** A run-length coder in the place of LZ4: the constructor uses only the
    bytes that the compressor returns. *)
Fixpoint run_length (bytes : list Z) : list Z :=
  match bytes with
  | [] => []
  | b :: rest =>
      match run_length rest with
      | n :: b' :: out =>
          if (b =? b') && (n <? 255) then (n + 1) :: b' :: out
          else 1 :: b :: n :: b' :: out
      | _ => [1; b]
      end
  end.

(** The constructor in a build with assertions. *)
Definition Message_ : list Z → Z → bool → option Message :=
  Message.Message_ mtMANIFESTS mtENDPOINTS mtTRANSACTION mtGET_LEDGER
    mtLEDGER_DATA mtGET_OBJECTS mtVALIDATORLIST Algorithm_LZ4 run_length false.

(** A transaction of a hundred equal bytes and the message made of it. *)
Definition transaction : list Z := replicate 100 7.

Definition transaction_message : Message :=
  mkMessage ([0; 0; 0; 100; 0; 30] ++ transaction) [144; 0; 0; 2; 0; 30; 100; 7].


End MessageExamples.

(** ** Example calls *)

Module CallExamples.
Import LedgerHistory Examples.

(** A ledger whose transactions have metadata in [valid5] only. *)
Definition txRead_valid_only (l : Ledger) (tx : uint256) : option STObject :=
  if bool_decide (hash (info l) = 12%N) then Some (mkMeta 5 6 [7%N]) else None.

(** A series of public calls on one object. *)
Definition operations : list Operation :=
  [do_insert built5 true; do_getLedgerBySeq 6;
   do_event (call_builtLedger built5 1 "c"); do_getLedgerByHash 12;
   do_event (call_validatedLedger valid5 (Some 2%N)); do_fixIndex 5 12;
   do_clearLedgerCachePrior 6; do_insert mutable5 false].

End CallExamples.

(** * Properties of LedgerHistory.cpp *)

Section LedgerHistoryFacts.
Import LedgerHistory.

Variable NDEBUG : bool.
Variable loadByHash : LedgerHash → option Ledger.
Variable loadByIndex : LedgerIndex → option Ledger.
Variable txRead : Ledger → uint256 → option STObject.

Local Abbreviation insert := (LedgerHistory.insert NDEBUG).
Local Abbreviation assert := (LedgerHistory.assert NDEBUG).
Local Abbreviation getLedgerByHash := (LedgerHistory.getLedgerByHash NDEBUG loadByHash).
Local Abbreviation getLedgerBySeq := (LedgerHistory.getLedgerBySeq NDEBUG loadByHash loadByIndex).

(** *** The monad *)

Lemma bind_returns {A B} (m : M A) (k : A → M B) st a st' :
  m st = Returns a st' → bind m k st = k a st'.
Proof. unfold bind. by intros ->. Qed.

Lemma bind_aborts {A B} (m : M A) (k : A → M B) st why st' :
  m st = Aborts why st' → bind m k st = Aborts why st'.
Proof. unfold bind. by intros ->. Qed.

Lemma assert_true e st : e = true → assert e st = Returns tt st.
Proof. intros ->. unfold LedgerHistory.assert. by rewrite orb_true_r. Qed.

Lemma assert_NDEBUG e st : NDEBUG = true → assert e st = Returns tt st.
Proof. intros HN. unfold LedgerHistory.assert. by rewrite HN. Qed.

Lemma assert_false st : NDEBUG = false → assert false st = Aborts assertion_failed st.
Proof. intros HN. unfold LedgerHistory.assert. by rewrite HN. Qed.

Lemma assert_returns_inv e st u st' : assert e st = Returns u st' → st' = st.
Proof.
  unfold LedgerHistory.assert. destruct (NDEBUG || e); unfold ret, abort; congruence.
Qed.

(** *** insert *)

(** The state after a successful [insert]. *)
Definition inserted (ledger : Ledger) (validated : bool) (st : State) : State :=
  let st' := set_ledgerCache (λ c, <[hash (info ledger) := ledger]> c) st in
  if validated
  then set_ledgersByIndex (λ m, <[seq (info ledger) := hash (info ledger)]> m) st'
  else st'.

Lemma insert_returns ledger validated st :
  isImmutable ledger = true →
  NDEBUG = true ∨ stateMap_getHash ledger ≠ 0%N →
  insert ledger validated st =
    Returns (bool_decide (is_Some (ledgerCache_ st !! hash (info ledger))))
            (inserted ledger validated st).
Proof.
  intros Him Hst. unfold LedgerHistory.insert, inserted.
  rewrite Him. cbn [negb when].
  assert (Ha : assert (isNonZero (stateMap_getHash ledger)) st = Returns tt st).
  { destruct Hst as [HN|Hnz]; [by apply assert_NDEBUG|].
    apply assert_true. unfold isNonZero. by apply negb_true_iff, N.eqb_neq. }
  unfold bind at 1. unfold ret at 1. rewrite (bind_returns _ _ _ _ _ Ha).
  unfold bind, insert_or_assign. by destruct validated.
Qed.

Lemma insert_mutable ledger validated st :
  isImmutable ledger = false → insert ledger validated st = Aborts LogicError st.
Proof. intros Him. unfold LedgerHistory.insert. by rewrite Him. Qed.

Lemma insert_assertion ledger validated st :
  isImmutable ledger = true → NDEBUG = false → stateMap_getHash ledger = 0%N →
  insert ledger validated st = Aborts assertion_failed st.
Proof.
  intros Him HN Hz. unfold LedgerHistory.insert. rewrite Him, Hz. cbn [negb when].
  unfold bind at 1. unfold ret at 1.
  apply bind_aborts. by apply assert_false.
Qed.

(** C7 (as the code has it).  [insert] aborts with [LogicError], before it
    touches the object, for every mutable ledger, in every build.  With
    assertions compiled in it aborts on the assertion for an immutable ledger
    whose state map has a zero hash.  The hash of the ledger itself is not
    looked at: every other immutable ledger is stored in the ledger cache
    under [info().hash], and indexed by its sequence when [validated]. *)
Theorem insert_preconditions ledger validated st :
  (isImmutable ledger = false →
     insert ledger validated st = Aborts LogicError st) ∧
  (isImmutable ledger = true → NDEBUG = false → stateMap_getHash ledger = 0%N →
     insert ledger validated st = Aborts assertion_failed st) ∧
  (isImmutable ledger = true → NDEBUG = true ∨ stateMap_getHash ledger ≠ 0%N →
     ∃ alreadyHad st',
       insert ledger validated st = Returns alreadyHad st' ∧
       alreadyHad = bool_decide (is_Some (ledgerCache_ st !! hash (info ledger))) ∧
       ledgerCache_ st' !! hash (info ledger) = Some ledger ∧
       (validated = true →
          mLedgersByIndex st' !! seq (info ledger) = Some (hash (info ledger))) ∧
       (validated = false → mLedgersByIndex st' = mLedgersByIndex st)).
Proof.
  split; [apply insert_mutable|]. split; [apply insert_assertion|].
  intros Him Hst. eexists _, _. split; [by apply insert_returns|].
  split; [done|]. unfold inserted.
  destruct validated; cbn; (split; [by rewrite lookup_insert_eq|]);
    split; try done; intros _; by rewrite lookup_insert_eq.
Qed.

(** *** getLedgerBySeq *)

Lemma cache_retrieve_or_insert_run l st :
  cache_retrieve_or_insert l st =
    Returns (default l (ledgerCache_ st !! hash (info l)))
            (set_ledgerCache (λ c, match c !! hash (info l) with
                                   | Some _ => c
                                   | None => <[hash (info l) := l]> c
                                   end) st).
Proof.
  unfold cache_retrieve_or_insert, retrieve_or_insert, set_ledgerCache. cbn beta.
  by destruct (ledgerCache_ st !! hash (info l)).
Qed.

(** With assertions compiled in, a loader result for another sequence stops
    the program at [assert(ret->info().seq == index)]. *)
Lemma getLedgerBySeq_assertion index l st :
  NDEBUG = false →
  mLedgersByIndex st !! index = None →
  loadByIndex index = Some l →
  seq (info l) ≠ index →
  getLedgerBySeq index st = Aborts assertion_failed st.
Proof.
  intros HN Hidx Hload Hseq. unfold LedgerHistory.getLedgerBySeq.
  unfold bind at 1, get. rewrite Hidx, Hload.
  apply bind_aborts. rewrite bool_decide_eq_false_2 by done. by apply assert_false.
Qed.


(** *** What the analysis leaves alone *)

(** The lines with which [builtLedger] and [validatedLedger] announce that
    they call [handleMismatch]: the sequence, the built hash and the
    validated hash. *)
Definition announced (l : Line) : option (LedgerIndex * LedgerHash * LedgerHash) :=
  match l with
  | (error, MISMATCH_seq_validated_then index v h) => Some (index, h, v)
  | (error, Mismatch_on_validated_ledger index b h) => Some (index, b, h)
  | _ => None
  end.

(** [st'] differs from [st] at most in the ledger cache, the index map and
    in journal lines that announce nothing. *)
Definition extends (st st' : State) : Prop :=
  consensusValidated_ st' = consensusValidated_ st ∧
  calls st' = calls st ∧
  mismatch_counter_ st' = mismatch_counter_ st ∧
  ∃ new, j_ st' = j_ st ++ new ∧ omap announced new = [].

Definition passive {A} (m : M A) : Prop := ∀ st, extends st (final (m st)).

Lemma extends_refl st : extends st st.
Proof. repeat split. exists []. by rewrite app_nil_r. Qed.

Lemma extends_trans st1 st2 st3 : extends st1 st2 → extends st2 st3 → extends st1 st3.
Proof.
  intros (Hc1 & Hk1 & Hm1 & n1 & Hj1 & Hq1) (Hc2 & Hk2 & Hm2 & n2 & Hj2 & Hq2).
  repeat split; try congruence.
  exists (n1 ++ n2). split.
  - by rewrite Hj2, Hj1, app_assoc.
  - by rewrite omap_app, Hq1, Hq2.
Qed.

Lemma passive_ret {A} (a : A) : passive (ret a).
Proof. intros st. apply extends_refl. Qed.

Lemma passive_abort {A} why : passive (@abort A why).
Proof. intros st. apply extends_refl. Qed.

Lemma passive_get {A} (f : State → A) : passive (get f).
Proof. intros st. apply extends_refl. Qed.

Lemma passive_bind {A B} (m : M A) (k : A → M B) :
  passive m → (∀ a, passive (k a)) → passive (bind m k).
Proof.
  intros Hm Hk st. unfold bind. specialize (Hm st).
  destruct (m st) as [a st'|why st']; cbn in *; [|done].
  eapply extends_trans; [done|apply Hk].
Qed.

Lemma passive_assert e : passive (assert e).
Proof.
  unfold LedgerHistory.assert.
  destruct (NDEBUG || e); [apply passive_ret|apply passive_abort].
Qed.

Lemma passive_when b m : passive m → passive (when b m).
Proof. destruct b; [done|intros _; apply passive_ret]. Qed.

Lemma passive_JLOG sev m : announced (sev, m) = None → passive (JLOG sev m).
Proof.
  intros Hq st. repeat split. exists [(sev, m)]. split; [done|].
  cbn [omap list_omap]. by rewrite Hq.
Qed.

Lemma passive_for_each {A} (l : list A) body :
  (∀ x, passive (body x)) → passive (for_each l body).
Proof.
  intros Hb. induction l as [|x l IH]; [apply passive_ret|].
  apply passive_bind; [apply Hb|done].
Qed.

Lemma passive_cache_retrieve_or_insert l : passive (cache_retrieve_or_insert l).
Proof.
  intros st. rewrite cache_retrieve_or_insert_run. repeat split.
  exists []. by rewrite app_nil_r.
Qed.

Ltac passive_step :=
  first
    [ apply passive_ret | apply passive_abort | apply passive_get
    | apply passive_assert | apply passive_cache_retrieve_or_insert
    | apply passive_JLOG; reflexivity
    | apply passive_bind; [|intros ?]
    | apply passive_when ].

Lemma passive_getLedgerByHash h : passive (getLedgerByHash h).
Proof.
  unfold LedgerHistory.getLedgerByHash.
  apply passive_bind; [apply passive_get|]. intros [l|].
  - repeat passive_step.
  - destruct (loadByHash h); repeat passive_step.
Qed.

Lemma passive_log_one l tx msg : passive (log_one txRead l tx msg).
Proof. unfold log_one. destruct (txRead l tx); repeat passive_step. Qed.

Lemma passive_log_metadata_difference b v tx :
  passive (log_metadata_difference NDEBUG txRead b v tx).
Proof.
  unfold log_metadata_difference.
  apply passive_bind; [apply passive_assert|]. intros _.
  destruct (getMeta txRead v tx), (getMeta txRead b tx);
    repeat (repeat passive_step; try case_match).
Qed.

Lemma passive_log_differences bl vl b v :
  passive (log_differences NDEBUG txRead bl vl b v).
Proof.
  revert v. induction b as [|ib b IHb]; intros v; [apply passive_ret|].
  induction v as [|iv v IHv]; [apply passive_ret|].
  cbn [log_differences]. repeat case_match.
  - apply passive_bind; [apply passive_log_one|]. intros _. apply IHb.
  - apply passive_bind; [apply passive_log_one|]. intros _. apply IHv.
  - apply passive_bind; [|intros _; apply IHb].
    apply passive_when, passive_log_metadata_difference.
Qed.

(** *** handleMismatch *)

Local Abbreviation handleMismatch := (LedgerHistory.handleMismatch NDEBUG loadByHash txRead).
Local Abbreviation builtLedger := (LedgerHistory.builtLedger NDEBUG loadByHash txRead).
Local Abbreviation validatedLedger := (LedgerHistory.validatedLedger NDEBUG loadByHash txRead).

Lemma passive_compare_transactions bc vc bl vl :
  passive (compare_transactions NDEBUG txRead bc vc bl vl).
Proof.
  unfold compare_transactions.
  repeat (repeat passive_step; try case_match).
  - apply passive_log_differences.
  - apply passive_for_each. intros; apply passive_log_one.
  - apply passive_for_each. intros; apply passive_log_one.
Qed.

(** Whatever the analysis finds and however it ends, one invocation of
    [handleMismatch] is one more call and, unless the assertion
    [built != valid] stops it, one more on the counter; the tracker is not
    touched and no line of the journal announces a further call. *)
Lemma handleMismatch_effect b v bc vc c st :
  let st' := final (handleMismatch b v bc vc c st) in
  consensusValidated_ st' = consensusValidated_ st ∧
  calls st' = calls st ++ [mkCall b v bc vc c] ∧
  (NDEBUG = true ∨ b ≠ v → mismatch_counter_ st' = N.succ (mismatch_counter_ st)) ∧
  ∃ new, j_ st' = j_ st ++ new ∧ omap announced new = [].
Proof.
  intros st'. subst st'.
  remember (handleMismatch b v bc vc c st) as o eqn:Ho.
  unfold LedgerHistory.handleMismatch in Ho.
  unfold bind at 1 in Ho. unfold modify at 1 in Ho.
  unfold bind at 1 in Ho. unfold LedgerHistory.assert at 1 in Ho.
  destruct (NDEBUG || bool_decide (b ≠ v)) eqn:Hassert; cbn [ret abort] in Ho.
  - unfold bind at 1 in Ho. unfold modify at 1 in Ho. subst o.
    match goal with |- context [final (?m ?s)] =>
      assert (Hp : passive m);
      [|specialize (Hp s); revert Hp; generalize (final (m s));
        intros st' (Hcv & Hcalls & Hctr & new & Hj & Hq)] end.
    { apply passive_bind; [apply passive_getLedgerByHash|]. intros bl.
      apply passive_bind; [apply passive_getLedgerByHash|]. intros vl.
      destruct bl as [bl|], vl as [vl|]; try (repeat passive_step; fail).
      repeat first [apply passive_compare_transactions | passive_step | case_match]. }
    rewrite Hcv, Hcalls, Hctr, Hj. cbn. repeat split; eauto.
  - subst o. cbn. split; [done|]. split; [done|]. split.
    + intros [HN|Hne].
      * by rewrite HN in Hassert.
      * by rewrite bool_decide_eq_true_2, orb_true_r in Hassert.
    + exists []. by rewrite app_nil_r.
Qed.

(** *** builtLedger and validatedLedger *)

Lemma cv_retrieve_or_insert_run index st :
  cv_retrieve_or_insert index st =
    Returns (default new_cv_entry (consensusValidated_ st !! index))
            (set_consensusValidated (λ c, match c !! index with
                                          | Some _ => c
                                          | None => <[index := new_cv_entry]> c
                                          end) st).
Proof.
  unfold cv_retrieve_or_insert, retrieve_or_insert, set_consensusValidated. cbn beta.
  by destruct (consensusValidated_ st !! index).
Qed.

Lemma alter_after_retrieve (f : cv_entry → cv_entry) index (m : gmap N cv_entry) :
  alter f index (match m !! index with
                 | Some _ => m
                 | None => <[index := new_cv_entry]> m
                 end) =
  <[index := f (default new_cv_entry (m !! index))]> m.
Proof.
  apply map_eq. intros i. destruct (decide (index = i)) as [<-|Hne].
  - rewrite lookup_insert_eq. destruct (m !! index) as [e|] eqn:He; cbn.
    + by rewrite lookup_alter_eq, He.
    + by rewrite lookup_alter_eq, lookup_insert_eq.
  - rewrite lookup_insert_ne by done. destruct (m !! index) as [e|] eqn:He.
    + by rewrite lookup_alter_ne.
    + by rewrite lookup_alter_ne, lookup_insert_ne.
Qed.

Lemma assert_hash_nonzero h st :
  (NDEBUG = false → h ≠ 0%N) → assert (negb (isZero h)) st = Returns tt st.
Proof.
  intros Hh. unfold LedgerHistory.assert, isZero. destruct NDEBUG; [done|].
  specialize (Hh eq_refl). apply N.eqb_neq in Hh. by rewrite Hh.
Qed.

(** The first event of a sequence: [builtLedger] creates the entry, fills
    the built side and calls nothing. *)
Lemma builtLedger_first ledger ch c st :
  (NDEBUG = false → hash (info ledger) ≠ 0%N) →
  consensusValidated_ st !! seq (info ledger) = None →
  builtLedger ledger ch c st =
    Returns tt (set_consensusValidated
      (λ m, <[seq (info ledger) :=
                mkEntry (Some (hash (info ledger))) None (Some ch) None (Some c)]> m) st).
Proof.
  intros Hh Hcv. unfold LedgerHistory.builtLedger.
  rewrite (bind_returns _ _ _ _ _ (assert_hash_nonzero _ _ Hh)).
  rewrite (bind_returns _ _ _ _ _ (cv_retrieve_or_insert_run _ _)).
  rewrite Hcv. cbn. unfold modify, set_consensusValidated. cbn.
  by rewrite alter_after_retrieve, Hcv.
Qed.

(** C1.  From a state without an entry for the sequence, [builtLedger] for a
    ledger with hash H1 followed by [validatedLedger] for a ledger of the same
    sequence with hash H2: when H1 and H2 differ, [handleMismatch] is entered
    once, with [built = H1] and [valid = H2], and the counter is one higher;
    when they are equal, it is not entered and the counter is unchanged.
    (With assertions compiled in, both functions require a non-zero hash.) *)
Theorem built_then_validated lb lv ch vch c st :
  seq (info lv) = seq (info lb) →
  consensusValidated_ st !! seq (info lb) = None →
  (NDEBUG = false → hash (info lb) ≠ 0%N ∧ hash (info lv) ≠ 0%N) →
  ∃ st1,
    builtLedger lb ch c st = Returns tt st1 ∧
    calls st1 = calls st ∧
    mismatch_counter_ st1 = mismatch_counter_ st ∧
    (hash (info lb) ≠ hash (info lv) →
       calls (final (validatedLedger lv vch st1)) =
         calls st ++ [mkCall (hash (info lb)) (hash (info lv)) (Some ch) vch c] ∧
       mismatch_counter_ (final (validatedLedger lv vch st1)) =
         N.succ (mismatch_counter_ st)) ∧
    (hash (info lb) = hash (info lv) →
       ∃ st2, validatedLedger lv vch st1 = Returns tt st2 ∧
              calls st2 = calls st ∧
              mismatch_counter_ st2 = mismatch_counter_ st).
Proof.
  intros Hseq Hcv Hh. eexists. split.
  { apply builtLedger_first; [|done]. intros HN. by apply Hh. }
  split; [done|]. split; [done|].
  set (st1 := set_consensusValidated _ st).
  assert (Hrun : ∀ k : cv_entry → M unit,
            bind (assert (negb (isZero (hash (info lv)))))
                        (λ _, bind (cv_retrieve_or_insert (seq (info lv))) k) st1 =
            k (mkEntry (Some (hash (info lb))) None (Some ch) None (Some c)) st1).
  { intros k.
    rewrite (bind_returns _ _ _ _ _ (assert_hash_nonzero _ st1 (λ HN, proj2 (Hh HN)))).
    rewrite (bind_returns _ _ _ _ _ (cv_retrieve_or_insert_run _ _)).
    subst st1. cbn. rewrite Hseq, lookup_insert_eq. cbn.
    unfold set_consensusValidated. cbn. by rewrite lookup_insert_eq. }
  split.
  - intros Hne. remember (validatedLedger lv vch st1) as o eqn:Ho.
    unfold LedgerHistory.validatedLedger in Ho. rewrite Hrun in Ho.
    cbn [built validated consensus builtConsensusHash] in Ho.
    rewrite bool_decide_eq_true_2 in Ho by done.
    unfold bind at 1 in Ho. unfold bind at 1 in Ho.
    unfold JLOG at 1, modify at 1 in Ho.
    match type of Ho with context [handleMismatch ?b ?v ?bc ?vc ?cc ?s] =>
      pose proof (handleMismatch_effect b v bc vc cc s) as (_ & Hcalls & Hctr & _);
      destruct (handleMismatch b v bc vc cc s) as [[] st2|why st2] end;
      subst o; cbn in *; rewrite Hcalls, Hctr by (by right); done.
  - intros Heq. unfold LedgerHistory.validatedLedger. rewrite Hrun.
    cbn [built validated consensus builtConsensusHash].
    rewrite bool_decide_eq_false_2 by (intros Hne; by apply Hne).
    eexists. split; [reflexivity|]. done.
Qed.

(** *** Series of calls *)

Local Abbreviation step := (LedgerHistory.step NDEBUG loadByHash txRead).
Local Abbreviation run_events := (LedgerHistory.run_events NDEBUG loadByHash txRead).

(** What one call does to the entry of its sequence, and the call of
    [handleMismatch] it makes, as (sequence, built, validated): both read
    off [builtLedger] and [validatedLedger]. *)
Definition entry_after (e0 : cv_entry) (e : Event) : cv_entry :=
  match e with
  | call_builtLedger l ch c =>
      mkEntry (Some (hash (info l))) (validated e0) (Some ch)
              (validatedConsensusHash e0) (Some c)
  | call_validatedLedger l ch =>
      mkEntry (built e0) (Some (hash (info l))) (builtConsensusHash e0) ch (consensus e0)
  end.

Definition fires (e0 : cv_entry) (e : Event) : list (LedgerIndex * LedgerHash * LedgerHash) :=
  match e with
  | call_builtLedger l _ _ =>
      match validated e0, built e0 with
      | Some v, None =>
          if bool_decide (v ≠ hash (info l)) then [(seq (info l), hash (info l), v)] else []
      | _, _ => []
      end
  | call_validatedLedger l _ =>
      match built e0, validated e0 with
      | Some b, None =>
          if bool_decide (b ≠ hash (info l)) then [(seq (info l), b, hash (info l))] else []
      | _, _ => []
      end
  end.

Definition pair_of_call (c : Call) : LedgerHash * LedgerHash := (call_built c, call_valid c).
Definition pair_of (a : LedgerIndex * LedgerHash * LedgerHash) : LedgerHash * LedgerHash :=
  (a.1.2, a.2).

(** The effect of a call that returns. *)
Definition step_effect (e : Event) (st st' : State) : Prop :=
  let s := seq (info (event_ledger e)) in
  let e0 := default new_cv_entry (consensusValidated_ st !! s) in
  consensusValidated_ st' = <[s := entry_after e0 e]> (consensusValidated_ st) ∧
  (∃ new, j_ st' = j_ st ++ new ∧ omap announced new = fires e0 e) ∧
  (∃ newc, calls st' = calls st ++ newc ∧ pair_of_call <$> newc = pair_of <$> fires e0 e) ∧
  mismatch_counter_ st' = (mismatch_counter_ st + N.of_nat (length (fires e0 e)))%N.

Lemma step_effect_quiet e st st' :
  fires (default new_cv_entry (consensusValidated_ st !! seq (info (event_ledger e)))) e = [] →
  consensusValidated_ st' =
    <[seq (info (event_ledger e)) :=
        entry_after (default new_cv_entry
                       (consensusValidated_ st !! seq (info (event_ledger e)))) e]>
      (consensusValidated_ st) →
  j_ st' = j_ st → calls st' = calls st → mismatch_counter_ st' = mismatch_counter_ st →
  step_effect e st st'.
Proof.
  intros Hf Hcv Hj Hc Hm. unfold step_effect. cbn zeta. rewrite Hf. split; [done|].
  split; [exists []; by rewrite app_nil_r|].
  split; [exists []; by rewrite app_nil_r|].
  cbn. by rewrite N.add_0_r.
Qed.

Lemma builtLedger_returns l ch c st st' :
  builtLedger l ch c st = Returns tt st' → step_effect (call_builtLedger l ch c) st st'.
Proof.
  unfold LedgerHistory.builtLedger. unfold bind at 1.
  destruct (assert _ st) as [[] st0|] eqn:Ha; [|done].
  apply assert_returns_inv in Ha as ->.
  rewrite (bind_returns _ _ _ _ _ (cv_retrieve_or_insert_run _ _)).
  set (e0 := default new_cv_entry (consensusValidated_ st !! seq (info l))).
  set (st1 := set_consensusValidated _ st).
  destruct (validated e0) as [v|] eqn:Hv, (built e0) as [b|] eqn:Hb.
  2: destruct (bool_decide (v ≠ hash (info l))) eqn:Hne.
  1,4,5: unfold bind, ret, modify; intros [= <-];
         (apply step_effect_quiet;
          [ cbn [event_ledger fires]; fold e0; by rewrite Hv, ?Hb
          | subst st1; cbn; by rewrite alter_after_retrieve
          | done | done | done ]).
  - apply bool_decide_eq_true_1 in Hne.
    unfold bind at 1. unfold bind at 1. unfold JLOG at 1, modify at 1.
    match goal with |- context [handleMismatch ?b ?v ?bc ?vc ?cc ?s] =>
      pose proof (handleMismatch_effect b v bc vc cc s) as (Hcv & Hcalls & Hctr & new & Hj & Hq);
      destruct (handleMismatch b v bc vc cc s) as [[] st2|why st2] end; [|done].
    unfold modify. intros [= <-]. cbn in *.
    unfold step_effect. cbn. fold e0. rewrite Hv, Hb, bool_decide_eq_true_2 by done.
    rewrite Hcv, alter_after_retrieve. fold e0. rewrite Hv.
    split; [done|]. split; [|split].
    + eexists. rewrite Hj, <- app_assoc. split; [done|]. cbn. by rewrite Hq.
    + eexists. split; [done|]. done.
    + rewrite Hctr by (right; congruence). cbn. lia.
  - unfold bind, JLOG, modify. intros [= <-].
    unfold step_effect. cbn. fold e0. rewrite Hv, Hb, Hne, alter_after_retrieve.
    fold e0. rewrite Hv.
    split; [done|]. split; [|split].
    + eexists. split; [done|]. done.
    + exists []. by rewrite app_nil_r.
    + cbn. lia.
Qed.

Lemma validatedLedger_returns l ch st st' :
  validatedLedger l ch st = Returns tt st' → step_effect (call_validatedLedger l ch) st st'.
Proof.
  unfold LedgerHistory.validatedLedger. unfold bind at 1.
  destruct (assert _ st) as [[] st0|] eqn:Ha; [|done].
  apply assert_returns_inv in Ha as ->.
  rewrite (bind_returns _ _ _ _ _ (cv_retrieve_or_insert_run _ _)).
  set (e0 := default new_cv_entry (consensusValidated_ st !! seq (info l))).
  set (st1 := set_consensusValidated _ st).
  destruct (built e0) as [b|] eqn:Hb, (validated e0) as [v|] eqn:Hv.
  2: destruct (bool_decide (b ≠ hash (info l))) eqn:Hne.
  1,4,5: unfold bind, ret, modify; intros [= <-];
         (apply step_effect_quiet;
          [ cbn [event_ledger fires]; fold e0; by rewrite Hb, ?Hv
          | subst st1; cbn; by rewrite alter_after_retrieve
          | done | done | done ]).
  - apply bool_decide_eq_true_1 in Hne.
    unfold bind at 1. unfold bind at 1. unfold JLOG at 1, modify at 1.
    destruct (consensus e0) as [c|] eqn:Hc; [|done].
    match goal with |- context [handleMismatch ?b ?v ?bc ?vc ?cc ?s] =>
      pose proof (handleMismatch_effect b v bc vc cc s) as (Hcv & Hcalls & Hctr & new & Hj & Hq);
      destruct (handleMismatch b v bc vc cc s) as [[] st2|why st2] end; [|done].
    unfold modify. intros [= <-]. cbn in *.
    unfold step_effect. cbn. fold e0. rewrite Hv, Hb, bool_decide_eq_true_2 by done.
    rewrite Hcv, alter_after_retrieve. fold e0. rewrite Hb.
    split; [done|]. split; [|split].
    + eexists. rewrite Hj, <- app_assoc. split; [done|]. cbn. by rewrite Hq.
    + eexists. split; [done|]. done.
    + rewrite Hctr by (by right). cbn. lia.
  - unfold bind, ret, modify. intros [= <-].
    apply step_effect_quiet;
      [ cbn [event_ledger fires]; fold e0; by rewrite Hb, Hv, Hne
      | subst st1; cbn; by rewrite alter_after_retrieve
      | done | done | done ].
Qed.

Lemma step_returns e st st' : step e st = Returns tt st' → step_effect e st st'.
Proof. destruct e; [apply builtLedger_returns|apply validatedLedger_returns]. Qed.

(** The calls that a series of events makes for the sequence [s], computed
    on the entry of [s] alone. *)
Fixpoint expected_from (s : LedgerIndex) (e0 : cv_entry) (evs : list Event)
    : list (LedgerIndex * LedgerHash * LedgerHash) :=
  match evs with
  | [] => []
  | e :: evs' =>
      if decide (seq (info (event_ledger e)) = s)
      then fires e0 e ++ expected_from s (entry_after e0 e) evs'
      else expected_from s e0 evs'
  end.

Lemma filter_fires s e0 e :
  filter (λ a, a.1.1 = s) (fires e0 e) =
    if decide (seq (info (event_ledger e)) = s) then fires e0 e else [].
Proof.
  destruct e as [l ch c|l ch]; cbn [fires event_ledger];
    repeat case_match; try done; subst;
    (rewrite filter_cons; cbn; case_decide; done).
Qed.

Lemma run_events_returns evs st st' :
  run_events evs st = Returns tt st' →
  ∃ new newc,
    j_ st' = j_ st ++ new ∧
    calls st' = calls st ++ newc ∧
    pair_of_call <$> newc = pair_of <$> omap announced new ∧
    mismatch_counter_ st' = (mismatch_counter_ st + N.of_nat (length newc))%N ∧
    ∀ s, filter (λ a, a.1.1 = s) (omap announced new) =
         expected_from s (default new_cv_entry (consensusValidated_ st !! s)) evs.
Proof.
  revert st. induction evs as [|e evs IH]; intros st.
  - intros [= <-]. exists [], []. rewrite !app_nil_r. cbn. repeat split; try done. lia.
  - unfold LedgerHistory.run_events. cbn [for_each]. unfold bind.
    destruct (step e st) as [[] st1|] eqn:Hstep; [|done]. intros Hrun.
    apply step_returns in Hstep as (Hcv & (n1 & Hj1 & Ha1) & (c1 & Hc1 & Hp1) & Hm1).
    destruct (IH _ Hrun) as (n2 & c2 & Hj2 & Hc2 & Hp2 & Hm2 & Hs2).
    exists (n1 ++ n2), (c1 ++ c2). split; [by rewrite Hj2, Hj1, app_assoc|].
    split; [by rewrite Hc2, Hc1, app_assoc|].
    split; [by rewrite omap_app, !fmap_app, Hp1, Hp2, Ha1|].
    split.
    { apply (f_equal length) in Hp1. rewrite !length_fmap in Hp1.
      rewrite Hm2, Hm1, length_app, Hp1. lia. }
    intros s. rewrite omap_app, filter_app, Ha1, filter_fires, Hs2, Hcv.
    cbn [expected_from]. case_decide as Hs.
    + subst s. by rewrite lookup_insert_eq.
    + by rewrite lookup_insert_ne.
Qed.

(** The first moment at which both sides of a sequence are known, read off
    a series of calls for that sequence: the pair (built, validated) that the
    entry holds at that moment.  A repeated call on the side that is already
    known replaces its hash. *)
Fixpoint first_pair_after_built (b : LedgerHash) (evs : list Event)
    : option (LedgerHash * LedgerHash) :=
  match evs with
  | [] => None
  | call_builtLedger l _ _ :: evs' => first_pair_after_built (hash (info l)) evs'
  | call_validatedLedger l _ :: _ => Some (b, hash (info l))
  end.

Fixpoint first_pair_after_validated (v : LedgerHash) (evs : list Event)
    : option (LedgerHash * LedgerHash) :=
  match evs with
  | [] => None
  | call_validatedLedger l _ :: evs' => first_pair_after_validated (hash (info l)) evs'
  | call_builtLedger l _ _ :: _ => Some (hash (info l), v)
  end.

Definition first_pair (evs : list Event) : option (LedgerHash * LedgerHash) :=
  match evs with
  | [] => None
  | call_builtLedger l _ _ :: evs' => first_pair_after_built (hash (info l)) evs'
  | call_validatedLedger l _ :: evs' => first_pair_after_validated (hash (info l)) evs'
  end.

(** The diagnosis of a sequence: the first complete pair, if it is unequal. *)
Definition diagnosis_of (p : option (LedgerHash * LedgerHash)) : list (LedgerHash * LedgerHash) :=
  match p with
  | Some (b, v) => if bool_decide (b ≠ v) then [(b, v)] else []
  | None => []
  end.

Definition diagnosis (evs : list Event) : list (LedgerHash * LedgerHash) :=
  diagnosis_of (first_pair evs).

Definition of_sequence (s : LedgerIndex) (evs : list Event) : list Event :=
  filter (λ e, seq (info (event_ledger e)) = s) evs.

Lemma expected_from_complete s e0 evs :
  is_Some (built e0) → is_Some (validated e0) → expected_from s e0 evs = [].
Proof.
  revert e0. induction evs as [|e evs IH]; intros e0 [b Hb] [v Hv]; [done|].
  cbn [expected_from]. case_decide; [|by apply IH].
  rewrite IH.
  - destruct e; cbn [fires]; by rewrite Hb, Hv.
  - destruct e; cbn; eauto.
  - destruct e; cbn; eauto.
Qed.

Lemma expected_from_built s e0 b evs :
  built e0 = Some b → validated e0 = None →
  pair_of <$> expected_from s e0 evs =
    diagnosis_of (first_pair_after_built b (of_sequence s evs)).
Proof.
  revert e0 b. induction evs as [|e evs IH]; intros e0 b Hb Hv; [done|].
  cbn [expected_from]. unfold of_sequence. rewrite filter_cons.
  case_decide; [|by eapply IH].
  destruct e as [l ch c|l ch]; cbn [fires entry_after first_pair_after_built event_ledger].
  - rewrite Hv. cbn. by eapply IH.
  - rewrite Hb, Hv, expected_from_complete by (cbn; eauto).
    cbn. by case_bool_decide.
Qed.

Lemma expected_from_validated s e0 v evs :
  built e0 = None → validated e0 = Some v →
  pair_of <$> expected_from s e0 evs =
    diagnosis_of (first_pair_after_validated v (of_sequence s evs)).
Proof.
  revert e0 v. induction evs as [|e evs IH]; intros e0 v Hb Hv; [done|].
  cbn [expected_from]. unfold of_sequence. rewrite filter_cons.
  case_decide; [|by eapply IH].
  destruct e as [l ch c|l ch]; cbn [fires entry_after first_pair_after_validated event_ledger].
  - rewrite Hb, Hv, expected_from_complete by (cbn; eauto).
    cbn. repeat case_bool_decide; try done; congruence.
  - rewrite Hb. cbn. by eapply IH.
Qed.

Lemma expected_from_new s evs :
  pair_of <$> expected_from s new_cv_entry evs = diagnosis (of_sequence s evs).
Proof.
  induction evs as [|e evs IH]; [done|].
  cbn [expected_from]. unfold of_sequence. rewrite filter_cons.
  case_decide; [|done].
  destruct e as [l ch c|l ch]; cbn [fires entry_after new_cv_entry validated built app].
  - by erewrite expected_from_built.
  - by erewrite expected_from_validated.
Qed.

Lemma diagnosis_at_most_one evs : length (diagnosis evs) ≤ 1.
Proof.
  unfold diagnosis, diagnosis_of. destruct (first_pair evs) as [[b v]|]; [|cbn; lia].
  case_bool_decide; cbn; lia.
Qed.

(** C2 (as the code has it).  In any series of [builtLedger] and
    [validatedLedger] calls that returns, every call of [handleMismatch] is
    announced in the journal with its sequence and its pair, and counted once.
    For a sequence [s] that has no entry at the start, the calls announced for
    [s] are: nothing, or the one pair that the entry holds at the first moment
    at which both its sides are known, and then only if the two hashes differ.
    So the diagnosis fires at most once per sequence; a repeated or rebuilt
    event after that moment triggers nothing, whether it makes the pair equal
    or unequal. *)
Theorem diagnosis_once_per_sequence evs st st' s :
  run_events evs st = Returns tt st' →
  consensusValidated_ st !! s = None →
  ∃ new newc,
    j_ st' = j_ st ++ new ∧
    calls st' = calls st ++ newc ∧
    pair_of_call <$> newc = pair_of <$> omap announced new ∧
    mismatch_counter_ st' = (mismatch_counter_ st + N.of_nat (length newc))%N ∧
    pair_of <$> filter (λ a, a.1.1 = s) (omap announced new) = diagnosis (of_sequence s evs) ∧
    length (diagnosis (of_sequence s evs)) ≤ 1.
Proof.
  intros Hrun Hs.
  destruct (run_events_returns _ _ _ Hrun) as (new & newc & Hj & Hc & Hp & Hm & Hexp).
  exists new, newc. repeat (split; [done|]). split.
  - by rewrite Hexp, Hs, expected_from_new.
  - apply diagnosis_at_most_one.
Qed.

(** *** Functions that only write to the journal *)

Definition log (lines : list Line) (st : State) : State :=
  set_journal (λ j, j ++ lines) st.

(** [m] returns [a] after writing [lines], and does nothing else. *)
Definition writes {A} (m : M A) (lines : list Line) (a : A) : Prop :=
  ∀ st, m st = Returns a (log lines st).

Lemma log_nil st : log [] st = st.
Proof. destruct st. unfold log, set_journal. cbn. by rewrite app_nil_r. Qed.

Lemma log_log l1 l2 st : log l2 (log l1 st) = log (l1 ++ l2) st.
Proof. unfold log, set_journal. cbn. by rewrite app_assoc. Qed.

Lemma j_log lines st : j_ (log lines st) = j_ st ++ lines.
Proof. done. Qed.

Lemma writes_ret {A} (a : A) : writes (ret a) [] a.
Proof. intros st. by rewrite log_nil. Qed.

Lemma writes_JLOG sev m : writes (JLOG sev m) [(sev, m)] tt.
Proof. done. Qed.

Lemma JLOG_log sev m st : JLOG sev m st = Returns tt (log [(sev, m)] st).
Proof. done. Qed.

Lemma writes_bind {A B} (m : M A) (k : A → M B) l1 l2 a b :
  writes m l1 a → writes (k a) l2 b → writes (bind m k) (l1 ++ l2) b.
Proof.
  intros Hm Hk st. unfold bind. by rewrite Hm, Hk, log_log.
Qed.

Lemma writes_assert e : NDEBUG = true ∨ e = true → writes (assert e) [] tt.
Proof.
  intros He st. rewrite log_nil. destruct He; [by apply assert_NDEBUG|by apply assert_true].
Qed.

Lemma writes_log_one l tx side :
  writes (log_one txRead l tx side)
         [(debug, MISMATCH_is_missing_this_transaction tx side (txRead l tx))] tt.
Proof. unfold log_one. destruct (txRead l tx); apply writes_JLOG. Qed.

(** *** log_metadata_difference *)

Local Abbreviation log_metadata_difference :=
  (LedgerHistory.log_metadata_difference NDEBUG txRead).

(** The fields that a headline names: (result, index, nodes). *)
Definition names (d : Difference) : bool * bool * bool :=
  match d with
  | Different_result_and_index => (true, true, false)
  | Different_result => (true, false, false)
  | Different_index => (false, true, false)
  | Different_result_index_and_nodes => (true, true, true)
  | Different_result_and_nodes => (true, false, true)
  | Different_index_and_nodes => (false, true, true)
  | Different_nodes => (false, false, true)
  end.

(** The lines of [log_metadata_difference] when both ledgers have metadata
    for the transaction. *)
Definition classification (tx : uint256) (bm vm : TxMeta) : list Line :=
  let r := bool_decide (getResultTER vm ≠ getResultTER bm) in
  let i := bool_decide (getIndex vm ≠ getIndex bm) in
  let n := bool_decide (getNodes vm ≠ getNodes bm) in
  let shown (m : TxMeta) :=
    (if r then Some (getResult m) else None,
     if i then Some (getIndex m) else None,
     if n then Some (getNodes m) else None) in
  match r, i, n with
  | false, false, false => [(error, MISMATCH_No_apparent_mismatches_detected tx)]
  | true, true, true =>
      [(debug, MISMATCH_on_TX tx Different_result_index_and_nodes);
       (debug, Built_json (getJson bm)); (debug, Valid_json (getJson vm))]
  | _, _, _ =>
      let d := if r then (if i then Different_result_and_index
                          else if n then Different_result_and_nodes else Different_result)
               else if i then (if n then Different_index_and_nodes else Different_index)
               else Different_nodes in
      [(debug, MISMATCH_on_TX tx d);
       (debug, Built_ (shown bm).1.1 (shown bm).1.2 (shown bm).2);
       (debug, Valid_ (shown vm).1.1 (shown vm).1.2 (shown vm).2)]
  end.

Definition metadata_lines (bl vl : Ledger) (tx : uint256) : list Line :=
  match getMeta txRead vl tx, getMeta txRead bl tx with
  | Some vm, Some bm => classification tx bm vm
  | Some vm, None => [(error, MISMATCH_Metadata_Difference_built_has_none tx (getJson vm))]
  | None, Some bm => [(error, MISMATCH_Metadata_Difference_valid_has_none tx (getJson bm))]
  | None, None => []
  end.

Lemma writes_log_metadata_difference bl vl tx :
  is_Some (txRead bl tx) ∨ is_Some (txRead vl tx) →
  writes (log_metadata_difference bl vl tx) (metadata_lines bl vl tx) tt.
Proof.
  intros Hmeta. unfold LedgerHistory.log_metadata_difference, metadata_lines.
  assert (Ha : writes (assert (bool_decide (getMeta txRead vl tx ≠ None)
                               || bool_decide (getMeta txRead bl tx ≠ None))) [] tt).
  { apply writes_assert. right. unfold getMeta.
    destruct Hmeta as [[m ->]|[m ->]]; cbn; [apply orb_true_r|done]. }
  apply (writes_bind _ _ [] _ tt tt Ha).
  destruct (getMeta txRead vl tx) as [vm|] eqn:Hv, (getMeta txRead bl tx) as [bm|] eqn:Hb.
  - unfold classification.
    destruct (bool_decide (getResultTER vm ≠ getResultTER bm)),
             (bool_decide (getIndex vm ≠ getIndex bm)),
             (bool_decide (getNodes vm ≠ getNodes bm)); cbn;
      repeat first [apply writes_JLOG | apply (writes_bind _ _ [_] _ tt tt); [apply writes_JLOG|]].
  - apply writes_JLOG.
  - apply writes_JLOG.
  - unfold getMeta in *. destruct Hmeta as [[m Hm]|[m Hm]]; rewrite Hm in *; done.
Qed.

(** C5.  For a transaction whose metadata can be read in both ledgers,
    [log_metadata_difference] writes, and does nothing else: the anomaly
    "No apparent mismatches detected" when neither the result, nor the index,
    nor the node list differs; otherwise one headline, which names exactly
    the fields among (result, index, nodes) that differ, followed by one line
    for the built and one for the valid side, which show the values of these
    fields (the whole metadata when all three differ).  When only the result differs,
    the headline is "Different result" and the two lines show the results. *)
Theorem log_metadata_difference_classifies bl vl tx bm vm st :
  getMeta txRead bl tx = Some bm →
  getMeta txRead vl tx = Some vm →
  let r := bool_decide (getResultTER vm ≠ getResultTER bm) in
  let i := bool_decide (getIndex vm ≠ getIndex bm) in
  let n := bool_decide (getNodes vm ≠ getNodes bm) in
  ∃ lines,
    log_metadata_difference bl vl tx st = Returns tt (log lines st) ∧
    ((r, i, n) = (false, false, false) →
       lines = [(error, MISMATCH_No_apparent_mismatches_detected tx)]) ∧
    ((r, i, n) ≠ (false, false, false) →
       ∃ d built_line valid_line,
         lines = [(debug, MISMATCH_on_TX tx d); (debug, built_line); (debug, valid_line)] ∧
         names d = (r, i, n) ∧
         built_line =
           (if r && i && n then Built_json (getJson bm)
            else Built_ (if r then Some (getResult bm) else None)
                        (if i then Some (getIndex bm) else None)
                        (if n then Some (getNodes bm) else None)) ∧
         valid_line =
           (if r && i && n then Valid_json (getJson vm)
            else Valid_ (if r then Some (getResult vm) else None)
                        (if i then Some (getIndex vm) else None)
                        (if n then Some (getNodes vm) else None))) ∧
    ((r, i, n) = (true, false, false) →
       lines = [(debug, MISMATCH_on_TX tx Different_result);
                (debug, Built_ (Some (getResult bm)) None None);
                (debug, Valid_ (Some (getResult vm)) None None)]).
Proof.
  intros Hb Hv r i n. exists (classification tx bm vm). split.
  { rewrite writes_log_metadata_difference.
    - unfold metadata_lines. by rewrite Hv, Hb.
    - left. unfold getMeta in Hb. by destruct (txRead bl tx). }
  unfold classification. fold r i n.
  destruct r, i, n; (split; [done|]); (split; [|done]); intros Hd; try done;
    eexists _, _, _; (split; [reflexivity|]); (split; [reflexivity|]); done.
Qed.

(** *** The stages of handleMismatch *)

Local Abbreviation compare_transactions := (LedgerHistory.compare_transactions NDEBUG txRead).

(** The state in which [handleMismatch] looks for the two ledgers: the call
    is recorded and counted. *)
Definition entered (b v : LedgerHash) (bc vc : option uint256) (c : Json_Value)
    (st : State) : State :=
  set_counter N.succ (set_calls (λ cs, cs ++ [mkCall b v bc vc c]) st).

Lemma assert_holds e st : (NDEBUG = false → e = true) → assert e st = Returns tt st.
Proof.
  intros He. unfold LedgerHistory.assert. destruct NDEBUG; [done|]. by rewrite He.
Qed.

Lemma handleMismatch_resolved b v bc vc c st bl vl st1 st2 :
  (NDEBUG = false → b ≠ v) →
  getLedgerByHash b (entered b v bc vc c st) = Returns (Some bl) st1 →
  getLedgerByHash v st1 = Returns (Some vl) st2 →
  (NDEBUG = false → seq (info bl) = seq (info vl)) →
  handleMismatch b v bc vc c st =
    if bool_decide (parentHash (info bl) ≠ parentHash (info vl)) then
      Returns tt (log [(debug, Mismatch_on (seq (info bl)) bl vl c);
                       (error, MISMATCH_on_prior_ledger)] st2)
    else if bool_decide (closeTime (info bl) ≠ closeTime (info vl)) then
      Returns tt (log [(debug, Mismatch_on (seq (info bl)) bl vl c);
                       (error, MISMATCH_on_close_time)] st2)
    else
      compare_transactions bc vc bl vl
        (log [(debug, Mismatch_on (seq (info bl)) bl vl c)] st2).
Proof.
  intros Hne Hb Hv Hseq. unfold LedgerHistory.handleMismatch.
  unfold bind at 1. unfold modify at 1.
  rewrite (bind_returns _ _ _ _ _ (assert_holds _ _
             (λ HN, bool_decide_eq_true_2 _ (Hne HN)))).
  unfold bind at 1. unfold modify at 1. fold (entered b v bc vc c st).
  rewrite (bind_returns _ _ _ _ _ Hb), (bind_returns _ _ _ _ _ Hv).
  rewrite (bind_returns _ _ _ _ _ (assert_holds _ _
             (λ HN, bool_decide_eq_true_2 _ (Hseq HN)))).
  unfold bind at 1. unfold JLOG at 1, modify at 1.
  fold (log [(debug, Mismatch_on (seq (info bl)) bl vl c)] st2).
  repeat case_bool_decide; try done; by rewrite JLOG_log, log_log.
Qed.

(** C3.  In an invocation of [handleMismatch] that finds both ledgers (with
    assertions compiled in, the two hashes differ and the two ledgers have the
    same sequence, as the assertions require): when the parent hashes differ,
    the function writes the description of the two ledgers and "MISMATCH on
    prior ledger" and returns; when the parent hashes are equal and the close
    times differ, it writes the description and "MISMATCH on close time" and
    returns.  In both cases nothing else is written or done: no later check,
    no line about a transaction. *)
Theorem handleMismatch_ancestry_then_close_time b v bc vc c st bl vl st1 st2 :
  (NDEBUG = false → b ≠ v) →
  getLedgerByHash b (entered b v bc vc c st) = Returns (Some bl) st1 →
  getLedgerByHash v st1 = Returns (Some vl) st2 →
  (NDEBUG = false → seq (info bl) = seq (info vl)) →
  (parentHash (info bl) ≠ parentHash (info vl) →
     handleMismatch b v bc vc c st =
       Returns tt (log [(debug, Mismatch_on (seq (info bl)) bl vl c);
                        (error, MISMATCH_on_prior_ledger)] st2)) ∧
  (parentHash (info bl) = parentHash (info vl) →
   closeTime (info bl) ≠ closeTime (info vl) →
     handleMismatch b v bc vc c st =
       Returns tt (log [(debug, Mismatch_on (seq (info bl)) bl vl c);
                        (error, MISMATCH_on_close_time)] st2)).
Proof.
  intros Hne Hb Hv Hseq.
  rewrite (handleMismatch_resolved _ _ _ _ _ _ _ _ _ _ Hne Hb Hv Hseq).
  split; [intros Hp|intros Hp Hc]; repeat case_bool_decide; done.
Qed.

(** *** leaves *)

Definition key_lt (a b : SHAMapItem) : Prop := (key a < key b)%N.

Lemma sort_insert_Permutation x v : sort_insert x v ≡ₚ x :: v.
Proof.
  induction v as [|y v IH]; [done|]. cbn [sort_insert].
  case_match; [done|]. by rewrite IH, Permutation_swap.
Qed.

Lemma leaves_Permutation sm : leaves sm ≡ₚ sm.
Proof.
  induction sm as [|x sm IH]; [done|].
  cbn. by rewrite sort_insert_Permutation, IH.
Qed.

Lemma leaves_length sm : length (leaves sm) = length sm.
Proof. by rewrite leaves_Permutation. Qed.

Lemma sort_insert_sorted x v :
  Forall (λ y, key y ≠ key x) v →
  StronglySorted key_lt v → StronglySorted key_lt (sort_insert x v).
Proof.
  induction v as [|y v IH]; intros Hx Hv; cbn [sort_insert].
  { by repeat constructor. }
  apply Forall_cons in Hx as [Hyx Hx].
  apply StronglySorted_cons in Hv as [Hy Hv].
  destruct (key x <? key y)%N eqn:Hlt.
  - apply N.ltb_lt in Hlt. apply StronglySorted_cons. split.
    + constructor; [done|]. eapply Forall_impl; [done|]. unfold key_lt. cbn. lia.
    + by apply StronglySorted_cons.
  - apply N.ltb_ge in Hlt. apply StronglySorted_cons. split; [|by apply IH].
    rewrite sort_insert_Permutation. constructor; [|done]. unfold key_lt. lia.
Qed.

Lemma leaves_sorted sm : NoDup (key <$> sm) → StronglySorted key_lt (leaves sm).
Proof.
  induction sm as [|x sm IH]; intros Hnd; [constructor|].
  cbn in Hnd. apply NoDup_cons in Hnd as [Hx Hnd].
  cbn. apply sort_insert_sorted; [|by apply IH].
  rewrite leaves_Permutation. apply Forall_forall. intros y Hy Heq.
  apply Hx. rewrite <- Heq. by apply list_elem_of_fmap_2.
Qed.

(** *** The merge of the two sorted vectors *)

(** What the loop of [handleMismatch] and the two loops after it find, in
    the order in which they find it. *)
Inductive Joined :=
  | only_in_built (ib : SHAMapItem)
  | only_in_valid (iv : SHAMapItem)
  | in_both (ib iv : SHAMapItem).

Fixpoint merge_join (b : list SHAMapItem) : list SHAMapItem → list Joined :=
  match b with
  | [] => λ v, only_in_valid <$> v
  | ib :: b' =>
      fix at_b (v : list SHAMapItem) : list Joined :=
        match v with
        | [] => only_in_built <$> (ib :: b')
        | iv :: v' =>
            if (key ib <? key iv)%N then only_in_built ib :: merge_join b' (iv :: v')
            else if (key iv <? key ib)%N then only_in_valid iv :: at_b v'
            else in_both ib iv :: merge_join b' v'
        end
  end.

(** The lines written for one finding. *)
Definition render (bl vl : Ledger) (d : Joined) : list Line :=
  match d with
  | only_in_built ib =>
      [(debug, MISMATCH_is_missing_this_transaction (key ib) side_valid (txRead bl (key ib)))]
  | only_in_valid iv =>
      [(debug, MISMATCH_is_missing_this_transaction (key iv) side_built (txRead vl (key iv)))]
  | in_both ib iv =>
      if bool_decide (slice ib ≠ slice iv) then metadata_lines bl vl (key ib) else []
  end.

Local Abbreviation log_differences := (LedgerHistory.log_differences NDEBUG txRead).

(** The two [for] loops that follow the [while] loop. *)
Definition log_the_rest (bl vl : Ledger) (bv : list SHAMapItem * list SHAMapItem) : M unit :=
  for_each (fst bv) (λ i, log_one txRead bl (key i) side_valid) >>
  for_each (snd bv) (λ i, log_one txRead vl (key i) side_built).

Lemma writes_for_each_built bl vl items :
  writes (for_each items (λ i, log_one txRead bl (key i) side_valid))
         ((only_in_built <$> items) ≫= render bl vl) tt.
Proof.
  induction items as [|i items IH]; [apply writes_ret|].
  cbn [for_each fmap list_fmap]. rewrite bind_cons.
  eapply writes_bind; [apply writes_log_one|done].
Qed.

Lemma writes_for_each_valid bl vl items :
  writes (for_each items (λ i, log_one txRead vl (key i) side_built))
         ((only_in_valid <$> items) ≫= render bl vl) tt.
Proof.
  induction items as [|i items IH]; [apply writes_ret|].
  cbn [for_each fmap list_fmap]. rewrite bind_cons.
  eapply writes_bind; [apply writes_log_one|done].
Qed.

Lemma writes_bind_assoc {A B C} (m : M A) (f : A → M B) (g : B → M C) lines c :
  writes (bind m (λ a, bind (f a) g)) lines c → writes (bind (bind m f) g) lines c.
Proof. intros Hw st. rewrite <- Hw. unfold bind. by destruct (m st). Qed.

Lemma writes_log_the_rest bl vl b v :
  b = [] ∨ v = [] →
  writes (log_the_rest bl vl (b, v)) (merge_join b v ≫= render bl vl) tt.
Proof.
  intros Hbv. unfold log_the_rest. cbn [fst snd].
  assert (merge_join b v = (only_in_built <$> b) ++ (only_in_valid <$> v)) as ->.
  { destruct Hbv as [-> | ->]; [done|]. destruct b; [done|]. cbn. by rewrite app_nil_r. }
  rewrite bind_app.
  eapply writes_bind; [apply writes_for_each_built|apply writes_for_each_valid].
Qed.

(** The loop and the two loops after it write the lines of the merge, when
    the metadata of a transaction that differs between the ledgers can be
    read in at least one of them. *)
Lemma writes_log_differences bl vl b v :
  (∀ ib iv, ib ∈ b → iv ∈ v → key ib = key iv →
     is_Some (txRead bl (key ib)) ∨ is_Some (txRead vl (key ib))) →
  writes (bind (log_differences bl vl b v) (log_the_rest bl vl))
         (merge_join b v ≫= render bl vl) tt.
Proof.
  revert v. induction b as [|ib b IHb]; intros v Hmeta.
  { intros st. cbn [LedgerHistory.log_differences]. unfold bind at 1, ret.
    apply writes_log_the_rest. by left. }
  induction v as [|iv v IHv].
  { intros st. cbn [LedgerHistory.log_differences]. unfold bind at 1, ret.
    apply writes_log_the_rest. by right. }
  cbn [LedgerHistory.log_differences merge_join].
  destruct (key ib <? key iv)%N eqn:Hlt; [|destruct (key iv <? key ib)%N eqn:Hgt].
  - rewrite bind_cons. apply writes_bind_assoc.
    eapply writes_bind; [apply writes_log_one|].
    apply IHb. intros ib' iv' Hib' Hiv'. apply (Hmeta ib' iv'); [by right|done].
  - rewrite bind_cons. apply writes_bind_assoc.
    eapply writes_bind; [apply writes_log_one|].
    apply IHv. intros ib' iv' Hib' Hiv'. apply (Hmeta ib' iv'); [done|by right].
  - rewrite bind_cons. apply writes_bind_assoc.
    eapply writes_bind.
    + cbn [render]. unfold when. case_bool_decide; [|apply writes_ret].
      apply writes_log_metadata_difference. apply (Hmeta ib iv); [by left|by left|].
      apply N.ltb_ge in Hlt, Hgt. lia.
    + apply IHb. intros ib' iv' Hib' Hiv'. apply (Hmeta ib' iv'); by right.
Qed.

Lemma sorted_head_lt i l x : StronglySorted key_lt (i :: l) → x ∈ l → (key i < key x)%N.
Proof.
  intros Hs Hx. apply StronglySorted_cons in Hs as [Hi _].
  by apply (proj1 (Forall_forall _ _) Hi).
Qed.

Lemma sorted_tail i l : StronglySorted key_lt (i :: l) → StronglySorted key_lt l.
Proof. intros Hs. by apply StronglySorted_cons in Hs as [_ ?]. Qed.

Lemma key_elem_of (l : list SHAMapItem) k : k ∈ key <$> l ↔ ∃ i, i ∈ l ∧ key i = k.
Proof. rewrite list_elem_of_fmap. split; intros (i & ? & ?); eauto. Qed.

(** On vectors sorted by strictly increasing key, the merge finds every item
    of one vector whose key is not in the other, and every pair of items with
    the same key, and nothing else. *)
Lemma merge_join_cons ib b iv v :
  merge_join (ib :: b) (iv :: v) =
    if (key ib <? key iv)%N then only_in_built ib :: merge_join b (iv :: v)
    else if (key iv <? key ib)%N then only_in_valid iv :: merge_join (ib :: b) v
    else in_both ib iv :: merge_join b v.
Proof. done. Qed.

Lemma merge_join_spec b v :
  StronglySorted key_lt b → StronglySorted key_lt v →
  (∀ i, only_in_built i ∈ merge_join b v ↔ i ∈ b ∧ key i ∉ key <$> v) ∧
  (∀ i, only_in_valid i ∈ merge_join b v ↔ i ∈ v ∧ key i ∉ key <$> b) ∧
  (∀ ib iv, in_both ib iv ∈ merge_join b v ↔ ib ∈ b ∧ iv ∈ v ∧ key ib = key iv).
Proof.
  revert v. induction b as [|ib b IHb]; intros v Hb Hv.
  { cbn [merge_join]. split; [|split].
    - intros i. rewrite list_elem_of_fmap, elem_of_nil.
      split; [intros (? & [=] & _)|tauto].
    - intros i. rewrite list_elem_of_fmap, fmap_nil, elem_of_nil.
      split; [intros (? & [= ->] & ?); tauto|intros [? _]; eauto].
    - intros ib iv. rewrite list_elem_of_fmap, elem_of_nil.
      split; [intros (? & [=] & _)|tauto]. }
  induction v as [|iv v IHv].
  { cbn [merge_join]. split; [|split].
    - intros i. rewrite list_elem_of_fmap, fmap_nil, elem_of_nil.
      split; [intros (? & [= ->] & ?); tauto|intros [? _]; eauto].
    - intros i. rewrite list_elem_of_fmap, elem_of_nil.
      split; [intros (? & [=] & _)|tauto].
    - intros ib' iv. rewrite list_elem_of_fmap, elem_of_nil.
      split; [intros (? & [=] & _)|tauto]. }
  pose proof (λ x, sorted_head_lt _ _ x Hb) as Hbh.
  pose proof (λ x, sorted_head_lt _ _ x Hv) as Hvh.
  rewrite merge_join_cons.
  destruct (key ib <? key iv)%N eqn:Hlt; [|destruct (key iv <? key ib)%N eqn:Hgt].
  - apply N.ltb_lt in Hlt.
    destruct (IHb (iv :: v) (sorted_tail _ _ Hb) Hv) as (I1 & I2 & I3).
    assert (Hnot : key ib ∉ key <$> iv :: v).
    { rewrite key_elem_of. intros (x & [->|Hx]%elem_of_cons & Hk); [lia|].
      specialize (Hvh x Hx). lia. }
    clear IHb IHv Hbh Hvh Hb Hv.
    split; [|split].
    + intros i. rewrite !elem_of_cons, I1. split.
      * intros [[= ->]|[? ?]]; tauto.
      * intros [[->|?] ?]; tauto.
    + intros i. rewrite elem_of_cons, I2, fmap_cons, not_elem_of_cons. split.
      * intros [[=]|[? ?]]. split; [done|]. split; [|done].
        intros Hk. apply Hnot. rewrite <- Hk. by apply list_elem_of_fmap_2.
      * intros (? & ? & ?). tauto.
    + intros ib' iv'. rewrite (elem_of_cons (merge_join _ _)), I3, (elem_of_cons b). split.
      * intros [[=]|(? & ? & ?)]. tauto.
      * intros ([->|?] & Hiv & Hk); [|tauto].
        exfalso. apply Hnot. rewrite Hk. by apply list_elem_of_fmap_2.
  - apply N.ltb_lt in Hgt.
    destruct (IHv (sorted_tail _ _ Hv)) as (I1 & I2 & I3).
    assert (Hnot : key iv ∉ key <$> ib :: b).
    { rewrite key_elem_of. intros (x & [->|Hx]%elem_of_cons & Hk); [lia|].
      specialize (Hbh x Hx). lia. }
    clear IHb IHv Hbh Hvh Hb Hv.
    split; [|split].
    + intros i. rewrite elem_of_cons, I1, (fmap_cons key iv v), not_elem_of_cons. split.
      * intros [[=]|[? ?]]. split; [done|]. split; [|done].
        intros Hk. apply Hnot. rewrite <- Hk. by apply list_elem_of_fmap_2.
      * intros (? & ? & ?). tauto.
    + intros i. rewrite !elem_of_cons, I2. split.
      * intros [[= ->]|[? ?]]; tauto.
      * intros [[->|?] ?]; tauto.
    + intros ib' iv'. rewrite (elem_of_cons (merge_join _ _)), I3, (elem_of_cons v). split.
      * intros [[=]|(? & ? & ?)]. tauto.
      * intros (Hib & [->|?] & Hk); [|tauto].
        exfalso. apply Hnot. rewrite <- Hk. by apply list_elem_of_fmap_2.
  - apply N.ltb_ge in Hlt, Hgt. assert (Heq : key ib = key iv) by lia.
    destruct (IHb v (sorted_tail _ _ Hb) (sorted_tail _ _ Hv)) as (I1 & I2 & I3).
    assert (Hnb : key iv ∉ key <$> b).
    { rewrite key_elem_of. intros (x & Hx & Hk). specialize (Hbh x Hx). lia. }
    assert (Hnv : key ib ∉ key <$> v).
    { rewrite key_elem_of. intros (x & Hx & Hk). specialize (Hvh x Hx). lia. }
    clear IHb IHv Hbh Hvh Hb Hv Hlt Hgt.
    split; [|split].
    + intros i. rewrite elem_of_cons, I1, (fmap_cons key iv v), not_elem_of_cons,
        (elem_of_cons b). split.
      * intros [[=]|[Hi Hk]]. split; [by right|]. split; [|done].
        intros Hki. apply Hnb. rewrite <- Hki. by apply list_elem_of_fmap_2.
      * intros ([->|Hi] & Hk1 & Hk2); [done|]. right. done.
    + intros i. rewrite elem_of_cons, I2, (fmap_cons key ib b), not_elem_of_cons,
        (elem_of_cons v). split.
      * intros [[=]|[Hi Hk]]. split; [by right|]. split; [|done].
        intros Hki. apply Hnv. rewrite <- Hki. by apply list_elem_of_fmap_2.
      * intros ([->|Hi] & Hk1 & Hk2); [done|]. right. done.
    + intros ib' iv'.
      rewrite (elem_of_cons (merge_join _ _)), I3, (elem_of_cons b), (elem_of_cons v). split.
      * intros [[= -> ->]|(? & ? & ?)]; tauto.
      * intros ([->|Hib] & [->|Hiv] & Hk); [by left| | |by right].
        -- exfalso. apply Hnv. rewrite Hk. by apply list_elem_of_fmap_2.
        -- exfalso. apply Hnb. rewrite <- Hk. by apply list_elem_of_fmap_2.
Qed.

(** The lines written by one call of [handleMismatch] with both ledgers
    found, the same parent and the same close time, after the description of
    the two ledgers. *)
Definition consensus_set_lines (bc vc : option uint256) : list Line :=
  match bc, vc with
  | Some b, Some v =>
      if bool_decide (b ≠ v)
      then [(error, MISMATCH_on_consensus_transaction_set b v)]
      else [(error, MISMATCH_with_same_consensus_transaction_set b)]
  | _, _ => []
  end.

Definition summary_line (bl vl : Ledger) : Line :=
  if same_pointers (leaves (txMap bl)) (leaves (txMap vl))
  then (error, MISMATCH_with_same_transactions (length (leaves (txMap bl))))
  else (error, MISMATCH_with_built_and_valid_transactions
                 (length (leaves (txMap bl))) (length (leaves (txMap vl)))).

Definition difference_lines (bl vl : Ledger) : list Line :=
  merge_join (leaves (txMap bl)) (leaves (txMap vl)) ≫= render bl vl.

Definition transaction_lines (bc vc : option uint256) (bl vl : Ledger) : list Line :=
  consensus_set_lines bc vc ++
  [summary_line bl vl; (error, built_getJson bl); (error, valid_getJson vl)] ++
  difference_lines bl vl.

(** The metadata of a transaction that is in both ledgers can be read in
    at least one of them. *)
Definition metadata_readable (bl vl : Ledger) : Prop :=
  ∀ ib iv, ib ∈ txMap bl → iv ∈ txMap vl → key ib = key iv →
    is_Some (txRead bl (key ib)) ∨ is_Some (txRead vl (key ib)).

Lemma writes_compare_transactions bc vc bl vl :
  metadata_readable bl vl →
  writes (compare_transactions bc vc bl vl) (transaction_lines bc vc bl vl) tt.
Proof.
  intros Hmeta. unfold LedgerHistory.compare_transactions, transaction_lines.
  eapply writes_bind.
  { unfold consensus_set_lines. destruct bc, vc; try apply writes_ret.
    case_bool_decide; apply writes_JLOG. }
  eapply (writes_bind _ _ [_]).
  { unfold summary_line. case_match; apply writes_JLOG. }
  eapply (writes_bind _ _ [_]); [apply writes_JLOG|].
  eapply (writes_bind _ _ [_]); [apply writes_JLOG|].
  apply writes_log_differences. intros ib iv Hib Hiv.
  apply Hmeta; by rewrite <- leaves_Permutation.
Qed.

(** *** Reading the lines *)

(** The transaction and the side of a line of [log_one]. *)
Definition missing (l : Line) : option (uint256 * Side) :=
  match l with
  | (debug, MISMATCH_is_missing_this_transaction tx side _) => Some (tx, side)
  | _ => None
  end.

(** The transaction of a headline of [log_metadata_difference]. *)
Definition classified (l : Line) : option uint256 :=
  match l with
  | (error, MISMATCH_No_apparent_mismatches_detected tx) => Some tx
  | (debug, MISMATCH_on_TX tx _) => Some tx
  | (error, MISMATCH_Metadata_Difference_built_has_none tx _) => Some tx
  | (error, MISMATCH_Metadata_Difference_valid_has_none tx _) => Some tx
  | _ => None
  end.

(** The line with the numbers of transactions. *)
Definition is_summary (l : Line) : bool :=
  match l with
  | (_, MISMATCH_with_same_transactions _) => true
  | (_, MISMATCH_with_built_and_valid_transactions _ _) => true
  | _ => false
  end.

Lemma metadata_lines_inv bl vl tx line :
  line ∈ metadata_lines bl vl tx →
  missing line = None ∧ is_summary line = false ∧
  ∀ tx', classified line = Some tx' → tx' = tx.
Proof.
  unfold metadata_lines, classification.
  destruct (getMeta txRead vl tx) as [vm|], (getMeta txRead bl tx) as [bm|];
    repeat case_bool_decide; cbn;
    rewrite ?elem_of_cons, elem_of_nil; intros Hl;
    repeat (destruct Hl as [->|Hl]; [cbn; split_and!; [done|done|by intros ? [=]|..]|]);
    done.
Qed.

Lemma metadata_lines_headline bl vl tx :
  is_Some (txRead bl tx) ∨ is_Some (txRead vl tx) →
  ∃ line, line ∈ metadata_lines bl vl tx ∧ classified line = Some tx.
Proof.
  intros Hmeta. unfold metadata_lines, classification.
  destruct (getMeta txRead vl tx) as [vm|] eqn:Hv, (getMeta txRead bl tx) as [bm|] eqn:Hb.
  - repeat case_bool_decide; cbn; eexists; (split; [by left|done]).
  - eexists; (split; [by left|done]).
  - eexists; (split; [by left|done]).
  - unfold getMeta in *. destruct Hmeta as [[m Hm]|[m Hm]]; rewrite Hm in *; done.
Qed.

Lemma render_missing bl vl d tx side m :
  (debug, MISMATCH_is_missing_this_transaction tx side m) ∈ render bl vl d ↔
  (∃ ib, d = only_in_built ib ∧ tx = key ib ∧ side = side_valid ∧ m = txRead bl tx) ∨
  (∃ iv, d = only_in_valid iv ∧ tx = key iv ∧ side = side_built ∧ m = txRead vl tx).
Proof.
  destruct d as [ib|iv|ib iv]; cbn [render].
  - rewrite list_elem_of_singleton. split.
    + intros [= -> -> ->]. left. eauto.
    + intros [(? & [= <-] & -> & -> & ->)|(? & [=] & _)]. done.
  - rewrite list_elem_of_singleton. split.
    + intros [= -> -> ->]. right. eauto.
    + intros [(? & [=] & _)|(? & [= <-] & -> & -> & ->)]. done.
  - split.
    + case_bool_decide; [|by intros ?%elem_of_nil].
      intros [Hm _]%metadata_lines_inv. done.
    + intros [(? & [=] & _)|(? & [=] & _)].
Qed.

Lemma elem_of_difference_lines bl vl line :
  line ∈ difference_lines bl vl ↔
  ∃ d, d ∈ merge_join (leaves (txMap bl)) (leaves (txMap vl)) ∧ line ∈ render bl vl d.
Proof.
  unfold difference_lines. rewrite list_elem_of_bind. split; intros (d & ? & ?); eauto.
Qed.

Section Merge.
Variables bl vl : Ledger.
Hypothesis built_keys : NoDup (key <$> txMap bl).
Hypothesis valid_keys : NoDup (key <$> txMap vl).

Lemma merge_join_leaves :
  (∀ i, only_in_built i ∈ merge_join (leaves (txMap bl)) (leaves (txMap vl)) ↔
        i ∈ txMap bl ∧ key i ∉ (key <$> txMap vl)) ∧
  (∀ i, only_in_valid i ∈ merge_join (leaves (txMap bl)) (leaves (txMap vl)) ↔
        i ∈ txMap vl ∧ key i ∉ (key <$> txMap bl)) ∧
  (∀ ib iv, in_both ib iv ∈ merge_join (leaves (txMap bl)) (leaves (txMap vl)) ↔
        ib ∈ txMap bl ∧ iv ∈ txMap vl ∧ key ib = key iv).
Proof using built_keys valid_keys.
  destruct (merge_join_spec (leaves (txMap bl)) (leaves (txMap vl)))
    as (I1 & I2 & I3); [by apply leaves_sorted..|].
  split; [|split]; intros; rewrite ?I1, ?I2, ?I3, !leaves_Permutation; done.
Qed.

Lemma difference_lines_missing_valid tx m :
  (debug, MISMATCH_is_missing_this_transaction tx side_valid m) ∈ difference_lines bl vl ↔
  tx ∈ (key <$> txMap bl) ∧ (tx ∉ (key <$> txMap vl)) ∧ m = txRead bl tx.
Proof using built_keys valid_keys.
  destruct merge_join_leaves as (I1 & _ & _).
  rewrite elem_of_difference_lines, key_elem_of. split.
  - intros (d & Hd & [(ib & -> & -> & _ & ->)|(iv & _ & _ & [=] & _)]%render_missing).
    apply I1 in Hd as [? ?]. eauto.
  - intros ((ib & Hib & <-) & Hv & ->). exists (only_in_built ib). split.
    + by apply I1.
    + apply render_missing. left. eauto.
Qed.

Lemma difference_lines_missing_built tx m :
  (debug, MISMATCH_is_missing_this_transaction tx side_built m) ∈ difference_lines bl vl ↔
  tx ∈ (key <$> txMap vl) ∧ (tx ∉ (key <$> txMap bl)) ∧ m = txRead vl tx.
Proof using built_keys valid_keys.
  destruct merge_join_leaves as (_ & I2 & _).
  rewrite elem_of_difference_lines, key_elem_of. split.
  - intros (d & Hd & [(ib & _ & _ & [=] & _)|(iv & -> & -> & _ & ->)]%render_missing).
    apply I2 in Hd as [? ?]. eauto.
  - intros ((iv & Hiv & <-) & Hb & ->). exists (only_in_valid iv). split.
    + by apply I2.
    + apply render_missing. right. eauto.
Qed.

Lemma difference_lines_classified tx :
  metadata_readable bl vl →
  (∃ line, line ∈ difference_lines bl vl ∧ classified line = Some tx) ↔
  ∃ ib iv, ib ∈ txMap bl ∧ iv ∈ txMap vl ∧ key ib = tx ∧ key iv = tx ∧ slice ib ≠ slice iv.
Proof using built_keys valid_keys.
  intros Hmeta. destruct merge_join_leaves as (_ & _ & I3). split.
  - intros (line & (d & Hd & Hl)%elem_of_difference_lines & Hc).
    destruct d as [ib|iv|ib iv]; cbn [render] in Hl.
    + apply list_elem_of_singleton in Hl as ->. done.
    + apply list_elem_of_singleton in Hl as ->. done.
    + case_bool_decide; [|by apply elem_of_nil in Hl].
      apply metadata_lines_inv in Hl as (_ & _ & Htx). apply Htx in Hc as ->.
      apply I3 in Hd as (? & ? & ?). exists ib, iv. eauto.
  - intros (ib & iv & Hib & Hiv & <- & Hk & Hs).
    destruct (metadata_lines_headline bl vl (key ib)) as (line & Hl & Hc).
    { by apply (Hmeta ib iv). }
    exists line. split; [|done]. apply elem_of_difference_lines.
    exists (in_both ib iv). split; [by apply I3|].
    cbn [render]. by rewrite bool_decide_eq_true_2.
Qed.

Lemma difference_lines_not_summary line :
  line ∈ difference_lines bl vl → is_summary line = false.
Proof using Type.
  intros (d & _ & Hl)%elem_of_difference_lines.
  destruct d as [ib|iv|ib iv]; cbn [render] in Hl.
  - by apply list_elem_of_singleton in Hl as ->.
  - by apply list_elem_of_singleton in Hl as ->.
  - case_bool_decide; [|by apply elem_of_nil in Hl].
    by apply metadata_lines_inv in Hl as (_ & ? & _).
Qed.
End Merge.

(** *** The transaction level *)

Lemma missing_inv line tx side :
  missing line = Some (tx, side) →
  ∃ m, line = (debug, MISMATCH_is_missing_this_transaction tx side m).
Proof.
  destruct line as [[] []]; cbn; intros [=]; subst; eauto.
Qed.

Lemma transaction_lines_inv s c bc vc bl vl line :
  line ∈ (debug, Mismatch_on s bl vl c) :: transaction_lines bc vc bl vl →
  line ∈ difference_lines bl vl ∨ (missing line = None ∧ classified line = None).
Proof.
  unfold transaction_lines, consensus_set_lines, summary_line.
  rewrite elem_of_cons, !elem_of_app, !elem_of_cons.
  rewrite elem_of_nil.
  intros [->|[Hc|[[->|[->|[->|[]]]]|Hd]]]; try (by right); [|by case_match; right|by left].
  destruct bc, vc; try (by apply elem_of_nil in Hc).
  case_bool_decide; apply list_elem_of_singleton in Hc as ->; by right.
Qed.

Lemma handleMismatch_transaction_level b v bc vc c st bl vl st1 st2 :
  (NDEBUG = false → b ≠ v) →
  getLedgerByHash b (entered b v bc vc c st) = Returns (Some bl) st1 →
  getLedgerByHash v st1 = Returns (Some vl) st2 →
  (NDEBUG = false → seq (info bl) = seq (info vl)) →
  parentHash (info bl) = parentHash (info vl) →
  closeTime (info bl) = closeTime (info vl) →
  metadata_readable bl vl →
  handleMismatch b v bc vc c st =
    Returns tt (log ((debug, Mismatch_on (seq (info bl)) bl vl c)
                     :: transaction_lines bc vc bl vl) st2).
Proof.
  intros Hne Hb Hv Hseq Hp Hc Hmeta.
  rewrite (handleMismatch_resolved _ _ _ _ _ _ _ _ _ _ Hne Hb Hv Hseq).
  rewrite !bool_decide_eq_false_2 by (intros Hn; by apply Hn).
  by rewrite (writes_compare_transactions bc vc bl vl Hmeta), log_log.
Qed.

Lemma NoDup_key_inj (l : list SHAMapItem) i j :
  NoDup (key <$> l) → i ∈ l → j ∈ l → key i = key j → i = j.
Proof.
  intros Hnd [a Ha]%list_elem_of_lookup_1 [a' Ha']%list_elem_of_lookup_1 Hk.
  assert (a = a') as <-; [|congruence].
  eapply NoDup_lookup; [done| |]; rewrite list_lookup_fmap; [by rewrite Ha|].
  by rewrite Ha', Hk.
Qed.

(** C4.  [handleMismatch] finds both ledgers, which have the same parent and
    the same close time; the keys of each transaction map are distinct, and
    the metadata of a transaction of both ledgers can be read in at least one
    of them.  Then the function returns, and among the lines it writes:
    "valid is missing this transaction" is written for exactly the keys that
    are in the built ledger only, with the metadata read from the built
    ledger; "built is missing this transaction" for exactly the keys that are
    in the valid ledger only; a headline of the metadata classification for
    exactly the keys that are in both ledgers with different bytes; and for a
    key that is in both ledgers with the same bytes, no line of either
    kind. *)
Theorem handleMismatch_transaction_differences b v bc vc c st bl vl st1 st2 :
  (NDEBUG = false → b ≠ v) →
  getLedgerByHash b (entered b v bc vc c st) = Returns (Some bl) st1 →
  getLedgerByHash v st1 = Returns (Some vl) st2 →
  (NDEBUG = false → seq (info bl) = seq (info vl)) →
  parentHash (info bl) = parentHash (info vl) →
  closeTime (info bl) = closeTime (info vl) →
  NoDup (key <$> txMap bl) →
  NoDup (key <$> txMap vl) →
  metadata_readable bl vl →
  ∃ lines,
    handleMismatch b v bc vc c st = Returns tt (log lines st2) ∧
    (∀ tx m, (debug, MISMATCH_is_missing_this_transaction tx side_valid m) ∈ lines ↔
             tx ∈ (key <$> txMap bl) ∧ (tx ∉ (key <$> txMap vl)) ∧ m = txRead bl tx) ∧
    (∀ tx m, (debug, MISMATCH_is_missing_this_transaction tx side_built m) ∈ lines ↔
             tx ∈ (key <$> txMap vl) ∧ (tx ∉ (key <$> txMap bl)) ∧ m = txRead vl tx) ∧
    (∀ tx, (∃ line, line ∈ lines ∧ classified line = Some tx) ↔
           ∃ ib iv, ib ∈ txMap bl ∧ iv ∈ txMap vl ∧
                    key ib = tx ∧ key iv = tx ∧ slice ib ≠ slice iv) ∧
    (∀ ib iv, ib ∈ txMap bl → iv ∈ txMap vl → key ib = key iv → slice ib = slice iv →
       ∀ line side, line ∈ lines →
         missing line ≠ Some (key ib, side) ∧ classified line ≠ Some (key ib)).
Proof.
  intros Hne Hb Hv Hseq Hp Hc Hkb Hkv Hmeta.
  eexists. split; [by eapply handleMismatch_transaction_level|].
  set (lines := _ :: transaction_lines bc vc bl vl).
  assert (Hin : ∀ line, line ∈ difference_lines bl vl → line ∈ lines).
  { intros line Hl. unfold lines, transaction_lines.
    rewrite elem_of_cons, !elem_of_app. eauto. }
  assert (Ha : ∀ tx m, (debug, MISMATCH_is_missing_this_transaction tx side_valid m) ∈ lines ↔
             tx ∈ (key <$> txMap bl) ∧ (tx ∉ (key <$> txMap vl)) ∧ m = txRead bl tx).
  { intros tx m. rewrite <- difference_lines_missing_valid by done. split; [|apply Hin].
    by intros [?|[[=] _]]%transaction_lines_inv. }
  assert (Hb' : ∀ tx m, (debug, MISMATCH_is_missing_this_transaction tx side_built m) ∈ lines ↔
             tx ∈ (key <$> txMap vl) ∧ (tx ∉ (key <$> txMap bl)) ∧ m = txRead vl tx).
  { intros tx m. rewrite <- difference_lines_missing_built by done. split; [|apply Hin].
    by intros [?|[[=] _]]%transaction_lines_inv. }
  assert (Hcl : ∀ tx, (∃ line, line ∈ lines ∧ classified line = Some tx) ↔
           ∃ ib iv, ib ∈ txMap bl ∧ iv ∈ txMap vl ∧
                    key ib = tx ∧ key iv = tx ∧ slice ib ≠ slice iv).
  { intros tx. rewrite <- difference_lines_classified by done. split.
    - intros (line & [?|[_ Hn]]%transaction_lines_inv & Hcl); [eauto|congruence].
    - intros (line & ? & ?). eauto. }
  split; [done|]. split; [done|]. split; [done|].
  intros ib iv Hib Hiv Hk Hs line side Hl. split.
  - intros (m & ->)%missing_inv. destruct side.
    + apply Ha in Hl as (_ & Hn & _). apply Hn. rewrite Hk. by apply list_elem_of_fmap_2.
    + apply Hb' in Hl as (_ & Hn & _). apply Hn. by apply list_elem_of_fmap_2.
  - intros Hcls.
    destruct (proj1 (Hcl (key ib))) as (ib' & iv' & Hib' & Hiv' & Hkb' & Hkv' & Hne');
      [eauto|].
    apply Hne'.
    rewrite (NoDup_key_inj _ ib' ib Hkb Hib' Hib Hkb').
    rewrite (NoDup_key_inj _ iv' iv Hkv Hiv' Hiv) by congruence. done.
Qed.

(** *** The summary line *)

Lemma fmap_inj_on {A B} (f : A → B) (l1 l2 : list A) :
  (∀ x y, x ∈ l1 → y ∈ l2 → f x = f y → x = y) →
  f <$> l1 = f <$> l2 → l1 = l2.
Proof.
  revert l2. induction l1 as [|x l1 IH]; intros [|y l2] Hinj Heq; try done.
  cbn in Heq. injection Heq as Hxy Heq.
  rewrite (Hinj x y) by (done || by left). f_equal.
  apply IH; [|done]. intros x' y' Hx' Hy'. apply Hinj; by right.
Qed.

Lemma filter_none {A} (P : A → Prop) `{∀ x, Decision (P x)} (l : list A) :
  (∀ x, x ∈ l → ¬ P x) → filter P l = [].
Proof.
  induction l as [|x l IH]; intros Hl; [done|].
  rewrite filter_cons_False by (apply Hl; by left).
  apply IH. intros y Hy. apply Hl. by right.
Qed.

(** The comparison [builtTx == validTx] compares the items themselves: when
    an address holds one item, the two sorted vectors hold the same pointers
    if and only if the two maps hold the same items, keys and bytes. *)
Lemma same_pointers_leaves bl vl :
  NoDup (key <$> txMap bl) →
  NoDup (key <$> txMap vl) →
  (∀ i j, i ∈ txMap bl → j ∈ txMap vl → item_addr i = item_addr j → i = j) →
  same_pointers (leaves (txMap bl)) (leaves (txMap vl)) = true ↔ txMap bl ≡ₚ txMap vl.
Proof.
  intros Hkb Hkv Hobj. unfold same_pointers. rewrite bool_decide_eq_true. split.
  - intros Heq. apply fmap_inj_on in Heq.
    + by rewrite <- (leaves_Permutation (txMap bl)), Heq, leaves_Permutation.
    + intros i j Hi Hj. apply Hobj; by rewrite <- leaves_Permutation.
  - intros Hperm. f_equal.
    apply (StronglySorted_unique_strong key_lt); [|by apply leaves_sorted..|].
    + unfold key_lt. intros; lia.
    + by rewrite !leaves_Permutation.
Qed.

(** C6 (as the code has it).  In the situation of C4, when moreover an
    address holds one item, the lines written contain one line with the
    numbers of transactions.  It says "same N transactions" exactly when the
    two transaction maps hold the same items, keys and bytes alike, and
    otherwise gives the number of transactions of the built and of the valid
    ledger; two ledgers with the same keys and different bytes for one of
    them get the second form. *)
Theorem handleMismatch_summary_line b v bc vc c st bl vl st1 st2 :
  (NDEBUG = false → b ≠ v) →
  getLedgerByHash b (entered b v bc vc c st) = Returns (Some bl) st1 →
  getLedgerByHash v st1 = Returns (Some vl) st2 →
  (NDEBUG = false → seq (info bl) = seq (info vl)) →
  parentHash (info bl) = parentHash (info vl) →
  closeTime (info bl) = closeTime (info vl) →
  NoDup (key <$> txMap bl) →
  NoDup (key <$> txMap vl) →
  metadata_readable bl vl →
  (∀ i j, i ∈ txMap bl → j ∈ txMap vl → item_addr i = item_addr j → i = j) →
  ∃ lines line,
    handleMismatch b v bc vc c st = Returns tt (log lines st2) ∧
    filter (λ l, is_summary l = true) lines = [line] ∧
    (txMap bl ≡ₚ txMap vl →
       line = (error, MISMATCH_with_same_transactions (length (txMap bl)))) ∧
    (¬ txMap bl ≡ₚ txMap vl →
       line = (error, MISMATCH_with_built_and_valid_transactions
                        (length (txMap bl)) (length (txMap vl)))) ∧
    ((∃ ib iv, ib ∈ txMap bl ∧ iv ∈ txMap vl ∧ key ib = key iv ∧ slice ib ≠ slice iv) →
       line = (error, MISMATCH_with_built_and_valid_transactions
                        (length (txMap bl)) (length (txMap vl)))).
Proof.
  intros Hne Hb Hv Hseq Hp Hc Hkb Hkv Hmeta Hobj.
  exists ((debug, Mismatch_on (seq (info bl)) bl vl c) :: transaction_lines bc vc bl vl),
         (summary_line bl vl).
  split; [by eapply handleMismatch_transaction_level|].
  pose proof (same_pointers_leaves bl vl Hkb Hkv Hobj) as Hsame.
  assert (Hyes : txMap bl ≡ₚ txMap vl →
            summary_line bl vl = (error, MISMATCH_with_same_transactions (length (txMap bl)))).
  { intros Hperm. unfold summary_line.
    by rewrite (proj2 Hsame Hperm), leaves_length. }
  assert (Hno : ¬ txMap bl ≡ₚ txMap vl →
            summary_line bl vl = (error, MISMATCH_with_built_and_valid_transactions
                                           (length (txMap bl)) (length (txMap vl)))).
  { intros Hperm. unfold summary_line.
    destruct (same_pointers _ _); [by destruct Hperm; apply Hsame|].
    by rewrite !leaves_length. }
  split; [|split; [done|split; [done|]]].
  - rewrite filter_cons_False by done. unfold transaction_lines.
    rewrite filter_app, (filter_none _ (consensus_set_lines bc vc)).
    2: { unfold consensus_set_lines. intros x Hx.
         destruct bc, vc; try (by apply elem_of_nil in Hx).
         case_bool_decide; by apply list_elem_of_singleton in Hx as ->. }
    cbn [app]. rewrite filter_cons_True.
    2: { unfold summary_line. by case_match. }
    rewrite !filter_cons_False by done.
    rewrite (filter_none _ (difference_lines bl vl)); [done|].
    intros x Hx. by rewrite (difference_lines_not_summary bl vl x Hx).
  - intros (ib & iv & Hib & Hiv & Hk & Hs). apply Hno. intros Hperm.
    apply Hs. f_equal. apply (NoDup_key_inj (txMap vl)); try done.
    by rewrite <- Hperm.
Qed.

End LedgerHistoryFacts.

(** ** The properties on the example data *)

Section LedgerHistoryExamples.
Import LedgerHistory Examples.

Lemma built_then_validated_witness :
  ∃ st1,
    builtLedger false loadByHash txRead built5 1 "c" new_history = Returns tt st1 ∧
    calls st1 = [] ∧
    mismatch_counter_ st1 = 0%N ∧
    (11%N ≠ 12%N →
       calls (final (validatedLedger false loadByHash txRead valid5 (Some 2%N) st1)) =
         [] ++ [mkCall 11 12 (Some 1%N) (Some 2%N) "c"] ∧
       mismatch_counter_ (final (validatedLedger false loadByHash txRead valid5 (Some 2%N) st1)) =
         N.succ 0) ∧
    (11%N = 12%N →
       ∃ st2, validatedLedger false loadByHash txRead valid5 (Some 2%N) st1 = Returns tt st2 ∧
              calls st2 = [] ∧ mismatch_counter_ st2 = 0%N).
Proof.
  apply (built_then_validated false loadByHash txRead built5 valid5 1%N (Some 2%N) "c"
           new_history); [reflexivity|reflexivity|].
  intros _. split; discriminate.
Defined.

(** C2, the claim as it is written: after [events_rebuilt] the entry of
    sequence 5 holds a built and a validated hash that differ, and
    [handleMismatch] was never called. *)
Lemma rebuilt_pair_is_not_diagnosed :
  let o := run_events false loadByHash txRead events_rebuilt new_history in
  o = Returns tt (final o) ∧
  built <$> consensusValidated_ (final o) !! 5%N = Some (Some 16%N) ∧
  validated <$> consensusValidated_ (final o) !! 5%N = Some (Some 11%N) ∧
  calls (final o) = [] ∧
  mismatch_counter_ (final o) = 0%N.
Proof. vm_compute. repeat split. Qed.

Lemma diagnosis_once_per_sequence_witness :
  ∃ new newc,
    j_ (final (run_events false loadByHash txRead events new_history)) = [] ++ new ∧
    calls (final (run_events false loadByHash txRead events new_history)) = [] ++ newc ∧
    pair_of_call <$> newc = pair_of <$> omap announced new ∧
    mismatch_counter_ (final (run_events false loadByHash txRead events new_history)) =
      (0 + N.of_nat (length newc))%N ∧
    pair_of <$> filter (λ a, a.1.1 = 5%N) (omap announced new) = [(11%N, 12%N)] ∧
    length (diagnosis (of_sequence 5 events)) ≤ 1.
Proof.
  apply (diagnosis_once_per_sequence false loadByHash txRead events new_history
           (final (run_events false loadByHash txRead events new_history)) 5%N).
  - vm_compute. reflexivity.
  - reflexivity.
Defined.

Lemma handleMismatch_ancestry_then_close_time_witness :
  (∃ st2, handleMismatch false loadByHash txRead 11 13 None None "c" new_history =
            Returns tt (log [(debug, Mismatch_on 5 built5 fork5 "c");
                             (error, MISMATCH_on_prior_ledger)] st2)) ∧
  (∃ st2, handleMismatch false loadByHash txRead 11 14 None None "c" new_history =
            Returns tt (log [(debug, Mismatch_on 5 built5 late5 "c");
                             (error, MISMATCH_on_close_time)] st2)).
Proof.
  split.
  - eexists.
    apply (proj1 (handleMismatch_ancestry_then_close_time false loadByHash txRead
                    11 13 None None "c" new_history built5 fork5 _ _
                    ltac:(discriminate) ltac:(reflexivity) ltac:(reflexivity)
                    ltac:(reflexivity))).
    discriminate.
  - eexists.
    apply (proj2 (handleMismatch_ancestry_then_close_time false loadByHash txRead
                    11 14 None None "c" new_history built5 late5 _ _
                    ltac:(discriminate) ltac:(reflexivity) ltac:(reflexivity)
                    ltac:(reflexivity))).
    + reflexivity.
    + discriminate.
Defined.

Lemma log_metadata_difference_classifies_witness :
  log_metadata_difference false txRead built5 valid5 7 new_history =
    Returns tt (log [(debug, MISMATCH_on_TX 7 Different_result);
                     (debug, Built_ (Some 0%Z) None None);
                     (debug, Valid_ (Some 5%Z) None None)] new_history).
Proof.
  destruct (log_metadata_difference_classifies false txRead built5 valid5 7
              (TxMeta_ctor 7 5 (mkMeta 0 6 [7%N])) (TxMeta_ctor 7 5 (mkMeta 5 6 [7%N]))
              new_history eq_refl eq_refl) as (lines & Hrun & _ & _ & Hresult).
  rewrite Hrun, Hresult; reflexivity.
Defined.

Lemma insert_preconditions_witness :
  insert false mutable5 true new_history = Aborts LogicError new_history ∧
  insert false stateless5 true new_history = Aborts assertion_failed new_history ∧
  ∃ st', insert false built5 true new_history = Returns false st' ∧
         ledgerCache_ st' !! 11%N = Some built5 ∧
         mLedgersByIndex st' !! 5%N = Some 11%N.
Proof.
  destruct (insert_preconditions false mutable5 true new_history) as (Hmut & _ & _).
  destruct (insert_preconditions false stateless5 true new_history) as (_ & Hzero & _).
  destruct (insert_preconditions false built5 true new_history) as (_ & _ & Hok).
  split; [apply Hmut; reflexivity|].
  split; [apply Hzero; reflexivity|].
  destruct Hok as (had & st' & Hrun & -> & Hcache & Hindex & _);
    [reflexivity|right; discriminate|].
  exists st'. split; [exact Hrun|]. split; [exact Hcache|]. apply Hindex. reflexivity.
Defined.

(** C7, the claim as it is written: an immutable ledger whose hash is zero
    passes [insert], with assertions compiled in, and is then in the cache
    under the key zero and in the index. *)
Lemma insert_zero_hash_ledger :
  let o := insert false zero5 true new_history in
  o = Returns false (final o) ∧
  hash (info zero5) = 0%N ∧
  ledgerCache_ (final o) !! 0%N = Some zero5 ∧
  mLedgersByIndex (final o) !! 5%N = Some 0%N.
Proof. vm_compute. repeat split. Qed.


(** A decidable proposition that a computation settles. *)
Ltac decided := apply (bool_decide_unpack _); vm_compute; exact I.

(** The side conditions of C4 and C6 on the example ledgers. *)
Lemma example_metadata_readable bl vl : metadata_readable txRead bl vl.
Proof. intros ib iv _ _ _. left. eexists. reflexivity. Qed.

Lemma example_objects (i j : SHAMapItem) :
  i ∈ txMap built5 → j ∈ txMap copy5 → item_addr i = item_addr j → i = j.
Proof.
  cbn. rewrite !elem_of_cons, !elem_of_nil.
  intros [->|[->|[]]] [->|[->|[]]]; cbn; first [discriminate|reflexivity].
Qed.

Lemma handleMismatch_transaction_differences_witness :
  ∃ lines st2,
    handleMismatch false loadByHash txRead 11 12 None None "c" new_history =
      Returns tt (log lines st2) ∧
    (debug, MISMATCH_is_missing_this_transaction 9 side_valid (txRead built5 9)) ∈ lines ∧
    (debug, MISMATCH_is_missing_this_transaction 8 side_built (txRead valid5 8)) ∈ lines ∧
    (∃ line, line ∈ lines ∧ classified line = Some 7%N) ∧
    ¬ (∃ line, line ∈ lines ∧ classified line = Some 9%N).
Proof.
  destruct (handleMismatch_transaction_differences false loadByHash txRead
              11 12 None None "c" new_history built5 valid5 _ _
              ltac:(discriminate) ltac:(reflexivity) ltac:(reflexivity)
              ltac:(reflexivity) ltac:(reflexivity) ltac:(reflexivity)
              ltac:(decided) ltac:(decided)
              (example_metadata_readable built5 valid5))
    as (lines & Hrun & Hvalid & Hbuilt & Hclassified & _).
  exists lines. eexists. split; [exact Hrun|]. split; [|split; [|split]].
  - apply Hvalid. split; [|split; [|reflexivity]]; decided.
  - apply Hbuilt. split; [|split; [|reflexivity]]; decided.
  - apply Hclassified. exists tx7, tx7'.
    split; [cbn; rewrite !elem_of_cons; auto|].
    split; [cbn; rewrite !elem_of_cons; auto|].
    split; [reflexivity|]. split; [reflexivity|]. discriminate.
  - intros (ib & iv & Hib & Hiv & _ & Hk & _)%Hclassified.
    revert Hiv Hk. cbn. rewrite !elem_of_cons, elem_of_nil.
    intros [->|[->|[]]]; discriminate.
Defined.

Lemma handleMismatch_summary_line_witness :
  ∃ lines st2,
    handleMismatch false loadByHash txRead 11 15 None None "c" new_history =
      Returns tt (log lines st2) ∧
    filter (λ l, is_summary l = true) lines =
      [(error, MISMATCH_with_built_and_valid_transactions 2 2)].
Proof.
  destruct (handleMismatch_summary_line false loadByHash txRead
              11 15 None None "c" new_history built5 copy5 _ _
              ltac:(discriminate) ltac:(reflexivity) ltac:(reflexivity)
              ltac:(reflexivity) ltac:(reflexivity) ltac:(reflexivity)
              ltac:(decided) ltac:(decided)
              (example_metadata_readable built5 copy5) example_objects)
    as (lines & line & Hrun & Hfilter & _ & _ & Hdiffer).
  exists lines. eexists. split; [exact Hrun|]. rewrite Hfilter, Hdiffer; [reflexivity|].
  exists tx7, tx7'.
  split; [cbn; rewrite !elem_of_cons; auto|].
  split; [cbn; rewrite !elem_of_cons; auto|].
  split; [reflexivity|]. discriminate.
Defined.

(** C6, the claim as it is written: [built5] and [copy5] have the same keys,
    and the bytes of transaction 7 differ; the line with the numbers does not
    say that the transactions are the same. *)
Lemma same_keys_not_reported_as_same :
  let o := handleMismatch false loadByHash txRead 11 15 None None "c" new_history in
  o = Returns tt (final o) ∧
  key <$> leaves (txMap built5) = key <$> leaves (txMap copy5) ∧
  filter (λ l, is_summary l = true) (j_ (final o)) =
    [(error, MISMATCH_with_built_and_valid_transactions 2 2)].
Proof. vm_compute. repeat split. Qed.

End LedgerHistoryExamples.

(** * Message.cpp: the test on the compression ratio *)

Section DoubleFacts.
Import SpecFloat Message.
Local Open Scope Z_scope.

Local Abbreviation prec := 53%Z.
Local Abbreviation emax := 1024%Z.

(** ** The number of binary digits of a mantissa *)

Lemma digits2_pos_bounds p :
  2 ^ (Zpos (digits2_pos p) - 1) <= Zpos p < 2 ^ Zpos (digits2_pos p).
Proof.
  induction p as [p IH|p IH|]; cbn [digits2_pos].
  - rewrite Pos2Z.inj_succ, Z.pow_succ_r by lia.
    replace (Z.succ (Zpos (digits2_pos p)) - 1) with (Z.succ (Zpos (digits2_pos p) - 1)) by lia.
    rewrite Z.pow_succ_r by lia. lia.
  - rewrite Pos2Z.inj_succ, Z.pow_succ_r by lia.
    replace (Z.succ (Zpos (digits2_pos p)) - 1) with (Z.succ (Zpos (digits2_pos p) - 1)) by lia.
    rewrite Z.pow_succ_r by lia. lia.
  - cbn. lia.
Qed.

Lemma digits2_pos_unique p d :
  2 ^ (d - 1) <= Zpos p < 2 ^ d → Zpos (digits2_pos p) = d.
Proof.
  intros [Hlo Hhi]. pose proof (digits2_pos_bounds p) as [Hlo' Hhi'].
  assert (0 < d).
  { destruct (Z.lt_ge_cases 0 d) as [|Hd]; [done|].
    destruct (Z.eq_dec d 0) as [->|Hne]; [cbn in Hhi; lia|].
    rewrite Z.pow_neg_r in Hhi by lia. lia. }
  destruct (Z.lt_trichotomy (Zpos (digits2_pos p)) d) as [Hlt|[Heq|Hgt]]; [|done|].
  - assert (2 ^ Zpos (digits2_pos p) <= 2 ^ (d - 1)) by (apply Z.pow_le_mono_r; lia). lia.
  - assert (2 ^ d <= 2 ^ (Zpos (digits2_pos p) - 1)) by (apply Z.pow_le_mono_r; lia). lia.
Qed.

Lemma fexp_normal e : -1021 <= e → fexp prec emax e = e - 53.
Proof. intros He. unfold fexp, emin. lia. Qed.

Lemma iter_xO p d : Zpos (Pos.iter xO p d) = Zpos p * 2 ^ Zpos d.
Proof.
  revert p. induction d as [|d IH] using Pos.peano_ind; intros p.
  - cbn. lia.
  - rewrite Pos.iter_succ, Pos2Z.inj_succ, Z.pow_succ_r by lia.
    change (Zpos (Pos.iter xO p d)~0) with (2 * Zpos (Pos.iter xO p d)). rewrite IH. lia.
Qed.

(** ** [(double)n] for an integer below 2^53: exact, with a normal mantissa *)

Definition normal (m : positive) : Prop := 2 ^ 52 <= Zpos m < 2 ^ 53.

Lemma shr_fexp_normal m e l :
  normal m → -1074 <= e →
  shr_fexp prec emax (Zpos m) e l = (shr_record_of_loc (Zpos m) l, e).
Proof.
  intros Hm He. unfold shr_fexp. cbn [Zdigits2].
  rewrite (digits2_pos_unique m 53) by done.
  unfold fexp, emin. replace (Z.max (53 + e - 53) (3 - 1024 - 53) - e) with 0 by lia.
  done.
Qed.

Lemma binary_round_aux_normal s m e :
  normal m → -1074 <= e <= 971 →
  binary_round_aux prec emax s (Zpos m) e loc_Exact = S754_finite s m e.
Proof.
  intros Hm He. unfold binary_round_aux.
  rewrite shr_fexp_normal by (done || lia). cbn [shr_record_of_loc shr_m loc_of_shr_record
    round_nearest_even].
  rewrite shr_fexp_normal by (done || lia). cbn [shr_record_of_loc shr_m].
  replace (e <=? 1024 - 53) with true by (symmetry; apply Z.leb_le; lia). done.
Qed.

Lemma to_double_pos n :
  0 < n < 2 ^ 53 →
  ∃ m e, to_double n = S754_finite false m e ∧ normal m ∧ -52 <= e <= 0 ∧
         Zpos m = n * 2 ^ (- e).
Proof.
  intros Hn. destruct n as [|p|p]; try lia.
  pose proof (digits2_pos_bounds p) as Hd.
  set (d := Zpos (digits2_pos p)) in *.
  assert (Hd53 : 1 <= d <= 53).
  { split; [unfold d; lia|].
    destruct (Z.le_gt_cases d 53) as [|Hgt]; [done|].
    assert (2 ^ 53 <= 2 ^ (d - 1)) by (apply Z.pow_le_mono_r; lia). lia. }
  unfold to_double, binary_normalize, binary_round. fold d.
  rewrite fexp_normal by lia. unfold shl_align.
  destruct (d + 0 - 53 - 0) as [|k|k] eqn:Hk; try lia.
  - assert (d = 53) as Hd' by lia. rewrite Hd' in *.
    exists p, 0. rewrite binary_round_aux_normal by (done || lia).
    split; [done|]. split; [done|]. split; [lia|]. cbn. lia.
  - assert (Hk' : Zpos k = 53 - d) by lia.
    assert (Hm : Zpos (Pos.iter xO p k) = Zpos p * 2 ^ (53 - d)) by (by rewrite iter_xO, Hk').
    assert (Hnorm : normal (Pos.iter xO p k)).
    { unfold normal. rewrite Hm. split.
      - replace 52 with ((d - 1) + (53 - d)) by lia. rewrite Z.pow_add_r by lia.
        apply Z.mul_le_mono_nonneg_r; [apply Z.pow_nonneg|]; lia.
      - replace 53 with (d + (53 - d)) at 2 by lia. rewrite Z.pow_add_r by lia.
        apply Z.mul_lt_mono_pos_r; [apply Z.pow_pos_nonneg|]; lia. }
    exists (Pos.iter xO p k), (d + 0 - 53).
    rewrite binary_round_aux_normal by (done || lia).
    split; [done|]. split; [done|]. split; [lia|].
    rewrite Hm. f_equal. f_equal. lia.
Qed.

Lemma to_double_0 : to_double 0 = S754_zero false.
Proof. done. Qed.

(** ** Rounding a quotient of 53 or 54 digits *)

Lemma round_nearest_even_bounds m l : m <= round_nearest_even m l <= m + 1.
Proof. destruct l as [|[]]; cbn; try lia. destruct (Z.even m); lia. Qed.

Lemma shr_m_of_loc m l : shr_m (shr_record_of_loc m l) = m.
Proof. by destruct l as [|[]]. Qed.

Lemma loc_of_shr_record_of_loc m l : loc_of_shr_record (shr_record_of_loc m l) = l.
Proof. by destruct l as [|[]]. Qed.

Definition finish (s : bool) (m2 e : Z) : spec_float :=
  if m2 <? 2 ^ 53 then S754_finite s (Z.to_pos m2) e
  else S754_finite s (2 ^ 52)%positive (e + 1).

Ltac arith := unfold normal in *; lia.

Lemma second_rounding s m2 e :
  2 ^ 52 <= m2 <= 2 ^ 53 → -1074 <= e <= 970 →
  (let '(mrs, e') := shr_fexp prec emax m2 e loc_Exact in
   match shr_m mrs with
   | Z0 => S754_zero s
   | Zpos m => if e' <=? emax - prec then S754_finite s m e' else S754_infinity s
   | Zneg _ => S754_nan
   end) = finish s m2 e.
Proof.
  intros Hm He. unfold finish. destruct (m2 <? 2 ^ 53) eqn:Hlt.
  - apply Z.ltb_lt in Hlt. destruct m2 as [|p|p]; try lia.
    rewrite shr_fexp_normal by arith. cbn [shr_record_of_loc shr_m].
    replace (e <=? 1024 - 53) with true by (symmetry; apply Z.leb_le; lia). done.
  - apply Z.ltb_ge in Hlt. assert (m2 = 2 ^ 53) as -> by lia.
    unfold shr_fexp. change (Zdigits2 (2 ^ 53)) with 54.
    unfold fexp, emin. replace (Z.max (54 + e - 53) (3 - 1024 - 53) - e) with 1 by lia.
    cbn [shr shr_record_of_loc iter_pos]. change (2 ^ 53) with (Zpos (2 ^ 53)%positive).
    cbn [shr_1 shr_m Pos.pow Pos.iter Pos.mul].
    replace (e + 1 <=? 1024 - 53) with true by (symmetry; apply Z.leb_le; lia). done.
Qed.

Lemma binary_round_aux_quotient s q e l :
  2 ^ 52 <= q < 2 ^ 54 → -1021 <= e <= 900 →
  ∃ m2, let k := if q <? 2 ^ 53 then 0 else 1 in
    q / 2 ^ k <= m2 <= (q + 1) / 2 ^ k ∧
    binary_round_aux prec emax s q e l = finish s m2 (e + k).
Proof.
  intros Hq He. destruct (q <? 2 ^ 53) eqn:Hlt.
  - apply Z.ltb_lt in Hlt. destruct q as [|p|p]; try lia.
    exists (round_nearest_even (Zpos p) l). cbn zeta. rewrite !Z.div_1_r.
    split; [apply round_nearest_even_bounds|].
    unfold binary_round_aux. rewrite shr_fexp_normal by arith.
    rewrite shr_m_of_loc, loc_of_shr_record_of_loc, Z.add_0_r.
    pose proof (round_nearest_even_bounds (Zpos p) l).
    apply second_rounding; lia.
  - apply Z.ltb_ge in Hlt. destruct q as [|p|p]; try lia.
    pose (rec1 := shr_1 (shr_record_of_loc (Zpos p) l)).
    exists (round_nearest_even (shr_m rec1) (loc_of_shr_record rec1)). cbn zeta.
    assert (Hshr : shr_fexp prec emax (Zpos p) e l = (rec1, e + 1)).
    { unfold shr_fexp. cbn [Zdigits2]. rewrite (digits2_pos_unique p 54) by lia.
      unfold fexp, emin. replace (Z.max (54 + e - 53) (3 - 1024 - 53) - e) with 1 by lia.
      done. }
    assert (Hm2 : Zpos p / 2 ^ 1 <= round_nearest_even (shr_m rec1) (loc_of_shr_record rec1)
                  <= (Zpos p + 1) / 2 ^ 1).
    { change (2 ^ 1) with 2. subst rec1.
      destruct p as [p|p|]; try lia.
      - replace (Zpos p~1 / 2) with (Zpos p) by (rewrite Pos2Z.inj_xI;
          apply Z.div_unique with 1; lia).
        replace ((Zpos p~1 + 1) / 2) with (Zpos p + 1) by (rewrite Pos2Z.inj_xI;
          apply Z.div_unique with 0; lia).
        destruct l as [|[]]; cbn [shr_record_of_loc shr_1 shr_m];
          apply round_nearest_even_bounds.
      - replace (Zpos p~0 / 2) with (Zpos p) by (rewrite Pos2Z.inj_xO;
          apply Z.div_unique with 0; lia).
        replace ((Zpos p~0 + 1) / 2) with (Zpos p) by (rewrite Pos2Z.inj_xO;
          apply Z.div_unique with 1; lia).
        destruct l as [|[]]; cbn; lia. }
    split; [done|].
    unfold binary_round_aux. rewrite Hshr.
    apply second_rounding; [|lia].
    change (2 ^ 1) with 2 in Hm2.
    assert (2 ^ 52 <= Zpos p / 2) by (apply Z.div_le_lower_bound; lia).
    assert ((Zpos p + 1) / 2 <= 2 ^ 53) by (apply Z.div_le_upper_bound; lia).
    lia.
Qed.

(** ** The quotient of two doubles with normal mantissas *)

Lemma quotient_bounds mc mm :
  normal mc → normal mm → 2 ^ 52 <= Zpos mc * 2 ^ 53 / Zpos mm < 2 ^ 54.
Proof.
  intros Hc Hm. unfold normal in *. split.
  - apply Z.div_le_lower_bound; lia.
  - apply Z.div_lt_upper_bound; lia.
Qed.

Lemma SFdiv_normal mc ec mm em :
  normal mc → normal mm → -52 <= ec <= 0 → -52 <= em <= 0 →
  ∃ m2, let q := Zpos mc * 2 ^ 53 / Zpos mm in
        let k := if q <? 2 ^ 53 then 0 else 1 in
    q / 2 ^ k <= m2 <= (q + 1) / 2 ^ k ∧
    SFdiv prec emax (S754_finite false mc ec) (S754_finite false mm em) =
      finish false m2 (ec - em - 53 + k).
Proof.
  intros Hc Hm Hec Hem.
  pose proof (quotient_bounds mc mm Hc Hm) as Hq.
  destruct (binary_round_aux_quotient false (Zpos mc * 2 ^ 53 / Zpos mm) (ec - em - 53)
              (new_location (Zpos mm) (Zpos mc * 2 ^ 53 mod Zpos mm)) Hq) as (m2 & Hm2 & Hround);
    [lia|].
  exists m2. split; [done|].
  unfold SFdiv, SFdiv_core_binary. cbn [Zdigits2 xorb].
  rewrite (digits2_pos_unique mc 53), (digits2_pos_unique mm 53) by done.
  rewrite fexp_normal by lia.
  replace (Z.min (53 + ec - (53 + em) - 53) (ec - em)) with (ec - em - 53) by lia.
  replace (ec - em - (ec - em - 53)) with 53 by lia.
  rewrite Z.shiftl_mul_pow2 by lia.
  assert (Hqr : Z.div_eucl (Zpos mc * 2 ^ 53) (Zpos mm) =
                (Zpos mc * 2 ^ 53 / Zpos mm, Zpos mc * 2 ^ 53 mod Zpos mm)).
  { unfold Z.div, Z.modulo. by destruct (Z.div_eucl _ _). }
  rewrite Hqr. exact Hround.
Qed.

(** ** Subtraction from [1.0] *)

Lemma shr_1_m r : 0 <= shr_m r → shr_m (shr_1 r) = shr_m r / 2.
Proof.
  destruct r as [[|p|p] rr ss]; cbn [shr_m shr_1]; try lia; [done|].
  destruct p as [p|p|]; cbn [shr_m]; intros _.
  - rewrite Pos2Z.inj_xI. apply Z.div_unique with 1; lia.
  - rewrite Pos2Z.inj_xO. apply Z.div_unique with 0; lia.
  - done.
Qed.

Lemma pow2_twice z : 0 <= z → 2 ^ (2 * z) = 2 ^ z * 2 ^ z.
Proof.
  intros Hz. replace (2 * z) with (z + z) by lia. by rewrite Z.pow_add_r.
Qed.

Lemma pow2_twice_succ z : 0 <= z → 2 ^ (2 * z + 1) = 2 * (2 ^ z * 2 ^ z).
Proof.
  intros Hz. rewrite Z.pow_add_r by lia. rewrite pow2_twice by lia.
  change (2 ^ 1) with 2. lia.
Qed.

Lemma iter_shr_1_m k r :
  0 <= shr_m r → shr_m (iter_pos shr_1 k r) = shr_m r / 2 ^ Zpos k.
Proof.
  revert r. induction k as [k IH|k IH|]; intros r Hr; cbn [iter_pos].
  - assert (0 <= shr_m (shr_1 r)) by (rewrite shr_1_m by done; apply Z.div_pos; lia).
    assert (0 <= shr_m (iter_pos shr_1 k (shr_1 r)))
      by (rewrite IH by done; apply Z.div_pos; [done|apply Z.pow_pos_nonneg; lia]).
    rewrite !IH, shr_1_m by done.
    rewrite !Z.div_div by (try apply Z.pow_pos_nonneg; lia).
    f_equal. rewrite (Pos2Z.inj_xI k). by rewrite pow2_twice_succ.
  - assert (0 <= shr_m (iter_pos shr_1 k r))
      by (rewrite IH by done; apply Z.div_pos; [done|apply Z.pow_pos_nonneg; lia]).
    rewrite !IH by done.
    rewrite !Z.div_div by (try apply Z.pow_pos_nonneg; lia).
    f_equal. rewrite (Pos2Z.inj_xO k). by rewrite pow2_twice.
  - rewrite shr_1_m by done. done.
Qed.

Lemma binary_round_negative m e :
  SFltb (S754_zero false) (binary_round prec emax true m e) = false.
Proof.
  unfold binary_round. destruct (shl_align m e _) as [mz ez].
  unfold binary_round_aux. destruct (shr_fexp _ _ _ _ _) as [mrs e1].
  destruct (shr_fexp _ _ _ _ _) as [mrs2 e2].
  destruct (shr_m mrs2); [done| |done]. by destruct (e2 <=? _).
Qed.

Lemma finish_finite s m2 e :
  2 ^ 52 <= m2 <= 2 ^ 53 →
  ∃ mr, normal mr ∧
        finish s m2 e = S754_finite s mr (e + if m2 <? 2 ^ 53 then 0 else 1).
Proof.
  intros Hm2. unfold finish. destruct (m2 <? 2 ^ 53) eqn:Hlt.
  - apply Z.ltb_lt in Hlt. exists (Z.to_pos m2). rewrite Z.add_0_r. split; [|done].
    unfold normal. rewrite Z2Pos.id; lia.
  - exists (2 ^ 52)%positive. split; [|done]. unfold normal. cbn. lia.
Qed.

Lemma binary_round_positive p e :
  -1000 <= e → e + Zpos (digits2_pos p) <= 1000 →
  ∃ mr er, binary_round prec emax false p e = S754_finite false mr er.
Proof.
  intros He Hd. pose proof (digits2_pos_bounds p) as Hp.
  set (d := Zpos (digits2_pos p)) in *.
  assert (0 < d) by (unfold d; lia).
  unfold binary_round. fold d. rewrite fexp_normal by lia. unfold shl_align.
  destruct (d + e - 53 - e) as [|k|k] eqn:Hk.
  - assert (d = 53) as Hd53 by lia. rewrite Hd53 in Hp.
    rewrite binary_round_aux_normal by arith. eauto.
  - assert (Hd53 : d = 53 + Zpos k) by lia.
    unfold binary_round_aux.
    assert (Hshr : shr_fexp prec emax (Zpos p) e loc_Exact =
              (iter_pos shr_1 k (shr_record_of_loc (Zpos p) loc_Exact), e + Zpos k)).
    { unfold shr_fexp. cbn [Zdigits2]. fold d. rewrite fexp_normal by lia.
      by rewrite Hk. }
    rewrite Hshr.
    set (rec1 := iter_pos shr_1 k _).
    assert (Hm1 : shr_m rec1 = Zpos p / 2 ^ Zpos k).
    { unfold rec1. rewrite iter_shr_1_m; [done|]. cbn. lia. }
    assert (Hrange : 2 ^ 52 <= shr_m rec1 < 2 ^ 53).
    { rewrite Hm1. rewrite Hd53 in Hp.
      replace (53 + Zpos k - 1) with (52 + Zpos k) in Hp by lia.
      rewrite !Z.pow_add_r in Hp by lia.
      assert (0 < 2 ^ Zpos k) by (apply Z.pow_pos_nonneg; lia). split.
      - apply Z.div_le_lower_bound; lia.
      - apply Z.div_lt_upper_bound; lia. }
    pose proof (round_nearest_even_bounds (shr_m rec1) (loc_of_shr_record rec1)) as Hr.
    rewrite second_rounding by lia.
    destruct (finish_finite false (round_nearest_even (shr_m rec1) (loc_of_shr_record rec1))
                (e + Zpos k)) as (mr & _ & ->); [lia|]. eauto.
  - assert (Hk' : Zpos k = 53 - d) by lia.
    assert (Hm : Zpos (Pos.iter xO p k) = Zpos p * 2 ^ (53 - d)) by (by rewrite iter_xO, Hk').
    assert (Hnorm : normal (Pos.iter xO p k)).
    { unfold normal. rewrite Hm. split.
      - replace 52 with ((d - 1) + (53 - d)) by lia. rewrite Z.pow_add_r by lia.
        apply Z.mul_le_mono_nonneg_r; [apply Z.pow_nonneg|]; lia.
      - replace 53 with (d + (53 - d)) at 2 by lia. rewrite Z.pow_add_r by lia.
        apply Z.mul_lt_mono_pos_r; [apply Z.pow_pos_nonneg|]; lia. }
    rewrite binary_round_aux_normal by (done || lia). eauto.
Qed.

Lemma shl_align_fst m e e' :
  Zpos (fst (shl_align m e e')) = Zpos m * 2 ^ Z.max 0 (e - e').
Proof.
  unfold shl_align. destruct (e' - e) as [|k|k] eqn:Hk; cbn [fst].
  - replace (Z.max 0 (e - e')) with 0 by lia. cbn. lia.
  - replace (Z.max 0 (e - e')) with 0 by lia. cbn. lia.
  - rewrite iter_xO. f_equal. f_equal. lia.
Qed.

Lemma one_eq : one = S754_finite false (2 ^ 52)%positive (-52).
Proof. done. Qed.

(** [1.0 - y > 0.0] for a normal [y]: the exponent of [y] decides. *)
Lemma one_minus_positive mr er :
  normal mr → -200 <= er <= 200 →
  SFltb (S754_zero false) (SFsub prec emax one (S754_finite false mr er)) = (er <? -52).
Proof.
  intros Hm He. rewrite one_eq. unfold SFsub. cbn [cond_Zopp].
  set (ez := Z.min (-52) er).
  set (D := Zpos (fst (shl_align (2 ^ 52) (-52) ez)) - Zpos (fst (shl_align mr er ez))).
  assert (HD : D = 2 ^ 52 * 2 ^ Z.max 0 (-52 - ez) - Zpos mr * 2 ^ Z.max 0 (er - ez)).
  { unfold D. by rewrite !shl_align_fst. }
  clearbody D. unfold normal in Hm.
  destruct (er <? -52) eqn:Hlt.
  - apply Z.ltb_lt in Hlt.
    assert (0 < D).
    { rewrite HD. replace (Z.max 0 (er - ez)) with 0 by lia.
      replace (Z.max 0 (-52 - ez)) with (1 + (-53 - er)) by lia.
      rewrite Z.pow_add_r by lia. change (2 ^ 1) with 2. change (2 ^ 0) with 1.
      assert (0 < 2 ^ (-53 - er)) by (apply Z.pow_pos_nonneg; lia). nia. }
    destruct D as [|p|p]; try lia. cbn [binary_normalize].
    destruct (binary_round_positive p ez) as (m' & e' & ->); [lia| |done].
    pose proof (digits2_pos_bounds p) as [Hlo _].
    assert (Zpos p < 2 ^ 201).
    { rewrite HD. replace (Z.max 0 (er - ez)) with 0 by lia.
      assert (2 ^ Z.max 0 (-52 - ez) <= 2 ^ 148) by (apply Z.pow_le_mono_r; lia).
      change (2 ^ 0) with 1. nia. } 
    assert (Zpos (digits2_pos p) - 1 < 300).
    { apply (Z.pow_lt_mono_r_iff 2); [lia|lia|]. 
      assert (2 ^ 201 <= 2 ^ 300) by (apply Z.pow_le_mono_r; lia). lia. }
    lia.
  - apply Z.ltb_ge in Hlt.
    assert (D <= 0).
    { rewrite HD. replace (Z.max 0 (-52 - ez)) with 0 by lia.
      change (2 ^ 0) with 1.
      assert (0 < 2 ^ Z.max 0 (er - ez)) by (apply Z.pow_pos_nonneg; lia). nia. }
    destruct D as [|p|p]; try lia; cbn [binary_normalize]; [done|].
    apply binary_round_negative.
Qed.

Lemma pow2_split a b : 0 <= b <= a → 2 ^ a = 2 ^ (a - b) * 2 ^ b.
Proof. intros H. rewrite <- Z.pow_add_r by lia. f_equal. lia. Qed.

Lemma pow2_ge_2 z : 1 <= z → 2 <= 2 ^ z.
Proof.
  intros Hz. replace z with (1 + (z - 1)) by lia. rewrite Z.pow_add_r by lia.
  assert (0 < 2 ^ (z - 1)) by (apply Z.pow_pos_nonneg; lia). change (2 ^ 1) with 2. lia.
Qed.

(** The exponent of the rounded quotient of two integers below 2^53 tells
    which of them is larger. *)
Lemma quotient_exponent c m mc ec mm em m2 :
  normal mc → normal mm → -52 <= ec <= 0 → -52 <= em <= 0 →
  Zpos mc = c * 2 ^ (- ec) → Zpos mm = m * 2 ^ (- em) →
  let q := Zpos mc * 2 ^ 53 / Zpos mm in
  let k := if q <? 2 ^ 53 then 0 else 1 in
  q / 2 ^ k <= m2 <= (q + 1) / 2 ^ k →
  (ec - em - 53 + k + (if m2 <? 2 ^ 53 then 0 else 1) <? -52) = (c <? m).
Proof.
  intros Hc Hm Hec Hem Hmc Hmm q k Hm2. unfold normal in *.
  set (A := 2 ^ (- ec)) in *. set (B := 2 ^ (- em)) in *.
  assert (HA : 0 < A) by (apply Z.pow_pos_nonneg; lia).
  assert (HB : 0 < B) by (apply Z.pow_pos_nonneg; lia).
  assert (Hq : 2 ^ 52 <= q < 2 ^ 54) by (apply quotient_bounds; done).
  assert (HAB : ec < em → A = 2 ^ (em - ec) * B ∧ 2 <= 2 ^ (em - ec)).
  { intros Hlt. split; [|apply pow2_ge_2; lia].
    unfold A, B. rewrite (pow2_split (- ec) (- em)) by lia. f_equal. f_equal. lia. }
  assert (HBA : em < ec → B = 2 ^ (ec - em) * A ∧ 2 <= 2 ^ (ec - em)).
  { intros Hlt. split; [|apply pow2_ge_2; lia].
    unfold A, B. rewrite (pow2_split (- em) (- ec)) by lia. f_equal. f_equal. lia. }
  assert (Hk : k = 0 ∨ k = 1) by (unfold k; destruct (q <? 2 ^ 53); lia).
  destruct (c <? m) eqn:Hcm.
  - apply Z.ltb_lt in Hcm. apply Z.ltb_lt.
    assert (Hle : ec <= em).
    { destruct (Z.le_gt_cases ec em) as [|Hgt]; [done|].
      destruct (HBA Hgt) as [HB' Hp]. nia. }
    destruct (Z.eq_dec ec em) as [Heq|Hne].
    + assert (A = B) by (unfold A, B; by rewrite Heq).
      assert (Zpos mc < Zpos mm) by nia.
      assert (q < 2 ^ 53 - 1) by (apply Z.div_lt_upper_bound; lia).
      assert (k = 0) as Hk0 by (unfold k; destruct (q <? 2 ^ 53) eqn:E;
        [done|apply Z.ltb_ge in E; lia]).
      rewrite Hk0 in *. rewrite !Z.div_1_r in Hm2.
      replace (m2 <? 2 ^ 53) with true by (symmetry; apply Z.ltb_lt; lia). lia.
    + destruct (Z.eq_dec (em - ec) 1) as [H1|H1].
      * destruct (HAB ltac:(lia)) as [HA' _]. rewrite H1 in HA'. change (2 ^ 1) with 2 in HA'.
        assert (Zpos mc <= 2 * Zpos mm - 2) by nia.
        assert (q < 2 ^ 54 - 1) by (apply Z.div_lt_upper_bound; lia).
        destruct Hk as [Hk0|Hk1].
        -- rewrite Hk0. destruct (m2 <? 2 ^ 53); lia.
        -- rewrite Hk1 in *. change (2 ^ 1) with 2 in Hm2.
           assert ((q + 1) / 2 < 2 ^ 53) by (apply Z.div_lt_upper_bound; lia).
           replace (m2 <? 2 ^ 53) with true by (symmetry; apply Z.ltb_lt; lia). lia.
      * destruct (m2 <? 2 ^ 53); lia.
  - apply Z.ltb_ge in Hcm. apply Z.ltb_ge.
    assert (Hle : em <= ec).
    { destruct (Z.le_gt_cases em ec) as [|Hgt]; [done|].
      destruct (HAB Hgt) as [HA' Hp]. nia. }
    destruct (Z.eq_dec ec em) as [Heq|Hne].
    + assert (A = B) by (unfold A, B; by rewrite Heq).
      assert (Zpos mm <= Zpos mc) by nia.
      assert (2 ^ 53 <= q) by (apply Z.div_le_lower_bound; lia).
      assert (k = 1) as Hk1 by (unfold k; destruct (q <? 2 ^ 53) eqn:E;
        [apply Z.ltb_lt in E; lia|done]).
      rewrite Hk1. destruct (m2 <? 2 ^ 53); lia.
    + destruct (m2 <? 2 ^ 53); lia.
Qed.

(** [ratio > 0.0] in the constructor of [Message]: for sizes that a double
    represents exactly, the test succeeds if and only if the compressed size
    is smaller. *)
Lemma ratio_positive_lt c m :
  0 <= c < 2 ^ 53 → 0 < m < 2 ^ 53 → dgt (ratio c m) zero = (c <? m).
Proof.
  intros Hc Hm. unfold dgt, zero, ratio, dsub, ddiv.
  destruct (to_double_pos m Hm) as (mm & em & -> & Hmm & Hem & Hvm).
  destruct (Z.eq_dec c 0) as [->|Hc0].
  { rewrite to_double_0. cbn [SFdiv xorb SFsub]. rewrite one_eq.
    symmetry. apply Z.ltb_lt. lia. }
  destruct (to_double_pos c ltac:(lia)) as (mc & ec & -> & Hmc & Hec & Hvc).
  destruct (SFdiv_normal mc ec mm em Hmc Hmm Hec Hem) as (m2 & Hm2 & ->).
  pose proof (quotient_bounds mc mm Hmc Hmm) as Hq.
  cbn zeta in Hm2.
  assert (Hm2' : 2 ^ 52 <= m2 <= 2 ^ 53).
  { destruct (_ <? 2 ^ 53) eqn:E in Hm2.
    - apply Z.ltb_lt in E. rewrite !Z.div_1_r in Hm2. lia.
    - change (2 ^ 1) with 2 in Hm2.
      assert (2 ^ 52 <= Zpos mc * 2 ^ 53 / Zpos mm / 2) by (apply Z.div_le_lower_bound; lia).
      assert ((Zpos mc * 2 ^ 53 / Zpos mm + 1) / 2 <= 2 ^ 53)
        by (apply Z.div_le_upper_bound; lia).
      lia. }
  destruct (finish_finite false m2
              (ec - em - 53 + (if Zpos mc * 2 ^ 53 / Zpos mm <? 2 ^ 53 then 0 else 1)) Hm2')
    as (mr & Hmr & ->).
  rewrite one_minus_positive; [|done|].
  - by apply (quotient_exponent c m mc ec mm em m2).
  - destruct (_ <? _), (_ <? _); lia.
Qed.

End DoubleFacts.

(** * Message.cpp: the envelope *)

Section HeaderFacts.
Import Message.
Local Open Scope Z_scope.

(** ** Reading a header *)

(** The first four bytes as one big-endian 32-bit field, the last two as a
    big-endian 16-bit field. *)
Definition be32 (b0 b1 b2 b3 : Z) : Z := b0 * 2 ^ 24 + b1 * 2 ^ 16 + b2 * 2 ^ 8 + b3.
Definition be16 (b4 b5 : Z) : Z := b4 * 2 ^ 8 + b5.
Definition is_byte (b : Z) : Prop := 0 <= b < 256.

(** [bytes] is an envelope: six header bytes, then [payload]; bits 27..0
    of the first field are the length of the payload, bit 31 says whether
    the payload is compressed, bits 30..28 select the algorithm (and are
    clear when it is not), the second field is the message type. *)
Definition envelope (bytes payload : list Z) (type : Z) (compressed : bool)
    (algorithm : Z) : Prop :=
  ∃ b0 b1 b2 b3 b4 b5,
    bytes = [b0; b1; b2; b3; b4; b5] ++ payload ∧
    Forall is_byte [b0; b1; b2; b3; b4; b5] ∧
    Z.land (be32 b0 b1 b2 b3) (Z.ones 28) = Z.of_nat (length payload) ∧
    Z.testbit (be32 b0 b1 b2 b3) 31 = compressed ∧
    Z.land (Z.shiftr (be32 b0 b1 b2 b3) 28) 7 =
      (if compressed then algorithm mod 8 else 0) ∧
    be16 b4 b5 = type mod 2 ^ 16.

(** ** set_header *)

Lemma uint8_t_byte z : is_byte (uint8_t z).
Proof. unfold is_byte, uint8_t. apply Z.mod_pos_bound. lia. Qed.

Lemma land_0xFF z : Z.land z 0xFF = z mod 256.
Proof. change 0xFF with (Z.ones 8). by rewrite Z.land_ones. Qed.

(** The first byte, by enumeration of the sixteen values of the top bits
    of a length below 2^28 and of the values of a [uint8_t]. *)
Definition first_byte (x : Z) (compressed : bool) (a : Z) : Z :=
  uint8_t (Z.land (Z.lor x
    (uint8_t (Z.land (if compressed then 0xF0 else 0) (Z.lor 0x80 (Z.shiftl a 4)))))
    0xFF).

Lemma first_byte_table :
  Forall (λ x, Forall (λ a,
      first_byte x true a = x + 128 + 16 * (a mod 8) ∧ first_byte x false a = x)
    (seqZ 0 256)) (seqZ 0 16).
Proof. apply (bool_decide_unpack _). vm_compute. exact I. Qed.

Lemma first_byte_eq x compressed a :
  0 <= x < 16 → 0 <= a < 256 →
  first_byte x compressed a = x + (if compressed then 128 + 16 * (a mod 8) else 0).
Proof.
  intros Hx Ha. pose proof first_byte_table as T.
  rewrite Forall_forall in T. specialize (T x).
  rewrite elem_of_seqZ, Forall_forall in T. specialize (T ltac:(lia) a).
  rewrite elem_of_seqZ in T. destruct (T ltac:(lia)) as [T1 T2].
  destruct compressed; lia.
Qed.

Lemma set_header_eq messageBytes type compressed compr_algorithm :
  set_header messageBytes type compressed compr_algorithm =
    [ first_byte (Z.shiftr messageBytes 24) compressed (uint8_t compr_algorithm);
      uint8_t (Z.land (Z.shiftr messageBytes 16) 0xFF);
      uint8_t (Z.land (Z.shiftr messageBytes 8) 0xFF);
      uint8_t (Z.land messageBytes 0xFF);
      uint8_t (Z.land (Z.shiftr type 8) 0xFF);
      uint8_t (Z.land type 0xFF) ].
Proof. reflexivity. Qed.

(** The header that [set_header] writes for a length below 2^28. *)
Lemma set_header_envelope payload type compressed compr_algorithm :
  Z.of_nat (length payload) < 2 ^ 28 →
  envelope
    (set_header (Z.of_nat (length payload)) type compressed compr_algorithm ++ payload)
    payload type compressed compr_algorithm.
Proof.
  intros Hn. set (n := Z.of_nat (length payload)) in *.
  assert (H0 : 0 <= n) by (unfold n; lia).
  rewrite set_header_eq. unfold envelope. do 6 eexists. split; [reflexivity|].
  rewrite first_byte_eq; cycle 1.
  { rewrite Z.shiftr_div_pow2 by lia. split.
    - apply Z.div_pos; lia.
    - apply Z.div_lt_upper_bound; lia. }
  { apply uint8_t_byte. }
  rewrite !land_0xFF, !Z.shiftr_div_pow2 by lia. unfold uint8_t.
  rewrite !Z.mod_mod by lia.
  set (f := if compressed then 128 + 16 * (compr_algorithm mod 256 mod 8) else 0).
  assert (Hf : f = 16 * (if compressed then 8 + compr_algorithm mod 8 else 0)).
  { unfold f. destruct compressed; [|done].
    Z.div_mod_to_equations. lia. }
  assert (Ha : 0 <= compr_algorithm mod 8 < 8) by (apply Z.mod_pos_bound; lia).
  set (g := if compressed then 8 + compr_algorithm mod 8 else 0) in Hf.
  assert (Hg : 0 <= g < 16) by (unfold g; destruct compressed; lia).
  assert (Hw : be32 (n / 2 ^ 24 + f) (n / 2 ^ 16 mod 256) (n / 2 ^ 8 mod 256) (n mod 256)
               = g * 2 ^ 28 + n).
  { unfold be32. rewrite Hf. clearbody g f n. Z.div_mod_to_equations. lia. }
  rewrite Hw. split_and!.
  - assert (0 <= n / 2 ^ 24 < 16).
    { split; [apply Z.div_pos; lia|apply Z.div_lt_upper_bound; lia]. }
    rewrite !Forall_cons, Forall_nil. unfold is_byte.
    split_and!; try (apply Z.mod_pos_bound; lia); [lia|lia|done].
  - rewrite Z.land_ones by lia. rewrite Z.add_comm, Z.mod_add by lia.
    apply Z.mod_small. lia.
  - unfold g. destruct compressed.
    + apply Z.testbit_true; [lia|]. clearbody n. Z.div_mod_to_equations. lia.
    + apply Z.testbit_false; [lia|]. clearbody n. Z.div_mod_to_equations. lia.
  - change 7 with (Z.ones 3).
    rewrite Z.land_ones by lia.
    replace ((g * 2 ^ 28 + n) / 2 ^ 28) with g.
    + unfold g. destruct compressed; [|done].
      clearbody n. Z.div_mod_to_equations. lia.
    + symmetry. rewrite Z.add_comm, Z.div_add by lia. rewrite Z.div_small by lia. lia.
  - unfold be16. Z.div_mod_to_equations. lia.
Qed.

End HeaderFacts.

(** * Message.cpp: the constructor *)

Section MessageFacts.
Import Message.
Local Open Scope Z_scope.

Variables mtMANIFESTS mtENDPOINTS mtTRANSACTION mtGET_LEDGER : Z.
Variables mtLEDGER_DATA mtGET_OBJECTS mtVALIDATORLIST : Z.
Variable Algorithm_LZ4 : Z.
Variable compress : list Z → list Z.
Variable NDEBUG : bool.

Local Abbreviation compressible :=
  (Message.compressible mtMANIFESTS mtENDPOINTS mtTRANSACTION mtGET_LEDGER
     mtLEDGER_DATA mtGET_OBJECTS mtVALIDATORLIST).
Local Abbreviation Message_ :=
  (Message.Message_ mtMANIFESTS mtENDPOINTS mtTRANSACTION mtGET_LEDGER
     mtLEDGER_DATA mtGET_OBJECTS mtVALIDATORLIST Algorithm_LZ4 compress NDEBUG).

(** The message types that may be compressed. *)
Definition compressible_types : list Z :=
  [mtMANIFESTS; mtENDPOINTS; mtTRANSACTION; mtGET_LEDGER; mtLEDGER_DATA;
   mtGET_OBJECTS; mtVALIDATORLIST].

Lemma compressible_spec compression_enabled type messageBytes :
  compressible compression_enabled type messageBytes = true ↔
  compression_enabled = true ∧ type ∈ compressible_types ∧ 70 < messageBytes.
Proof.
  unfold Message.compressible, compressible_types.
  rewrite !andb_true_iff, !orb_true_iff, !Z.eqb_eq, Z.ltb_lt, !elem_of_cons, elem_of_nil.
  tauto.
Qed.

(** What the constructor leaves in the two buffers, for sizes that fit the
    type [unsigned] of [messageBytes] and [compressedSize]. *)
Lemma Message_buffers message type compression_enabled msg :
  let messageBytes := Z.of_nat (length message) in
  let compressedSize := Z.of_nat (length (compress message)) in
  messageBytes < 2 ^ 32 → compressedSize < 2 ^ 32 →
  Message_ message type compression_enabled = Some msg →
  mBuffer msg = set_header messageBytes type false Algorithm_LZ4 ++ message ∧
  mBufferCompressed msg =
    if compressible compression_enabled type messageBytes && (compressedSize <? messageBytes)
    then set_header compressedSize type true Algorithm_LZ4 ++ compress message
    else [].
Proof.
  intros messageBytes compressedSize Hm Hc. unfold Message.Message_.
  fold messageBytes. fold compressedSize.
  destruct (negb NDEBUG && (messageBytes =? 0)); [done|].
  intros [= <-]. cbn [mBuffer mBufferCompressed]. split; [done|].
  destruct (compressible _ _ _) eqn:Hcomp; [|done].
  apply compressible_spec in Hcomp as (_ & _ & H70). cbn [andb].
  rewrite ratio_positive_lt; [done| |].
  - assert (2 ^ 32 < 2 ^ 53) by (apply Z.pow_lt_mono_r; lia). unfold compressedSize. lia.
  - assert (2 ^ 32 < 2 ^ 53) by (apply Z.pow_lt_mono_r; lia). lia.
Qed.

(** C8. A message that the constructor builds has a compressed form only
    if compression is enabled, its type is one of MANIFESTS, ENDPOINTS,
    TRANSACTION, GET_LEDGER, LEDGER_DATA, GET_OBJECTS and VALIDATORLIST, its
    payload is longer than 70 bytes, and the compressed payload is strictly
    shorter than the payload; the compressed buffer is then the header of
    the compressed payload followed by it.  In every other case the
    compressed buffer is empty.  The uncompressed envelope is always in
    [mBuffer]. *)
Theorem Message_compressed_only_when_smaller message type compression_enabled msg :
  let messageBytes := Z.of_nat (length message) in
  let compressedSize := Z.of_nat (length (compress message)) in
  messageBytes < 2 ^ 32 → compressedSize < 2 ^ 32 →
  Message_ message type compression_enabled = Some msg →
  mBuffer msg = set_header messageBytes type false Algorithm_LZ4 ++ message ∧
  ((compression_enabled = true ∧ type ∈ compressible_types ∧ 70 < messageBytes ∧
    compressedSize < messageBytes ∧
    mBufferCompressed msg =
      set_header compressedSize type true Algorithm_LZ4 ++ compress message ∧
    mBufferCompressed msg ≠ [])
   ∨
   (¬ (compression_enabled = true ∧ type ∈ compressible_types ∧ 70 < messageBytes ∧
       compressedSize < messageBytes) ∧
    mBufferCompressed msg = [])).
Proof.
  intros messageBytes compressedSize Hm Hc Hmsg.
  destruct (Message_buffers message type compression_enabled msg Hm Hc Hmsg) as [Hb Hz].
  fold messageBytes compressedSize in Hz. split; [done|].
  destruct (compressible _ _ _) eqn:Hcomp.
  - apply compressible_spec in Hcomp as (He & Ht & H70). cbn [andb] in Hz.
    destruct (compressedSize <? messageBytes) eqn:Hlt.
    + apply Z.ltb_lt in Hlt. left. split_and!; try done. by rewrite Hz.
    + apply Z.ltb_ge in Hlt. right. split; [|done]. intros (_ & _ & _ & ?). lia.
  - right. split; [|done]. intros (He & Ht & H70 & _).
    assert (compressible compression_enabled type messageBytes = true) as Habs
      by (by apply compressible_spec).
    congruence.
Qed.


End MessageFacts.

(** * Message.cpp: the properties on the example message *)

Section MessageOnExamples.
Import Message MessageExamples.
Local Open Scope Z_scope.

Lemma transaction_message_built :
  Message_ transaction mtTRANSACTION true = Some transaction_message.
Proof. vm_compute. reflexivity. Qed.

Lemma Message_compressed_only_when_smaller_witness :
  mBuffer transaction_message =
    set_header 100 mtTRANSACTION false Algorithm_LZ4 ++ transaction ∧
  ((true = true ∧
    mtTRANSACTION ∈ compressible_types mtMANIFESTS mtENDPOINTS mtTRANSACTION
      mtGET_LEDGER mtLEDGER_DATA mtGET_OBJECTS mtVALIDATORLIST ∧
    70 < 100 ∧ 2 < 100 ∧
    mBufferCompressed transaction_message =
      set_header 2 mtTRANSACTION true Algorithm_LZ4 ++ run_length transaction ∧
    mBufferCompressed transaction_message ≠ [])
   ∨
   (¬ (true = true ∧
       mtTRANSACTION ∈ compressible_types mtMANIFESTS mtENDPOINTS mtTRANSACTION
         mtGET_LEDGER mtLEDGER_DATA mtGET_OBJECTS mtVALIDATORLIST ∧
       70 < 100 ∧ 2 < 100) ∧
    mBufferCompressed transaction_message = [])).
Proof.
  apply (Message_compressed_only_when_smaller mtMANIFESTS mtENDPOINTS mtTRANSACTION
           mtGET_LEDGER mtLEDGER_DATA mtGET_OBJECTS mtVALIDATORLIST Algorithm_LZ4
           run_length false transaction mtTRANSACTION true transaction_message);
    [reflexivity|reflexivity|vm_compute; reflexivity].
Defined.





End MessageOnExamples.

(** * LedgerHistory.cpp: the ledger cache and the index *)

Section LedgerHistoryLookups.
Import LedgerHistory.

Variable NDEBUG : bool.
Variable loadByHash : LedgerHash → option Ledger.
Variable loadByIndex : LedgerIndex → option Ledger.

Local Abbreviation insert := (LedgerHistory.insert NDEBUG).
Local Abbreviation assert := (LedgerHistory.assert NDEBUG).
Local Abbreviation getLedgerByHash := (LedgerHistory.getLedgerByHash NDEBUG loadByHash).
Local Abbreviation getLedgerBySeq := (LedgerHistory.getLedgerBySeq NDEBUG loadByHash loadByIndex).

(** ** getLedgerByHash, case by case *)

Lemma assert_returns e st u st' :
  assert e st = Returns u st' → st' = st ∧ (NDEBUG = true ∨ e = true).
Proof.
  unfold LedgerHistory.assert. destruct NDEBUG, e; cbn; intros [= <-] || intros [=]; auto.
Qed.

Lemma getLedgerByHash_hit h l st :
  ledgerCache_ st !! h = Some l →
  (NDEBUG = false → isImmutable l = true ∧ hash (info l) = h) →
  getLedgerByHash h st = Returns (Some l) st.
Proof.
  intros Hc Hok. unfold LedgerHistory.getLedgerByHash, bind, get, fetch. rewrite Hc.
  rewrite (assert_holds NDEBUG) by (intros; by apply Hok).
  rewrite (assert_holds NDEBUG); [done|].
  intros. apply bool_decide_eq_true. by apply Hok.
Qed.

Lemma getLedgerByHash_unknown h st :
  ledgerCache_ st !! h = None → loadByHash h = None →
  getLedgerByHash h st = Returns None st.
Proof.
  intros Hc Hl. unfold LedgerHistory.getLedgerByHash, bind, get, fetch. by rewrite Hc, Hl.
Qed.

(** The state after [retrieve_or_insert] of [l] in the ledger cache. *)
Definition retrieved (l : Ledger) (st : State) : State :=
  set_ledgerCache (λ c, match c !! hash (info l) with
                        | Some _ => c
                        | None => <[hash (info l) := l]> c
                        end) st.

Lemma retrieved_cached l l' st :
  ledgerCache_ st !! hash (info l) = Some l' → retrieved l st = st.
Proof. intros Hc. destruct st. unfold retrieved, set_ledgerCache. cbn in *. by rewrite Hc. Qed.

Lemma getLedgerByHash_load h l st :
  ledgerCache_ st !! h = None → loadByHash h = Some l →
  (NDEBUG = false → isImmutable l = true ∧ hash (info l) = h) →
  getLedgerByHash h st =
    Returns (Some (default l (ledgerCache_ st !! hash (info l)))) (retrieved l st).
Proof.
  intros Hc Hl Hok. unfold LedgerHistory.getLedgerByHash, bind, get, fetch. rewrite Hc, Hl.
  rewrite (assert_holds NDEBUG) by (intros; by apply Hok).
  rewrite (assert_holds NDEBUG) by (intros; apply bool_decide_eq_true; by apply Hok).
  rewrite cache_retrieve_or_insert_run. fold (retrieved l st).
  rewrite (assert_holds NDEBUG); [done|].
  intros Hd. apply bool_decide_eq_true. destruct (Hok Hd) as [_ Hh].
  rewrite Hh, Hc. done.
Qed.

(** What a call that returns has checked. *)
Lemma getLedgerByHash_returns h st r st' :
  getLedgerByHash h st = Returns r st' →
  match ledgerCache_ st !! h, loadByHash h with
  | Some l, _ =>
      r = Some l ∧ st' = st ∧ (NDEBUG = false → isImmutable l = true ∧ hash (info l) = h)
  | None, None => r = None ∧ st' = st
  | None, Some l =>
      r = Some (default l (ledgerCache_ st !! hash (info l))) ∧ st' = retrieved l st ∧
      (NDEBUG = false → isImmutable l = true ∧ hash (info l) = h)
  end.
Proof.
  unfold LedgerHistory.getLedgerByHash, bind, get, fetch.
  destruct (ledgerCache_ st !! h) as [l|] eqn:Hc.
  - destruct (assert (isImmutable l) st) as [u st1|] eqn:H1; [|done].
    apply assert_returns in H1 as [-> H1].
    destruct (assert (bool_decide (hash (info l) = h)) st) as [u' st1|] eqn:H2; [|done].
    apply assert_returns in H2 as [-> H2]. intros [= <- <-]. split_and!; try done.
    intros Hd. destruct H1 as [?|H1], H2 as [?|H2]; try congruence.
    by apply bool_decide_eq_true in H2.
  - destruct (loadByHash h) as [l|]; [|by intros [= <- <-]].
    destruct (assert (isImmutable l) st) as [u st1|] eqn:H1; [|done].
    apply assert_returns in H1 as [-> H1].
    destruct (assert (bool_decide (hash (info l) = h)) st) as [u' st1|] eqn:H2; [|done].
    apply assert_returns in H2 as [-> H2].
    rewrite cache_retrieve_or_insert_run. fold (retrieved l st).
    destruct (assert _ (retrieved l st)) as [u'' st1|] eqn:H3; [|done].
    apply assert_returns in H3 as [-> H3]. intros [= <- <-]. split_and!; try done.
    intros Hd. destruct H1 as [?|H1], H2 as [?|H2]; try congruence.
    by apply bool_decide_eq_true in H2.
Qed.

(** A second call of [getLedgerByHash] finds what the first has left. *)
Lemma getLedgerByHash_rerun h st r st' :
  getLedgerByHash h st = Returns r st' →
  getLedgerByHash h st' = Returns r st' ∧
  mLedgersByIndex st' = mLedgersByIndex st.
Proof.
  intros Hrun. pose proof (getLedgerByHash_returns _ _ _ _ Hrun) as Hcase.
  destruct (ledgerCache_ st !! h) as [l0|] eqn:Hc.
  { destruct Hcase as (-> & -> & _). done. }
  destruct (loadByHash h) as [l|] eqn:Hl.
  2:{ destruct Hcase as (-> & ->). done. }
  destruct Hcase as (-> & -> & Hok). split; [|done].
  destruct (decide (hash (info l) = h)) as [Hh|Hh].
  - rewrite Hh, Hc. cbn [default]. apply getLedgerByHash_hit.
    + unfold retrieved. cbn. rewrite Hh, Hc. by rewrite lookup_insert_eq.
    + done.
  - assert (Hn : NDEBUG = true).
    { destruct NDEBUG; [done|]. by destruct Hok. }
    assert (Hc' : ledgerCache_ (retrieved l st) !! hash (info l) =
                  Some (default l (ledgerCache_ st !! hash (info l)))).
    { unfold retrieved. cbn. destruct (ledgerCache_ st !! hash (info l)) eqn:E; cbn.
      - done.
      - by rewrite lookup_insert_eq. }
    rewrite getLedgerByHash_load with (l := l).
    + rewrite Hc'. cbn [default]. by rewrite (retrieved_cached _ _ _ Hc').
    + unfold retrieved. cbn. destruct (ledgerCache_ st !! hash (info l)); [done|].
      by rewrite lookup_insert_ne.
    + done.
    + congruence.
Qed.

(** X1. [getLedgerByHash] is idempotent: a call that returns leaves the
    object in a state in which the same call returns the same result and
    changes nothing, whether the ledger was found in the cache, loaded, or
    not found at all. *)
Theorem getLedgerByHash_again h st r st' :
  getLedgerByHash h st = Returns r st' →
  getLedgerByHash h st' = Returns r st'.
Proof.
  intros Hrun. destruct (getLedgerByHash_rerun h st r st' Hrun) as [Hagain _].
  exact Hagain.
Qed.

(** X2. In a build with assertions, a ledger that [getLedgerByHash] returns
    has the hash that was asked for, is immutable, and is in the cache under
    that hash when the call returns; the call removes nothing from the
    cache. *)
Theorem getLedgerByHash_result h st l st' :
  NDEBUG = false →
  getLedgerByHash h st = Returns (Some l) st' →
  hash (info l) = h ∧ isImmutable l = true ∧
  ledgerCache_ st' !! h = Some l ∧
  ledgerCache_ st ⊆ ledgerCache_ st'.
Proof.
  intros Hd Hrun. pose proof (getLedgerByHash_returns _ _ _ _ Hrun) as Hcase.
  destruct (ledgerCache_ st !! h) as [l0|] eqn:Hc.
  { destruct Hcase as ([= ->] & -> & Hok). destruct (Hok Hd). done. }
  destruct (loadByHash h) as [l1|] eqn:Hl; [|by destruct Hcase].
  destruct Hcase as ([= ->] & -> & Hok). destruct (Hok Hd) as [Hi Hh].
  unfold retrieved. cbn. rewrite Hh, Hc. cbn. rewrite lookup_insert_eq.
  split_and!; try done. by apply insert_subseteq.
Qed.

(** ** insert and the lookups *)

(** X3. A ledger that [insert] has stored is what [getLedgerByHash] returns
    for its hash, from the cache: the state does not change and the result
    does not depend on the ledger store. *)
Theorem insert_then_getLedgerByHash ledger validated st :
  isImmutable ledger = true →
  NDEBUG = true ∨ stateMap_getHash ledger ≠ 0%N →
  ∃ alreadyHad st1,
    insert ledger validated st = Returns alreadyHad st1 ∧
    getLedgerByHash (hash (info ledger)) st1 = Returns (Some ledger) st1.
Proof.
  intros Hi Hs. rewrite (insert_returns NDEBUG) by done. do 2 eexists. split; [done|].
  apply getLedgerByHash_hit; [|done].
  unfold inserted. destruct validated; cbn; by rewrite lookup_insert_eq.
Qed.

Local Abbreviation getLedgerHash := LedgerHistory.getLedgerHash.

(** X4. After [insert] of a validated ledger, [getLedgerHash] of its
    sequence is its hash and [getLedgerBySeq] of its sequence returns the
    ledger, neither changing the state; the answers for every other sequence
    are as before.  After [insert] of a ledger that is not validated,
    [getLedgerHash] answers as before for every sequence. *)
Theorem insert_then_lookup_by_sequence ledger validated st :
  isImmutable ledger = true →
  NDEBUG = true ∨ stateMap_getHash ledger ≠ 0%N →
  ∃ alreadyHad st1,
    insert ledger validated st = Returns alreadyHad st1 ∧
    (validated = true →
       getLedgerHash (seq (info ledger)) st1 = Returns (hash (info ledger)) st1 ∧
       getLedgerBySeq (seq (info ledger)) st1 = Returns (Some ledger) st1 ∧
       ∀ index, index ≠ seq (info ledger) →
         ∃ h, getLedgerHash index st = Returns h st ∧ getLedgerHash index st1 = Returns h st1) ∧
    (validated = false →
       ∀ index,
         ∃ h, getLedgerHash index st = Returns h st ∧ getLedgerHash index st1 = Returns h st1).
Proof.
  intros Hi Hs. rewrite (insert_returns NDEBUG) by done. do 2 eexists. split; [done|].
  split; intros ->; unfold inserted.
  - split_and!.
    + unfold LedgerHistory.getLedgerHash, bind, get. cbn. by rewrite lookup_insert_eq.
    + unfold LedgerHistory.getLedgerBySeq, bind, get. cbn. rewrite lookup_insert_eq.
      apply getLedgerByHash_hit; [|done]. cbn. by rewrite lookup_insert_eq.
    + intros index Hne. unfold LedgerHistory.getLedgerHash, bind, get. cbn.
      rewrite lookup_insert_ne by done.
      destruct (mLedgersByIndex st !! index); eauto.
  - intros index. unfold LedgerHistory.getLedgerHash, bind, get. cbn.
    destruct (mLedgersByIndex st !! index); eauto.
Qed.

(** X5. [insert] is idempotent: after an [insert] that returns, the same
    call returns [true] (the cache had the ledger) and changes nothing. *)
Theorem insert_twice ledger validated st alreadyHad st1 :
  insert ledger validated st = Returns alreadyHad st1 →
  insert ledger validated st1 = Returns true st1.
Proof.
  intros Hrun.
  destruct (isImmutable ledger) eqn:Hi.
  2:{ by rewrite (insert_mutable NDEBUG) in Hrun. }
  assert (Hs : NDEBUG = true ∨ stateMap_getHash ledger ≠ 0%N).
  { destruct NDEBUG eqn:Hd; [by left|right]. intros Hz.
    by rewrite (insert_assertion _ ledger validated st Hi eq_refl Hz) in Hrun. }
  rewrite (insert_returns NDEBUG) in Hrun by done. injection Hrun as <- <-.
  rewrite (insert_returns NDEBUG) by done. f_equal.
  - apply bool_decide_eq_true. unfold inserted.
    destruct validated; cbn; rewrite lookup_insert_eq; eauto.
  - destruct st as [n c cv m j cs]. unfold inserted, set_ledgerCache, set_ledgersByIndex.
    destruct validated; cbn; by rewrite ?insert_insert_eq.
Qed.

(** ** getLedgerBySeq *)

(** Every ledger of the cache is stored under its own hash and, in a build
    with assertions, is immutable. *)
Definition cache_ok (st : State) : Prop :=
  ∀ h l, ledgerCache_ st !! h = Some l →
         hash (info l) = h ∧ (NDEBUG = false → isImmutable l = true).

(** The state after the second half of [getLedgerBySeq]. *)
Definition indexed (l : Ledger) (st : State) : State :=
  set_ledgersByIndex
    (λ m, <[seq (info (default l (ledgerCache_ st !! hash (info l)))) :=
              hash (info (default l (ledgerCache_ st !! hash (info l))))]> m)
    (retrieved l st).

Lemma getLedgerBySeq_returns index st r st' :
  getLedgerBySeq index st = Returns r st' →
  match mLedgersByIndex st !! index, loadByIndex index with
  | Some h, _ => getLedgerByHash h st = Returns r st'
  | None, None => r = None ∧ st' = st
  | None, Some l =>
      let l' := default l (ledgerCache_ st !! hash (info l)) in
      r = (if bool_decide (seq (info l') = index) then Some l' else None) ∧
      st' = indexed l st ∧
      (NDEBUG = false → seq (info l) = index ∧ isImmutable l = true)
  end.
Proof.
  unfold LedgerHistory.getLedgerBySeq, bind, get.
  destruct (mLedgersByIndex st !! index) as [h|] eqn:Hm; [done|].
  destruct (loadByIndex index) as [l|]; [|by intros [= <- <-]].
  destruct (assert (bool_decide (seq (info l) = index)) st) as [u st1|] eqn:H1; [|done].
  apply assert_returns in H1 as [-> H1].
  destruct (assert (isImmutable l) st) as [u' st1|] eqn:H2; [|done].
  apply assert_returns in H2 as [-> H2].
  rewrite cache_retrieve_or_insert_run. fold (retrieved l st). unfold modify, ret.
  intros [= <- <-]. split_and!; try done.
  intros Hd. destruct H1 as [?|H1], H2 as [?|H2]; try congruence.
  by apply bool_decide_eq_true in H1.
Qed.

Lemma set_ledgersByIndex_again k v st :
  mLedgersByIndex st !! k = Some v →
  set_ledgersByIndex (λ m, <[k := v]> m) st = st.
Proof.
  intros Hm. destruct st. unfold set_ledgersByIndex. cbn in *. by rewrite insert_id.
Qed.

(** X6. [getLedgerBySeq] is idempotent on an object whose cache holds every
    ledger under its own hash: after a call that returns, the same call
    returns the same result and changes nothing.  In particular a ledger
    that was loaded by its sequence is answered from the index and the cache
    the next time. *)
Theorem getLedgerBySeq_again index st r st' :
  cache_ok st →
  getLedgerBySeq index st = Returns r st' →
  getLedgerBySeq index st' = Returns r st'.
Proof.
  intros Hok Hrun. pose proof (getLedgerBySeq_returns _ _ _ _ Hrun) as Hcase.
  destruct (mLedgersByIndex st !! index) as [h|] eqn:Hm.
  { destruct (getLedgerByHash_rerun _ _ _ _ Hcase) as [Hagain Hidx].
    unfold LedgerHistory.getLedgerBySeq, bind, get. by rewrite Hidx, Hm. }
  destruct (loadByIndex index) as [l|] eqn:Hl.
  2:{ destruct Hcase as (-> & ->). done. }
  cbn zeta in Hcase. destruct Hcase as (-> & -> & Hchk).
  set (l' := default l (ledgerCache_ st !! hash (info l))).
  assert (Hc' : ledgerCache_ (indexed l st) !! hash (info l) = Some l').
  { unfold indexed, retrieved, l'. cbn.
    destruct (ledgerCache_ st !! hash (info l)) eqn:E; cbn; [done|].
    by rewrite lookup_insert_eq. }
  assert (Hl' : hash (info l') = hash (info l) ∧ (NDEBUG = false → isImmutable l' = true)).
  { unfold l'. destruct (ledgerCache_ st !! hash (info l)) as [l0|] eqn:E; cbn.
    - apply (Hok _ _ E).
    - split; [done|]. intros Hd. by apply Hchk. }
  destruct Hl' as [Hh Hi].
  assert (Hm' : mLedgersByIndex (indexed l st) !! seq (info l') = Some (hash (info l'))).
  { unfold indexed. cbn. fold l'. by rewrite lookup_insert_eq. }
  case_bool_decide as Hseq; fold l' in Hseq.
  - unfold LedgerHistory.getLedgerBySeq, bind, get. cbn beta. rewrite <- Hseq, Hm'.
    rewrite bool_decide_eq_true_2 by done.
    apply getLedgerByHash_hit; [by rewrite Hh|]. intros Hd. split; [by apply Hi|done].
  - unfold LedgerHistory.getLedgerBySeq, bind, get. cbn beta.
    assert (Hmi : mLedgersByIndex (indexed l st) !! index = None).
    { unfold indexed. cbn. fold l'. by rewrite lookup_insert_ne. }
    rewrite Hmi, Hl.
    rewrite (assert_holds NDEBUG)
      by (intros Hd; apply bool_decide_eq_true; by apply Hchk).
    rewrite (assert_holds NDEBUG) by (intros Hd; by apply Hchk).
    rewrite cache_retrieve_or_insert_run. rewrite Hc'. cbn [default].
    fold (retrieved l (indexed l st)). rewrite (retrieved_cached _ _ _ Hc').
    unfold modify, ret, id. rewrite (set_ledgersByIndex_again _ _ _ Hm').
    by rewrite bool_decide_eq_false_2.
Qed.

(** ** fixIndex *)

Local Abbreviation fixIndex := LedgerHistory.fixIndex.

(** X7. [fixIndex] always returns.  It returns [false] exactly when the
    index was bound to another hash.  Afterwards an index that was bound is
    bound to the given hash, and one that was not bound is still not bound:
    the function never adds an index.  No other index and no cached ledger
    changes, and a second call with the same arguments returns [true] and
    changes nothing. *)
Theorem fixIndex_rebinds ledgerIndex ledgerHash st :
  ∃ r st',
    fixIndex ledgerIndex ledgerHash st = Returns r st' ∧
    (r = false ↔ ∃ h, mLedgersByIndex st !! ledgerIndex = Some h ∧ h ≠ ledgerHash) ∧
    mLedgersByIndex st' !! ledgerIndex =
      (λ _, ledgerHash) <$> mLedgersByIndex st !! ledgerIndex ∧
    (∀ index, index ≠ ledgerIndex →
       mLedgersByIndex st' !! index = mLedgersByIndex st !! index) ∧
    ledgerCache_ st' = ledgerCache_ st ∧
    fixIndex ledgerIndex ledgerHash st' = Returns true st'.
Proof.
  unfold LedgerHistory.fixIndex, bind, get, modify, ret. cbn beta.
  destruct (mLedgersByIndex st !! ledgerIndex) as [h|] eqn:Hm.
  - case_bool_decide as Hh.
    + do 2 eexists. split; [done|]. cbn. rewrite lookup_insert_eq.
      rewrite bool_decide_eq_false_2 by (intros Hne; by apply Hne).
      split_and!; try done.
      * split; [eauto|done].
      * intros index Hne. by rewrite lookup_insert_ne.
    + subst h. do 2 eexists. split; [done|]. rewrite Hm.
      rewrite bool_decide_eq_false_2 by (intros Hne; by apply Hne).
      split_and!; try done. split; [done|]. intros (h' & [= <-] & Hne). done.
  - do 2 eexists. split; [done|]. rewrite Hm. split_and!; try done.
    split; [done|]. intros (h' & [=] & _).
Qed.

(** ** clearLedgerCachePrior *)

Local Abbreviation clearLedgerCachePrior := LedgerHistory.clearLedgerCachePrior.

Lemma clearLedgerCachePrior_run seq_ st :
  ∃ st',
    clearLedgerCachePrior seq_ st = Returns tt st' ∧
    (∀ h l, ledgerCache_ st' !! h = Some l ↔
            ledgerCache_ st !! h = Some l ∧ (seq_ ≤ seq (info l))%N) ∧
    mLedgersByIndex st' = mLedgersByIndex st ∧
    consensusValidated_ st' = consensusValidated_ st.
Proof.
  eexists. split; [reflexivity|]. cbn. split_and!; try done.
  intros h l. unfold erase_if. rewrite map_lookup_filter_Some. cbn.
  rewrite N.ltb_ge. done.
Qed.

(** X8. The index outlives the cache.  A validated ledger is inserted and
    then [clearLedgerCachePrior] is called with a larger sequence: the ledger
    is gone from the cache, and yet [getLedgerHash] still answers its hash
    for its sequence; [getLedgerBySeq] for that sequence then depends on the
    ledger store, and returns nothing when the store does not have the
    hash. *)
Theorem cleared_ledger_stays_indexed ledger seq_ st :
  isImmutable ledger = true →
  NDEBUG = true ∨ stateMap_getHash ledger ≠ 0%N →
  (seq (info ledger) < seq_)%N →
  ∃ alreadyHad st1 st2,
    insert ledger true st = Returns alreadyHad st1 ∧
    clearLedgerCachePrior seq_ st1 = Returns tt st2 ∧
    ledgerCache_ st2 !! hash (info ledger) = None ∧
    getLedgerHash (seq (info ledger)) st2 = Returns (hash (info ledger)) st2 ∧
    getLedgerBySeq (seq (info ledger)) st2 = getLedgerByHash (hash (info ledger)) st2 ∧
    (loadByHash (hash (info ledger)) = None →
       getLedgerBySeq (seq (info ledger)) st2 = Returns None st2).
Proof.
  intros Hi Hs Hlt. rewrite (insert_returns NDEBUG) by done.
  destruct (clearLedgerCachePrior_run seq_ (inserted ledger true st))
    as (st2 & Hrun & Hc & Hm & _).
  exists (bool_decide (is_Some (ledgerCache_ st !! hash (info ledger)))),
         (inserted ledger true st), st2.
  assert (Hgone : ledgerCache_ st2 !! hash (info ledger) = None).
  { destruct (ledgerCache_ st2 !! hash (info ledger)) as [l|] eqn:E; [|done].
    apply Hc in E as [E Hle]. unfold inserted in E. cbn in E.
    rewrite lookup_insert_eq in E. injection E as <-. lia. }
  assert (Hidx : mLedgersByIndex st2 !! seq (info ledger) = Some (hash (info ledger))).
  { rewrite Hm. unfold inserted. cbn. by rewrite lookup_insert_eq. }
  assert (Hseq : getLedgerBySeq (seq (info ledger)) st2 =
                 getLedgerByHash (hash (info ledger)) st2).
  { unfold LedgerHistory.getLedgerBySeq, bind, get. cbn beta. by rewrite Hidx. }
  split_and!; try done.
  - unfold LedgerHistory.getLedgerHash, bind, get. cbn beta. by rewrite Hidx.
  - intros Hl. rewrite Hseq. by apply getLedgerByHash_unknown.
Qed.

End LedgerHistoryLookups.

(** * LedgerHistory.cpp: what every call keeps *)

Section LedgerHistoryInvariants.
Import LedgerHistory.

Variable NDEBUG : bool.
Variable loadByHash : LedgerHash → option Ledger.
Variable loadByIndex : LedgerIndex → option Ledger.
Variable txRead : Ledger → uint256 → option STObject.

Local Abbreviation insert := (LedgerHistory.insert NDEBUG).
Local Abbreviation assert := (LedgerHistory.assert NDEBUG).
Local Abbreviation getLedgerByHash := (LedgerHistory.getLedgerByHash NDEBUG loadByHash).
Local Abbreviation getLedgerBySeq := (LedgerHistory.getLedgerBySeq NDEBUG loadByHash loadByIndex).
Local Abbreviation log_metadata_difference :=
  (LedgerHistory.log_metadata_difference NDEBUG txRead).
Local Abbreviation log_differences := (LedgerHistory.log_differences NDEBUG txRead).
Local Abbreviation compare_transactions := (LedgerHistory.compare_transactions NDEBUG txRead).
Local Abbreviation handleMismatch := (LedgerHistory.handleMismatch NDEBUG loadByHash txRead).
Local Abbreviation builtLedger := (LedgerHistory.builtLedger NDEBUG loadByHash txRead).
Local Abbreviation validatedLedger := (LedgerHistory.validatedLedger NDEBUG loadByHash txRead).
Local Abbreviation step := (LedgerHistory.step NDEBUG loadByHash txRead).
Local Abbreviation run_events := (LedgerHistory.run_events NDEBUG loadByHash txRead).
Local Abbreviation perform := (LedgerHistory.perform NDEBUG loadByHash loadByIndex txRead).
Local Abbreviation perform_all :=
  (LedgerHistory.perform_all NDEBUG loadByHash loadByIndex txRead).

(** ** A property of the state that a function keeps, however it ends *)

Definition preserves (P : State → Prop) {A} (m : M A) : Prop :=
  ∀ st, P st → P (final (m st)).

Section Preserves.
Variable P : State → Prop.

Lemma preserves_ret {A} (a : A) : preserves P (ret a).
Proof. by intros st. Qed.

Lemma preserves_abort {A} why : preserves P (@abort A why).
Proof. by intros st. Qed.

Lemma preserves_get {A} (f : State → A) : preserves P (get f).
Proof. by intros st. Qed.

Lemma preserves_modify f : (∀ st, P st → P (f st)) → preserves P (modify f).
Proof. intros Hf st HP. by apply Hf. Qed.

Lemma preserves_bind {A B} (m : M A) (k : A → M B) :
  preserves P m → (∀ a, preserves P (k a)) → preserves P (bind m k).
Proof.
  intros Hm Hk st HP. unfold bind. specialize (Hm st HP).
  destruct (m st) as [a st1|]; cbn in *; [by apply Hk|done].
Qed.

Lemma preserves_assert e : preserves P (assert e).
Proof. intros st HP. unfold LedgerHistory.assert. by destruct (NDEBUG || e). Qed.

(** What follows an assertion runs only if the assertion holds or is
    compiled out. *)
Lemma preserves_asserted e {A} (k : M A) :
  (NDEBUG = true ∨ e = true → preserves P k) → preserves P (assert e >> k).
Proof.
  intros Hk st HP. unfold bind, LedgerHistory.assert.
  destruct NDEBUG eqn:Hd; cbn; [apply Hk; auto|].
  destruct e; cbn; [apply Hk; auto|done].
Qed.

Lemma preserves_when b m : preserves P m → preserves P (when b m).
Proof. intros Hm. destruct b; [done|apply preserves_ret]. Qed.

Lemma preserves_for_each {A} (l : list A) body :
  (∀ x, preserves P (body x)) → preserves P (for_each l body).
Proof.
  intros Hb. induction l as [|x l IH]; [apply preserves_ret|].
  cbn. apply preserves_bind; [apply Hb|]. intros _. apply IH.
Qed.

(** *** The functions that only write to the journal *)

Hypothesis P_journal : ∀ f st, P st → P (set_journal f st).

Lemma preserves_JLOG sev m : preserves P (JLOG sev m).
Proof using P_journal. apply preserves_modify. intros. by apply P_journal. Qed.

Ltac preserves_step :=
  first
    [ apply preserves_ret | apply preserves_abort | apply preserves_get
    | apply preserves_assert | apply preserves_JLOG
    | apply preserves_bind; [|intros ?]
    | apply preserves_when ].

Lemma preserves_log_one l tx msg : preserves P (log_one txRead l tx msg).
Proof using P_journal. unfold log_one. destruct (txRead l tx); repeat preserves_step. Qed.

Lemma preserves_log_metadata_difference b v tx :
  preserves P (log_metadata_difference b v tx).
Proof using P_journal.
  unfold LedgerHistory.log_metadata_difference.
  apply preserves_bind; [apply preserves_assert|]. intros _.
  destruct (getMeta txRead v tx), (getMeta txRead b tx);
    repeat (repeat preserves_step; try case_match).
Qed.

Lemma preserves_log_differences bl vl b v : preserves P (log_differences bl vl b v).
Proof using P_journal.
  revert v. induction b as [|ib b IHb]; intros v; [apply preserves_ret|].
  induction v as [|iv v IHv]; [apply preserves_ret|].
  cbn [LedgerHistory.log_differences]. repeat case_match.
  - apply preserves_bind; [apply preserves_log_one|]. intros _. apply IHb.
  - apply preserves_bind; [apply preserves_log_one|]. intros _. apply IHv.
  - apply preserves_bind; [|intros _; apply IHb].
    apply preserves_when, preserves_log_metadata_difference.
Qed.

Lemma preserves_compare_transactions bc vc bl vl :
  preserves P (compare_transactions bc vc bl vl).
Proof using P_journal.
  unfold LedgerHistory.compare_transactions.
  repeat (repeat preserves_step; try case_match).
  - apply preserves_log_differences.
  - apply preserves_for_each. intros; apply preserves_log_one.
  - apply preserves_for_each. intros; apply preserves_log_one.
Qed.

(** *** The functions that load ledgers *)

Hypothesis P_retrieve :
  ∀ l st, (NDEBUG = false → isImmutable l = true) → P st → P (retrieved l st).

Lemma preserves_cache_retrieve_or_insert l :
  (NDEBUG = false → isImmutable l = true) →
  preserves P (cache_retrieve_or_insert l).
Proof using P_retrieve.
  intros Hi st HP. rewrite cache_retrieve_or_insert_run. by apply P_retrieve.
Qed.

Lemma asserted_in_build e : NDEBUG = true ∨ e = true → NDEBUG = false → e = true.
Proof. intros [H|H] Hd; [congruence|done]. Qed.

Lemma preserves_getLedgerByHash h : preserves P (getLedgerByHash h).
Proof using P_journal P_retrieve.
  unfold LedgerHistory.getLedgerByHash.
  apply preserves_bind; [apply preserves_get|]. intros [l|].
  - repeat preserves_step.
  - destruct (loadByHash h) as [l|]; [|apply preserves_ret].
    apply preserves_asserted. intros Hi.
    apply preserves_bind; [apply preserves_assert|]. intros _.
    apply preserves_bind; [|intros ?; repeat preserves_step].
    apply preserves_cache_retrieve_or_insert. by apply asserted_in_build.
Qed.

Hypothesis P_counter : ∀ f st, P st → P (set_counter f st).
Hypothesis P_calls : ∀ f st, P st → P (set_calls f st).

Lemma preserves_handleMismatch b v bc vc c : preserves P (handleMismatch b v bc vc c).
Proof using P_journal P_retrieve P_counter P_calls.
  unfold LedgerHistory.handleMismatch.
  apply preserves_bind; [apply preserves_modify; intros; by apply P_calls|]. intros _.
  apply preserves_bind; [apply preserves_assert|]. intros _.
  apply preserves_bind; [apply preserves_modify; intros; by apply P_counter|]. intros _.
  apply preserves_bind; [apply preserves_getLedgerByHash|]. intros bl.
  apply preserves_bind; [apply preserves_getLedgerByHash|]. intros vl.
  destruct bl as [bl|], vl as [vl|]; try (repeat preserves_step; fail).
  repeat first [apply preserves_compare_transactions | preserves_step | case_match].
Qed.

(** *** builtLedger and validatedLedger *)

Hypothesis P_cv_new :
  ∀ index st, P st →
    P (set_consensusValidated (λ c, match c !! index with
                                    | Some _ => c
                                    | None => <[index := new_cv_entry]> c
                                    end) st).
Hypothesis P_built :
  ∀ index h ch c st, P st →
    P (set_consensusValidated (alter (λ e,
         mkEntry (Some h) (validated e) (Some ch) (validatedConsensusHash e) (Some c))
         index) st).
Hypothesis P_validated :
  ∀ index h ch st, P st →
    P (set_consensusValidated (alter (λ e,
         mkEntry (built e) (Some h) (builtConsensusHash e) ch (consensus e)) index) st).

Lemma preserves_cv_retrieve_or_insert index : preserves P (cv_retrieve_or_insert index).
Proof using P_cv_new.
  intros st HP. rewrite cv_retrieve_or_insert_run. by apply P_cv_new.
Qed.

Lemma preserves_builtLedger l ch c : preserves P (builtLedger l ch c).
Proof using P_journal P_retrieve P_counter P_calls P_cv_new P_built.
  unfold LedgerHistory.builtLedger.
  apply preserves_bind; [apply preserves_assert|]. intros _.
  apply preserves_bind; [apply preserves_cv_retrieve_or_insert|]. intros entry.
  apply preserves_bind; [|intros _; apply preserves_modify; intros; by apply P_built].
  repeat first [apply preserves_handleMismatch | preserves_step | case_match].
Qed.

Lemma preserves_validatedLedger l ch : preserves P (validatedLedger l ch).
Proof using P_journal P_retrieve P_counter P_calls P_cv_new P_validated.
  unfold LedgerHistory.validatedLedger.
  apply preserves_bind; [apply preserves_assert|]. intros _.
  apply preserves_bind; [apply preserves_cv_retrieve_or_insert|]. intros entry.
  apply preserves_bind; [|intros _; apply preserves_modify; intros; by apply P_validated].
  repeat first [apply preserves_handleMismatch | preserves_step | case_match].
Qed.

Lemma preserves_step_ e : preserves P (step e).
Proof using P_journal P_retrieve P_counter P_calls P_cv_new P_built P_validated.
  destruct e; [apply preserves_builtLedger|apply preserves_validatedLedger].
Qed.

Lemma preserves_run_events evs : preserves P (run_events evs).
Proof using P_journal P_retrieve P_counter P_calls P_cv_new P_built P_validated.
  apply preserves_for_each, preserves_step_.
Qed.

(** *** The other public functions *)

Hypothesis P_inserted :
  ∀ l validated st, isImmutable l = true → P st → P (inserted l validated st).
Hypothesis P_indexed :
  ∀ l st, (NDEBUG = false → isImmutable l = true) → P st → P (indexed l st).
Hypothesis P_fixed :
  ∀ index h st, P st → P (set_ledgersByIndex (λ m, <[index := h]> m) st).
Hypothesis P_erased :
  ∀ seq_ st, P st →
    P (set_ledgerCache (erase_if (λ ledger : Ledger, (seq (info ledger) <? seq_)%N)) st).

Lemma preserves_insert l validated : preserves P (insert l validated).
Proof using P_inserted.
  intros st HP. destruct (isImmutable l) eqn:Hi.
  2:{ by rewrite (insert_mutable NDEBUG). }
  unfold LedgerHistory.insert. rewrite Hi. cbn [negb when].
  unfold bind at 1. cbn [ret]. unfold bind at 1.
  destruct (LedgerHistory.assert NDEBUG _ st) as [u st1|why st1] eqn:Ha.
  - apply (assert_returns NDEBUG) in Ha as [-> _].
    specialize (P_inserted l validated st Hi HP). revert P_inserted.
    unfold inserted, bind, insert_or_assign. destruct validated; cbn; done.
  - unfold LedgerHistory.assert in Ha. destruct (NDEBUG || _); cbn in Ha; [done|].
    by injection Ha as <- <-.
Qed.

Lemma preserves_getLedgerBySeq index : preserves P (getLedgerBySeq index).
Proof using P_journal P_retrieve P_indexed.
  unfold LedgerHistory.getLedgerBySeq.
  apply preserves_bind; [apply preserves_get|]. intros [h|].
  { apply preserves_getLedgerByHash. }
  destruct (loadByIndex index) as [l|]; [|apply preserves_ret].
  apply preserves_bind; [apply preserves_assert|]. intros _.
  apply preserves_asserted. intros Hi st HP.
  unfold bind. rewrite cache_retrieve_or_insert_run. cbn.
  apply (P_indexed l st); [by apply asserted_in_build|done].
Qed.

Lemma preserves_fixIndex index h : preserves P (fixIndex index h).
Proof using P_fixed.
  unfold fixIndex. apply preserves_bind; [apply preserves_get|]. intros [h'|].
  - case_bool_decide; [|apply preserves_ret].
    apply preserves_bind; [|intros; apply preserves_ret].
    apply preserves_modify. intros. by apply P_fixed.
  - apply preserves_ret.
Qed.

Lemma preserves_perform op : preserves P (perform op).
Proof using P_journal P_retrieve P_counter P_calls P_cv_new P_built P_validated
            P_inserted P_indexed P_fixed P_erased.
  destruct op; cbn [LedgerHistory.perform].
  - apply preserves_bind; [apply preserves_insert|intros; apply preserves_ret].
  - apply preserves_bind; [|intros; apply preserves_ret].
    unfold getLedgerHash. apply preserves_bind; [apply preserves_get|].
    intros [?|]; apply preserves_ret.
  - apply preserves_bind; [apply preserves_getLedgerBySeq|intros; apply preserves_ret].
  - apply preserves_bind; [apply preserves_getLedgerByHash|intros; apply preserves_ret].
  - apply preserves_step_.
  - apply preserves_bind; [apply preserves_fixIndex|intros; apply preserves_ret].
  - apply preserves_modify. intros. by apply P_erased.
Qed.

Lemma preserves_perform_all ops : preserves P (perform_all ops).
Proof using P_journal P_retrieve P_counter P_calls P_cv_new P_built P_validated
            P_inserted P_indexed P_fixed P_erased.
  apply preserves_for_each, preserves_perform.
Qed.

End Preserves.

(** ** The ledger cache *)

(** X9. Every public call keeps the ledger cache well formed, however it
    ends: if every cached ledger is stored under its own hash and, in a
    build with assertions, is immutable, then this still holds after any
    series of calls of [insert], [getLedgerHash], [getLedgerBySeq],
    [getLedgerByHash], [builtLedger], [validatedLedger], [fixIndex] and
    [clearLedgerCachePrior]. *)
Theorem cache_ok_invariant ops st :
  cache_ok NDEBUG st → cache_ok NDEBUG (final (perform_all ops st)).
Proof.
  apply preserves_perform_all; try (intros; assumption).
  - intros l st' Hi Hok h l'. unfold retrieved. cbn.
    destruct (ledgerCache_ st' !! hash (info l)) eqn:E; [apply Hok|].
    destruct (decide (h = hash (info l))) as [->|Hne].
    + rewrite lookup_insert_eq. intros [= <-]. done.
    + rewrite lookup_insert_ne by done. apply Hok.
  - intros l validated st' Hi Hok h l'.
    assert (ledgerCache_ (inserted l validated st') =
            <[hash (info l) := l]> (ledgerCache_ st')) as ->
      by (unfold inserted; by destruct validated).
    destruct (decide (h = hash (info l))) as [->|Hne].
    + rewrite lookup_insert_eq. intros [= <-]. done.
    + rewrite lookup_insert_ne by done. apply Hok.
  - intros l st' Hi Hok h l'. unfold indexed, retrieved. cbn.
    destruct (ledgerCache_ st' !! hash (info l)) eqn:E; [apply Hok|].
    destruct (decide (h = hash (info l))) as [->|Hne].
    + rewrite lookup_insert_eq. intros [= <-]. done.
    + rewrite lookup_insert_ne by done. apply Hok.
  - intros seq_ st' Hok h l'. cbn. unfold erase_if.
    intros [Hl _]%map_lookup_filter_Some. by apply Hok.
Qed.

(** X10. [builtLedger] and [validatedLedger], with all that they call, never
    write to the index and never take a ledger out of the cache or replace
    one: after any series of these calls, however it ends, the index is the
    same and the cache holds at least the ledgers it held, unchanged. *)
Theorem events_keep_index_and_cache evs st :
  mLedgersByIndex (final (run_events evs st)) = mLedgersByIndex st ∧
  ledgerCache_ st ⊆ ledgerCache_ (final (run_events evs st)).
Proof.
  apply (preserves_run_events
           (λ s, mLedgersByIndex s = mLedgersByIndex st ∧ ledgerCache_ st ⊆ ledgerCache_ s));
    try (intros; assumption); [|done].
  intros l st' _ [Hm Hc]. split; [done|]. unfold retrieved. cbn.
  destruct (ledgerCache_ st' !! hash (info l)) eqn:E; [done|].
  etrans; [exact Hc|]. by apply insert_subseteq.
Qed.

(** ** The consensus tracker *)

(** An entry that has a built hash also has what [builtLedger] stores with
    it: the consensus hash and the consensus description. *)
Definition entry_ok (e : cv_entry) : Prop :=
  is_Some (built e) → is_Some (builtConsensusHash e) ∧ is_Some (consensus e).

Definition tracker_ok (st : State) : Prop :=
  ∀ index e, consensusValidated_ st !! index = Some e → entry_ok e.

(** [m] never ends with [std::bad_optional_access]. *)
Definition no_bad_access {A} (m : M A) : Prop :=
  ∀ st st', m st ≠ Aborts bad_optional_access st'.

Lemma bind_aborts_inv {A B} (m : M A) (k : A → M B) st why st' :
  bind m k st = Aborts why st' →
  m st = Aborts why st' ∨ ∃ a st1, m st = Returns a st1 ∧ k a st1 = Aborts why st'.
Proof.
  unfold bind. destruct (m st) as [a st1|why' st1]; [|intros [= -> ->]; by left].
  intros H. right. by exists a, st1.
Qed.

Lemma no_bad_access_ret {A} (a : A) : no_bad_access (ret a).
Proof. by intros st st'. Qed.

Lemma no_bad_access_get {A} (f : State → A) : no_bad_access (get f).
Proof. by intros st st'. Qed.

Lemma no_bad_access_modify f : no_bad_access (modify f).
Proof. by intros st st'. Qed.

Lemma no_bad_access_abort {A} why : why ≠ bad_optional_access → no_bad_access (@abort A why).
Proof. intros Hne st st' [= -> _]. done. Qed.

Lemma no_bad_access_bind {A B} (m : M A) (k : A → M B) :
  no_bad_access m → (∀ a, no_bad_access (k a)) → no_bad_access (bind m k).
Proof.
  intros Hm Hk st st' [H|(a & st1 & _ & H)]%bind_aborts_inv.
  - by apply Hm in H.
  - by apply Hk in H.
Qed.

Lemma no_bad_access_assert e : no_bad_access (assert e).
Proof. intros st st'. unfold LedgerHistory.assert. by destruct (NDEBUG || e). Qed.

Lemma no_bad_access_when b m : no_bad_access m → no_bad_access (when b m).
Proof. intros Hm. destruct b; [done|apply no_bad_access_ret]. Qed.

Lemma no_bad_access_JLOG sev m : no_bad_access (JLOG sev m).
Proof. apply no_bad_access_modify. Qed.

Lemma no_bad_access_for_each {A} (l : list A) body :
  (∀ x, no_bad_access (body x)) → no_bad_access (for_each l body).
Proof.
  intros Hb. induction l as [|x l IH]; [apply no_bad_access_ret|].
  cbn. apply no_bad_access_bind; [apply Hb|]. intros _. apply IH.
Qed.

Lemma no_bad_access_cache_retrieve_or_insert l : no_bad_access (cache_retrieve_or_insert l).
Proof. intros st st'. by rewrite cache_retrieve_or_insert_run. Qed.

Ltac no_bad_access_step :=
  first
    [ apply no_bad_access_ret | apply no_bad_access_get | apply no_bad_access_modify
    | apply no_bad_access_assert | apply no_bad_access_JLOG
    | apply no_bad_access_cache_retrieve_or_insert
    | apply no_bad_access_abort; discriminate
    | apply no_bad_access_bind; [|intros ?]
    | apply no_bad_access_when ].

Lemma no_bad_access_getLedgerByHash h : no_bad_access (getLedgerByHash h).
Proof.
  unfold LedgerHistory.getLedgerByHash.
  apply no_bad_access_bind; [apply no_bad_access_get|]. intros [l|].
  - repeat no_bad_access_step.
  - destruct (loadByHash h); repeat no_bad_access_step.
Qed.

Lemma no_bad_access_log_one l tx msg : no_bad_access (log_one txRead l tx msg).
Proof. unfold log_one. destruct (txRead l tx); repeat no_bad_access_step. Qed.

Lemma no_bad_access_log_metadata_difference b v tx :
  no_bad_access (log_metadata_difference b v tx).
Proof.
  unfold LedgerHistory.log_metadata_difference.
  apply no_bad_access_bind; [apply no_bad_access_assert|]. intros _.
  destruct (getMeta txRead v tx), (getMeta txRead b tx);
    repeat (repeat no_bad_access_step; try case_match).
Qed.

Lemma no_bad_access_log_differences bl vl b v : no_bad_access (log_differences bl vl b v).
Proof.
  revert v. induction b as [|ib b IHb]; intros v; [apply no_bad_access_ret|].
  induction v as [|iv v IHv]; [apply no_bad_access_ret|].
  cbn [LedgerHistory.log_differences]. repeat case_match.
  - apply no_bad_access_bind; [apply no_bad_access_log_one|]. intros _. apply IHb.
  - apply no_bad_access_bind; [apply no_bad_access_log_one|]. intros _. apply IHv.
  - apply no_bad_access_bind; [|intros _; apply IHb].
    apply no_bad_access_when, no_bad_access_log_metadata_difference.
Qed.

Lemma no_bad_access_compare_transactions bc vc bl vl :
  no_bad_access (compare_transactions bc vc bl vl).
Proof.
  unfold LedgerHistory.compare_transactions.
  repeat (repeat no_bad_access_step; try case_match).
  - apply no_bad_access_log_differences.
  - apply no_bad_access_for_each. intros; apply no_bad_access_log_one.
  - apply no_bad_access_for_each. intros; apply no_bad_access_log_one.
Qed.

Lemma no_bad_access_handleMismatch b v bc vc c : no_bad_access (handleMismatch b v bc vc c).
Proof.
  unfold LedgerHistory.handleMismatch.
  do 3 (apply no_bad_access_bind; [no_bad_access_step|intros _]).
  apply no_bad_access_bind; [apply no_bad_access_getLedgerByHash|]. intros bl.
  apply no_bad_access_bind; [apply no_bad_access_getLedgerByHash|]. intros vl.
  destruct bl as [bl|], vl as [vl|]; try (repeat no_bad_access_step; fail).
  repeat first [apply no_bad_access_compare_transactions | no_bad_access_step | case_match].
Qed.

Lemma no_bad_access_builtLedger l ch c : no_bad_access (builtLedger l ch c).
Proof.
  unfold LedgerHistory.builtLedger.
  apply no_bad_access_bind; [apply no_bad_access_assert|]. intros _.
  apply no_bad_access_bind.
  { intros st st'. by rewrite cv_retrieve_or_insert_run. }
  intros entry.
  apply no_bad_access_bind; [|intros _; apply no_bad_access_modify].
  repeat first [apply no_bad_access_handleMismatch | no_bad_access_step | case_match].
Qed.

(** [entry->consensus.value()] in [validatedLedger] finds a value. *)
Lemma validatedLedger_consensus_value l ch st st' :
  tracker_ok st → validatedLedger l ch st ≠ Aborts bad_optional_access st'.
Proof.
  intros Hok. unfold LedgerHistory.validatedLedger.
  intros [H|(u & st0 & Ha & H)]%bind_aborts_inv; [by apply no_bad_access_assert in H|].
  apply (assert_returns NDEBUG) in Ha as [-> _].
  apply bind_aborts_inv in H as [H|(entry & st1 & He & H)].
  { by rewrite cv_retrieve_or_insert_run in H. }
  rewrite cv_retrieve_or_insert_run in He. injection He as <- <-.
  apply bind_aborts_inv in H as [H|(u' & st2 & _ & H)]; [|done].
  set (entry := default new_cv_entry (consensusValidated_ st !! seq (info l))) in *.
  assert (He : entry_ok entry).
  { unfold entry. destruct (consensusValidated_ st !! seq (info l)) eqn:E; cbn.
    - by apply (Hok _ _ E).
    - by intros [? [=]]. }
  destruct (built entry) as [b|] eqn:Hb; [|done].
  destruct (validated entry); [done|].
  case_bool_decide; [|done].
  apply bind_aborts_inv in H as [H|(u' & st2 & _ & H)]; [done|].
  destruct (He ltac:(eauto)) as [_ [c Hc]]. rewrite Hc in H.
  by apply no_bad_access_handleMismatch in H.
Qed.

Lemma perform_no_bad_access op st st' :
  tracker_ok st → perform op st ≠ Aborts bad_optional_access st'.
Proof.
  intros Hok. destruct op as [l v|i|i|h|[l ch c|l ch]|i h|s]; cbn [LedgerHistory.perform].
  - apply no_bad_access_bind; [|intros; apply no_bad_access_ret].
    unfold LedgerHistory.insert. repeat no_bad_access_step.
    intros st0 st0'. by destruct (insert_or_assign _ _ _).
  - apply no_bad_access_bind; [|intros; apply no_bad_access_ret].
    unfold getLedgerHash. apply no_bad_access_bind; [apply no_bad_access_get|].
    intros [?|]; apply no_bad_access_ret.
  - apply no_bad_access_bind; [|intros; apply no_bad_access_ret].
    unfold LedgerHistory.getLedgerBySeq.
    apply no_bad_access_bind; [apply no_bad_access_get|]. intros [h|].
    + apply no_bad_access_getLedgerByHash.
    + destruct (loadByIndex i); repeat no_bad_access_step.
  - apply no_bad_access_bind; [apply no_bad_access_getLedgerByHash|].
    intros; apply no_bad_access_ret.
  - apply no_bad_access_builtLedger.
  - by apply validatedLedger_consensus_value.
  - apply no_bad_access_bind; [|intros; apply no_bad_access_ret].
    unfold fixIndex. apply no_bad_access_bind; [apply no_bad_access_get|].
    intros [?|]; repeat (repeat no_bad_access_step; try case_match).
  - apply no_bad_access_modify.
Qed.

Lemma preserves_tracker_ok op : preserves tracker_ok (perform op).
Proof.
  apply preserves_perform; try (intros; assumption).
  - intros index st Hok i e. cbn.
    destruct (consensusValidated_ st !! index) eqn:E; [apply Hok|].
    destruct (decide (i = index)) as [->|Hne].
    + rewrite lookup_insert_eq. intros [= <-]. by intros [? [=]].
    + rewrite lookup_insert_ne by done. apply Hok.
  - intros index h ch c st Hok i e. cbn.
    destruct (decide (i = index)) as [->|Hne].
    + rewrite lookup_alter_eq. destruct (consensusValidated_ st !! index); [|done].
      intros [= <-]. intros _. cbn. eauto.
    + rewrite lookup_alter_ne by done. apply Hok.
  - intros index h ch st Hok i e. cbn.
    destruct (decide (i = index)) as [->|Hne].
    + rewrite lookup_alter_eq. destruct (consensusValidated_ st !! index) as [e0|] eqn:E; [|done].
      intros [= <-]. apply (Hok _ _ E).
    + rewrite lookup_alter_ne by done. apply Hok.
  - intros l validated st _ Hok. unfold inserted. by destruct validated.
Qed.

(** X11. On an object whose tracker entries with a built hash all carry
    their consensus hash and description, as is the case when the object is
    new, this remains so after any series of public calls, however it
    ends, and no call ends with [std::bad_optional_access]: when
    [validatedLedger] reads [entry->consensus.value()], the value is
    there. *)
Theorem consensus_value_is_present ops st :
  tracker_ok st →
  tracker_ok (final (perform_all ops st)) ∧
  ∀ st', perform_all ops st ≠ Aborts bad_optional_access st'.
Proof.
  intros Hok. split.
  { revert st Hok. apply preserves_for_each, preserves_tracker_ok. }
  revert st Hok. induction ops as [|op ops IH]; intros st Hok st'; [done|].
  cbn. intros [H|(u & st1 & Hop & H)]%bind_aborts_inv.
  - by apply perform_no_bad_access in H.
  - apply IH in H; [done|].
    pose proof (preserves_tracker_ok op st Hok) as Hok1. by rewrite Hop in Hok1.
Qed.

End LedgerHistoryInvariants.

(** * LedgerHistory.cpp: more on the diagnosis *)

Section LedgerHistoryDiagnosis.
Import LedgerHistory.

Variable NDEBUG : bool.
Variable loadByHash : LedgerHash → option Ledger.
Variable txRead : Ledger → uint256 → option STObject.

Local Abbreviation assert := (LedgerHistory.assert NDEBUG).
Local Abbreviation getLedgerByHash := (LedgerHistory.getLedgerByHash NDEBUG loadByHash).
Local Abbreviation log_metadata_difference :=
  (LedgerHistory.log_metadata_difference NDEBUG txRead).
Local Abbreviation handleMismatch := (LedgerHistory.handleMismatch NDEBUG loadByHash txRead).
Local Abbreviation builtLedger := (LedgerHistory.builtLedger NDEBUG loadByHash txRead).
Local Abbreviation validatedLedger := (LedgerHistory.validatedLedger NDEBUG loadByHash txRead).

(** ** validatedLedger before builtLedger *)

(** The first event of a sequence: [validatedLedger] creates the entry,
    fills the validated side and calls nothing. *)
Lemma validatedLedger_first ledger ch st :
  (NDEBUG = false → hash (info ledger) ≠ 0%N) →
  consensusValidated_ st !! seq (info ledger) = None →
  validatedLedger ledger ch st =
    Returns tt (set_consensusValidated
      (λ m, <[seq (info ledger) :=
                mkEntry None (Some (hash (info ledger))) None ch None]> m) st).
Proof.
  intros Hh Hcv. unfold LedgerHistory.validatedLedger.
  rewrite (bind_returns _ _ _ _ _ (assert_hash_nonzero NDEBUG _ _ Hh)).
  rewrite (bind_returns _ _ _ _ _ (cv_retrieve_or_insert_run _ _)).
  rewrite Hcv. cbn. unfold modify, set_consensusValidated. cbn.
  by rewrite alter_after_retrieve, Hcv.
Qed.

(** X12. The events in the other order.  From a state without an entry for
    the sequence, [validatedLedger] for a ledger with hash H2 followed by
    [builtLedger] for a ledger of the same sequence with hash H1: the first
    call returns and diagnoses nothing; when H1 and H2 differ, the second
    enters [handleMismatch] once, with [built = H1], [valid = H2] and the
    consensus hash and description of the built ledger, and the counter is
    one higher; when they are equal, it writes "MATCH: seq=... late" and
    nothing else, and [handleMismatch] is not entered. *)
Theorem validated_then_built lb lv ch vch c st :
  seq (info lv) = seq (info lb) →
  consensusValidated_ st !! seq (info lb) = None →
  (NDEBUG = false → hash (info lb) ≠ 0%N ∧ hash (info lv) ≠ 0%N) →
  ∃ st1,
    validatedLedger lv vch st = Returns tt st1 ∧
    calls st1 = calls st ∧
    mismatch_counter_ st1 = mismatch_counter_ st ∧
    j_ st1 = j_ st ∧
    (hash (info lb) ≠ hash (info lv) →
       calls (final (builtLedger lb ch c st1)) =
         calls st ++ [mkCall (hash (info lb)) (hash (info lv)) (Some ch) vch c] ∧
       mismatch_counter_ (final (builtLedger lb ch c st1)) =
         N.succ (mismatch_counter_ st)) ∧
    (hash (info lb) = hash (info lv) →
       ∃ st2, builtLedger lb ch c st1 = Returns tt st2 ∧
              calls st2 = calls st ∧
              mismatch_counter_ st2 = mismatch_counter_ st ∧
              j_ st2 = j_ st ++ [(debug, MATCH_seq_late (seq (info lb)))]).
Proof.
  intros Hseq Hcv Hh. eexists. split.
  { apply validatedLedger_first; [|by rewrite Hseq]. intros HN. by apply Hh. }
  split; [done|]. split; [done|]. split; [done|].
  set (st1 := set_consensusValidated _ st).
  assert (Hrun : ∀ k : cv_entry → M unit,
            bind (assert (negb (isZero (hash (info lb)))))
                        (λ _, bind (cv_retrieve_or_insert (seq (info lb))) k) st1 =
            k (mkEntry None (Some (hash (info lv))) None vch None) st1).
  { intros k.
    rewrite (bind_returns _ _ _ _ _ (assert_hash_nonzero NDEBUG _ st1 (λ HN, proj1 (Hh HN)))).
    rewrite (bind_returns _ _ _ _ _ (cv_retrieve_or_insert_run _ _)).
    subst st1. cbn. rewrite Hseq, lookup_insert_eq. cbn.
    unfold set_consensusValidated. cbn. by rewrite lookup_insert_eq. }
  split.
  - intros Hne. remember (builtLedger lb ch c st1) as o eqn:Ho.
    unfold LedgerHistory.builtLedger in Ho. rewrite Hrun in Ho.
    cbn [built validated validatedConsensusHash] in Ho.
    rewrite bool_decide_eq_true_2 in Ho by done.
    unfold bind at 1 in Ho. unfold bind at 1 in Ho.
    unfold JLOG at 1, modify at 1 in Ho.
    match type of Ho with context [handleMismatch ?b ?v ?bc ?vc ?cc ?s] =>
      pose proof (handleMismatch_effect NDEBUG loadByHash txRead b v bc vc cc s)
        as (_ & Hcalls & Hctr & _);
      destruct (handleMismatch b v bc vc cc s) as [[] st2|why st2] end;
      subst o; cbn in *; rewrite Hcalls, Hctr by (right; congruence); done.
  - intros Heq. unfold LedgerHistory.builtLedger. rewrite Hrun.
    cbn [built validated validatedConsensusHash].
    rewrite bool_decide_eq_false_2 by (intros Hne; by apply Hne).
    eexists. split; [reflexivity|]. done.
Qed.

(** ** handleMismatch without the ledgers *)

(** X13. When one of the two hashes resolves to no ledger, neither in the
    cache nor in the store, [handleMismatch] counts the mismatch, writes the
    one line "MISMATCH cannot be analyzed" with what it found for each
    hash, and returns: it compares nothing. *)
Theorem handleMismatch_cannot_be_analyzed b v bc vc c st ob ov st1 st2 :
  (NDEBUG = false → b ≠ v) →
  getLedgerByHash b (entered b v bc vc c st) = Returns ob st1 →
  getLedgerByHash v st1 = Returns ov st2 →
  ob = None ∨ ov = None →
  handleMismatch b v bc vc c st =
    Returns tt (log [(error, MISMATCH_cannot_be_analyzed b v ob ov)] st2) ∧
  mismatch_counter_ st2 = N.succ (mismatch_counter_ st).
Proof.
  intros Hne Hb Hv Hnone. split.
  - unfold LedgerHistory.handleMismatch.
    unfold bind at 1. unfold modify at 1.
    rewrite (bind_returns _ _ _ _ _ (assert_holds NDEBUG _ _
               (λ HN, bool_decide_eq_true_2 _ (Hne HN)))).
    unfold bind at 1. unfold modify at 1.
    change (set_counter N.succ (set_calls _ st)) with (entered b v bc vc c st).
    rewrite (bind_returns _ _ _ _ _ Hb), (bind_returns _ _ _ _ _ Hv).
    destruct Hnone as [-> | ->]; [|destruct ob]; by rewrite JLOG_log.
  - pose proof (passive_getLedgerByHash NDEBUG loadByHash b (entered b v bc vc c st))
      as (_ & _ & H1 & _).
    pose proof (passive_getLedgerByHash NDEBUG loadByHash v st1) as (_ & _ & H2 & _).
    rewrite Hb in H1. rewrite Hv in H2. cbn in *. by rewrite H2, H1.
Qed.

(** ** log_metadata_difference with metadata on one side *)

(** X14. [log_metadata_difference] for a transaction whose metadata can be
    read in one ledger only writes one line, at error level, that says which
    ledger has none and shows the metadata of the other.  When it can be read
    in neither, the function does not return: the assertion fails, or, with
    assertions compiled out, the last branch dereferences the null
    [builtMetaData]. *)
Theorem log_metadata_difference_one_sided bl vl tx st :
  (∀ vm, getMeta txRead bl tx = None → getMeta txRead vl tx = Some vm →
     log_metadata_difference bl vl tx st =
       Returns tt (log [(error, MISMATCH_Metadata_Difference_built_has_none tx (getJson vm))] st)) ∧
  (∀ bm, getMeta txRead bl tx = Some bm → getMeta txRead vl tx = None →
     log_metadata_difference bl vl tx st =
       Returns tt (log [(error, MISMATCH_Metadata_Difference_valid_has_none tx (getJson bm))] st)) ∧
  (getMeta txRead bl tx = None → getMeta txRead vl tx = None →
     log_metadata_difference bl vl tx st =
       Aborts (if NDEBUG then null_dereference else assertion_failed) st).
Proof.
  unfold LedgerHistory.log_metadata_difference. split_and!.
  - intros vm -> ->. rewrite (bind_returns _ _ _ _ _ (assert_true NDEBUG _ _ eq_refl)).
    by rewrite JLOG_log.
  - intros bm -> ->. rewrite (bind_returns _ _ _ _ _ (assert_true NDEBUG _ _ eq_refl)).
    by rewrite JLOG_log.
  - intros -> ->. unfold bind, LedgerHistory.assert. by destruct NDEBUG.
Qed.

(** ** What the tracker holds *)

Local Abbreviation step := (LedgerHistory.step NDEBUG loadByHash txRead).
Local Abbreviation run_events := (LedgerHistory.run_events NDEBUG loadByHash txRead).

(** The hash of the last [builtLedger] call, and of the last
    [validatedLedger] call, of a series. *)
Definition latest_built (evs : list Event) : option LedgerHash :=
  last (omap (λ e, match e with
                   | call_builtLedger l _ _ => Some (hash (info l))
                   | call_validatedLedger _ _ => None
                   end) evs).

Definition latest_validated (evs : list Event) : option LedgerHash :=
  last (omap (λ e, match e with
                   | call_builtLedger _ _ _ => None
                   | call_validatedLedger l _ => Some (hash (info l))
                   end) evs).

Lemma run_events_cons e evs st st' :
  run_events (e :: evs) st = Returns tt st' →
  ∃ st1, step e st = Returns tt st1 ∧ run_events evs st1 = Returns tt st'.
Proof.
  unfold LedgerHistory.run_events. cbn [for_each]. unfold bind at 1.
  destruct (step e st) as [[] st1|]; [|done]. eauto.
Qed.

Lemma run_events_entry evs st st' s :
  run_events evs st = Returns tt st' →
  consensusValidated_ st' !! s =
    match of_sequence s evs with
    | [] => consensusValidated_ st !! s
    | _ => Some (foldl entry_after (default new_cv_entry (consensusValidated_ st !! s))
                       (of_sequence s evs))
    end.
Proof.
  revert st. induction evs as [|e evs IH]; intros st Hrun.
  { injection Hrun as <-. done. }
  apply run_events_cons in Hrun as (st1 & Hstep & Hrun).
  apply (step_returns NDEBUG loadByHash txRead) in Hstep as (Hcv & _).
  rewrite (IH _ Hrun), Hcv. unfold of_sequence. rewrite filter_cons.
  destruct (decide (seq (info (event_ledger e)) = s)) as [<-|Hne].
  - rewrite lookup_insert_eq. cbn [foldl default].
    by destruct (filter _ evs).
  - by rewrite lookup_insert_ne.
Qed.

Lemma foldl_entry_after_built e0 evs :
  built (foldl entry_after e0 evs) = from_option Some (built e0) (latest_built evs).
Proof.
  revert e0. induction evs as [|e evs IH]; intros e0; [done|].
  cbn [foldl]. rewrite IH. unfold latest_built. destruct e as [l ch c|l ch]; cbn.
  - destruct (omap _ evs) as [|h hs] eqn:E; [reflexivity|]. rewrite last_cons_cons.
    by destruct (proj2 (last_is_Some (h :: hs)) ltac:(done)) as [x ->].
  - done.
Qed.

Lemma foldl_entry_after_validated e0 evs :
  validated (foldl entry_after e0 evs) =
    from_option Some (validated e0) (latest_validated evs).
Proof.
  revert e0. induction evs as [|e evs IH]; intros e0; [done|].
  cbn [foldl]. rewrite IH. unfold latest_validated. destruct e as [l ch c|l ch]; cbn.
  - done.
  - destruct (omap _ evs) as [|h hs] eqn:E; [reflexivity|]. rewrite last_cons_cons.
    by destruct (proj2 (last_is_Some (h :: hs)) ltac:(done)) as [x ->].
Qed.

(** X15. The last writer wins.  After a series of [builtLedger] and
    [validatedLedger] calls that returns, a sequence that had no entry and
    got no call still has none; a sequence that had no entry and got a call
    has an entry whose built hash is the hash of the last ledger built for
    that sequence and whose validated hash is the hash of the last ledger
    validated for it (none, if there was no such call).  Calls for other
    sequences play no part. *)
Theorem tracker_holds_latest evs st st' s :
  run_events evs st = Returns tt st' →
  consensusValidated_ st !! s = None →
  (of_sequence s evs = [] → consensusValidated_ st' !! s = None) ∧
  (of_sequence s evs ≠ [] →
     ∃ e, consensusValidated_ st' !! s = Some e ∧
          built e = latest_built (of_sequence s evs) ∧
          validated e = latest_validated (of_sequence s evs)).
Proof.
  intros Hrun Hcv. rewrite (run_events_entry _ _ _ s Hrun), Hcv. split.
  - by intros ->.
  - intros Hne. destruct (of_sequence s evs) as [|e evs'] eqn:E; [done|].
    eexists. split; [done|].
    rewrite foldl_entry_after_built, foldl_entry_after_validated. cbn [default].
    split.
    + by destruct (latest_built (e :: evs')).
    + by destruct (latest_validated (e :: evs')).
Qed.

End LedgerHistoryDiagnosis.

(** * Message.cpp: more on the header and the buffers *)

Section MessageMore.
Import Message.
Local Open Scope Z_scope.

(** ** set_header *)

Lemma set_header_fields n type compressed alg :
  0 <= n < 2 ^ 28 →
  ∃ b0 b1 b2 b3 b4 b5,
    set_header n type compressed alg = [b0; b1; b2; b3; b4; b5] ∧
    Z.land (be32 b0 b1 b2 b3) (Z.ones 28) = n ∧
    Z.testbit (be32 b0 b1 b2 b3) 31 = compressed ∧
    Z.land (Z.shiftr (be32 b0 b1 b2 b3) 28) 7 = (if compressed then alg mod 8 else 0) ∧
    be16 b4 b5 = type mod 2 ^ 16.
Proof.
  intros Hn.
  destruct (set_header_envelope (replicate (Z.to_nat n) 0) type compressed alg)
    as (b0 & b1 & b2 & b3 & b4 & b5 & Hb & _ & Hlen & Hbit & Halg & Hty).
  { rewrite length_replicate. lia. }
  rewrite length_replicate, Z2Nat.id in * by lia.
  apply app_inv_tail in Hb. by exists b0, b1, b2, b3, b4, b5.
Qed.

(** X16. The header tells its fields apart: two headers written by
    [set_header] for lengths below 2^28 and types below 2^16 are equal only
    if the length, the type and the compression flag are equal, and, when
    compressed, the three low bits of the algorithm. *)
Theorem set_header_injective n n' type type' compressed compressed' alg alg' :
  0 <= n < 2 ^ 28 → 0 <= n' < 2 ^ 28 →
  0 <= type < 2 ^ 16 → 0 <= type' < 2 ^ 16 →
  set_header n type compressed alg = set_header n' type' compressed' alg' →
  n = n' ∧ type = type' ∧ compressed = compressed' ∧
  (compressed = true → alg mod 8 = alg' mod 8).
Proof.
  intros Hn Hn' Ht Ht' Heq.
  destruct (set_header_fields n type compressed alg Hn)
    as (b0 & b1 & b2 & b3 & b4 & b5 & Hb & Hlen & Hbit & Halg & Hty).
  destruct (set_header_fields n' type' compressed' alg' Hn')
    as (c0 & c1 & c2 & c3 & c4 & c5 & Hc & Hlen' & Hbit' & Halg' & Hty').
  rewrite Hb, Hc in Heq. injection Heq as <- <- <- <- <- <-.
  rewrite Z.mod_small in Hty, Hty' by done.
  assert (compressed = compressed') as <- by congruence.
  split_and!; try congruence.
  intros ->. congruence.
Qed.

(** X17. A length that does not fit in 28 bits runs into the flags.  The
    header of an uncompressed envelope holds the length modulo 2^32 in the
    whole first field: bits 31..28 are clear exactly when that number is
    below 2^28, and bit 31, the compression flag, is bit 31 of the length. *)
Theorem set_header_length_overflow n type alg :
  0 <= n →
  ∃ b0 b1 b2 b3 b4 b5,
    set_header n type false alg = [b0; b1; b2; b3; b4; b5] ∧
    be32 b0 b1 b2 b3 = n mod 2 ^ 32 ∧
    (Z.shiftr (be32 b0 b1 b2 b3) 28 = 0 ↔ n mod 2 ^ 32 < 2 ^ 28) ∧
    Z.testbit (be32 b0 b1 b2 b3) 31 = Z.testbit n 31.
Proof.
  intros Hn. unfold set_header. do 6 eexists. split; [reflexivity|].
  rewrite Z.land_0_l. change (uint8_t 0) with 0. rewrite Z.lor_0_r.
  rewrite !land_0xFF, !Z.shiftr_div_pow2 by lia. unfold uint8_t.
  rewrite !Z.mod_mod by lia.
  assert (Hw : be32 (n / 2 ^ 24 mod 256) (n / 2 ^ 16 mod 256) (n / 2 ^ 8 mod 256) (n mod 256)
               = n mod 2 ^ 32).
  { unfold be32. Z.div_mod_to_equations. lia. }
  rewrite Hw. split; [done|].
  assert (0 <= n mod 2 ^ 32 < 2 ^ 32) by (apply Z.mod_pos_bound; lia).
  split.
  - split.
    + intros H0. apply Z.div_small_iff in H0; lia.
    + intros Hlt. apply Z.div_small. lia.
  - apply Z.mod_pow2_bits_low. lia.
Qed.

(** ** The ratio *)

(** X18. The test [ratio > 0.0] of the constructor, with
    [ratio = 1.0 - (double)compressedSize / (double)messageBytes] in IEEE 754
    binary64, succeeds exactly when the compressed size is the smaller
    number, for all sizes below 2^53: rounding never hides a gain of one
    byte nor invents one. *)
Theorem ratio_test_exact compressedSize messageBytes :
  0 <= compressedSize < 2 ^ 53 → 0 < messageBytes < 2 ^ 53 →
  dgt (ratio compressedSize messageBytes) zero = true ↔ compressedSize < messageBytes.
Proof.
  intros Hc Hm. rewrite ratio_positive_lt by done. apply Z.ltb_lt.
Qed.

(** ** The constructor *)

Variables mtMANIFESTS mtENDPOINTS mtTRANSACTION mtGET_LEDGER : Z.
Variables mtLEDGER_DATA mtGET_OBJECTS mtVALIDATORLIST : Z.
Variable Algorithm_LZ4 : Z.
Variable compress : list Z → list Z.
Variable NDEBUG : bool.

Local Abbreviation Message_ :=
  (Message.Message_ mtMANIFESTS mtENDPOINTS mtTRANSACTION mtGET_LEDGER
     mtLEDGER_DATA mtGET_OBJECTS mtVALIDATORLIST Algorithm_LZ4 compress NDEBUG).

Lemma set_header_length n type compressed alg :
  length (set_header n type compressed alg) = headerBytes.
Proof. reflexivity. Qed.

(** X19. The sizes of the two buffers.  [mBuffer] is six bytes longer than
    the message.  A compressed buffer that is not empty is six bytes longer
    than the compressed payload and strictly shorter than [mBuffer]. *)
Theorem Message_compressed_is_shorter message type compression_enabled msg :
  Z.of_nat (length message) < 2 ^ 32 →
  Z.of_nat (length (compress message)) < 2 ^ 32 →
  Message_ message type compression_enabled = Some msg →
  length (mBuffer msg) = (headerBytes + length message)%nat ∧
  (mBufferCompressed msg ≠ [] →
     length (mBufferCompressed msg) = (headerBytes + length (compress message))%nat ∧
     (length (mBufferCompressed msg) < length (mBuffer msg))%nat).
Proof.
  intros Hm Hc Hmsg.
  destruct (Message_buffers mtMANIFESTS mtENDPOINTS mtTRANSACTION mtGET_LEDGER
              mtLEDGER_DATA mtGET_OBJECTS mtVALIDATORLIST Algorithm_LZ4 compress NDEBUG
              message type compression_enabled msg Hm Hc Hmsg) as [-> ->].
  rewrite length_app, set_header_length. split; [done|].
  destruct (Message.compressible _ _ _ _ _ _ _ _ _ _); [|done]. cbn [andb].
  destruct (_ <? _) eqn:Hlt; [|done]. apply Z.ltb_lt in Hlt. intros _.
  rewrite length_app, set_header_length. split; [done|]. lia.
Qed.

(** X20. The empty message.  In a build with assertions the constructor
    stops at [assert (messageBytes != 0)].  With assertions compiled out it
    makes an envelope of the six header bytes alone, with length zero and
    the type, and no compressed buffer, whatever the type and whether or not
    compression is enabled. *)
Theorem Message_empty type compression_enabled :
  Message_ [] type compression_enabled =
    if NDEBUG
    then Some (mkMessage [0; 0; 0; 0; (type / 256) mod 256; type mod 256] [])
    else None.
Proof.
  unfold Message.Message_. cbn [length Z.of_nat Z.eqb negb andb].
  destruct NDEBUG; cbn [negb andb]; [|done].
  unfold compressible. rewrite andb_false_r. rewrite app_nil_r.
  do 2 f_equal. unfold set_header.
  rewrite Z.land_0_l. change (uint8_t 0) with 0.
  rewrite !land_0xFF, !Z.shiftr_div_pow2 by lia. unfold uint8_t.
  rewrite !Z.mod_mod by lia. reflexivity.
Qed.

End MessageMore.

(** * The further properties on the examples *)

Section MoreOnExamples.
Import LedgerHistory Examples CallExamples.

Lemma new_history_cache_ok NDEBUG : cache_ok NDEBUG new_history.
Proof. intros h l H. cbn in H. by rewrite lookup_empty in H. Qed.

Lemma new_history_tracker_ok : tracker_ok new_history.
Proof. intros s e H. cbn in H. by rewrite lookup_empty in H. Qed.

Lemma insert_then_getLedgerByHash_witness :
  ∃ alreadyHad st1,
    insert false built5 true new_history = Returns alreadyHad st1 ∧
    getLedgerByHash false loadByHash 11 st1 = Returns (Some built5) st1.
Proof.
  apply (insert_then_getLedgerByHash false loadByHash built5 true new_history);
    [reflexivity|right; discriminate].
Defined.

Lemma insert_then_lookup_by_sequence_witness :
  ∃ alreadyHad st1,
    insert false built5 true new_history = Returns alreadyHad st1 ∧
    getLedgerHash 5 st1 = Returns 11%N st1 ∧
    getLedgerBySeq false loadByHash loadByIndex 5 st1 = Returns (Some built5) st1.
Proof.
  destruct (insert_then_lookup_by_sequence false loadByHash loadByIndex built5 true
              new_history) as (had & st1 & Hrun & Hv & _);
    [reflexivity|right; discriminate|].
  destruct (Hv eq_refl) as (H1 & H2 & _). exists had, st1. split; [exact Hrun|].
  split; [exact H1|exact H2].
Defined.

Lemma insert_twice_witness :
  insert false built5 true (final (insert false built5 true new_history)) =
    Returns true (final (insert false built5 true new_history)).
Proof.
  apply (insert_twice false built5 true new_history false). reflexivity.
Defined.

Lemma getLedgerByHash_result_witness :
  hash (info valid5) = 12%N ∧ isImmutable valid5 = true ∧
  ledgerCache_ (final (getLedgerByHash false loadByHash 12 new_history)) !! 12%N =
    Some valid5 ∧
  ledgerCache_ new_history ⊆
    ledgerCache_ (final (getLedgerByHash false loadByHash 12 new_history)).
Proof.
  apply (getLedgerByHash_result false loadByHash 12 new_history valid5);
    [reflexivity|reflexivity].
Defined.

Lemma getLedgerByHash_again_witness :
  getLedgerByHash false loadByHash 12
      (final (getLedgerByHash false loadByHash 12 new_history)) =
    Returns (Some valid5) (final (getLedgerByHash false loadByHash 12 new_history)).
Proof.
  apply (getLedgerByHash_again false loadByHash 12 new_history). reflexivity.
Defined.

Lemma getLedgerBySeq_again_witness :
  getLedgerBySeq false loadByHash loadByIndex 6
      (final (getLedgerBySeq false loadByHash loadByIndex 6 new_history)) =
    Returns (Some other6) (final (getLedgerBySeq false loadByHash loadByIndex 6 new_history)).
Proof.
  apply (getLedgerBySeq_again false loadByHash loadByIndex 6 new_history).
  - apply new_history_cache_ok.
  - reflexivity.
Defined.

Lemma cache_ok_invariant_witness :
  cache_ok false
    (final (perform_all false loadByHash loadByIndex txRead operations new_history)).
Proof.
  apply (cache_ok_invariant false loadByHash loadByIndex txRead operations new_history).
  apply new_history_cache_ok.
Defined.

Lemma consensus_value_is_present_witness :
  tracker_ok
    (final (perform_all false loadByHash loadByIndex txRead operations new_history)) ∧
  ∀ st', perform_all false loadByHash loadByIndex txRead operations new_history
         ≠ Aborts bad_optional_access st'.
Proof.
  apply (consensus_value_is_present false loadByHash loadByIndex txRead operations
           new_history).
  apply new_history_tracker_ok.
Defined.

Lemma cleared_ledger_stays_indexed_witness :
  ∃ alreadyHad st1 st2,
    insert false built5 true new_history = Returns alreadyHad st1 ∧
    clearLedgerCachePrior 6 st1 = Returns tt st2 ∧
    ledgerCache_ st2 !! 11%N = None ∧
    getLedgerHash 5 st2 = Returns 11%N st2 ∧
    getLedgerBySeq false loadByHash loadByIndex 5 st2 =
      getLedgerByHash false loadByHash 11 st2 ∧
    (loadByHash 11 = None →
       getLedgerBySeq false loadByHash loadByIndex 5 st2 = Returns None st2).
Proof.
  apply (cleared_ledger_stays_indexed false loadByHash loadByIndex built5 6 new_history);
    [reflexivity|right; discriminate|reflexivity].
Defined.

Lemma validated_then_built_witness :
  ∃ st1,
    validatedLedger false loadByHash txRead built5 None new_history = Returns tt st1 ∧
    calls st1 = [] ∧
    mismatch_counter_ st1 = 0%N ∧
    j_ st1 = [] ∧
    (11%N ≠ 11%N →
       calls (final (builtLedger false loadByHash txRead built5 1 "c" st1)) =
         [] ++ [mkCall 11 11 (Some 1%N) None "c"] ∧
       mismatch_counter_ (final (builtLedger false loadByHash txRead built5 1 "c" st1)) =
         N.succ 0) ∧
    (11%N = 11%N →
       ∃ st2, builtLedger false loadByHash txRead built5 1 "c" st1 = Returns tt st2 ∧
              calls st2 = [] ∧ mismatch_counter_ st2 = 0%N ∧
              j_ st2 = [] ++ [(debug, MATCH_seq_late 5)]).
Proof.
  apply (validated_then_built false loadByHash txRead built5 built5 1%N None "c"
           new_history); [reflexivity|reflexivity|].
  intros _. split; discriminate.
Defined.

Lemma handleMismatch_cannot_be_analyzed_witness :
  ∃ st2,
    handleMismatch false loadByHash txRead 11 99 None None "c" new_history =
      Returns tt (log [(error, MISMATCH_cannot_be_analyzed 11 99 (Some built5) None)] st2) ∧
    mismatch_counter_ st2 = N.succ 0.
Proof.
  eexists.
  apply (handleMismatch_cannot_be_analyzed false loadByHash txRead 11 99 None None "c"
           new_history (Some built5) None _ _
           ltac:(discriminate) ltac:(reflexivity) ltac:(reflexivity)).
  right. reflexivity.
Defined.

Lemma log_metadata_difference_one_sided_witness :
  log_metadata_difference false txRead_valid_only built5 valid5 7 new_history =
    Returns tt
      (log [(error, MISMATCH_Metadata_Difference_built_has_none 7 (mkMeta 5 6 [7%N]))]
           new_history).
Proof.
  apply (proj1 (log_metadata_difference_one_sided false txRead_valid_only
                  built5 valid5 7 new_history)
           (TxMeta_ctor 7 5 (mkMeta 5 6 [7%N]))); reflexivity.
Defined.

Lemma tracker_holds_latest_witness :
  (of_sequence 5 events = [] →
     consensusValidated_ (final (run_events false loadByHash txRead events new_history))
       !! 5%N = None) ∧
  (of_sequence 5 events ≠ [] →
     ∃ e, consensusValidated_ (final (run_events false loadByHash txRead events new_history))
            !! 5%N = Some e ∧
          built e = Some 16%N ∧ validated e = Some 12%N).
Proof.
  apply (tracker_holds_latest false loadByHash txRead events new_history
           (final (run_events false loadByHash txRead events new_history)) 5%N).
  - vm_compute. reflexivity.
  - reflexivity.
Defined.

End MoreOnExamples.

Section MessageMoreOnExamples.
Import Message MessageExamples.
Local Open Scope Z_scope.

Lemma set_header_injective_witness :
  100 = 100 ∧ 30 = 30 ∧ true = true ∧ (true = true → 1 mod 8 = 9 mod 8).
Proof.
  apply (set_header_injective 100 100 30 30 true true 1 9); [lia|lia|lia|lia|reflexivity].
Defined.

Lemma set_header_length_overflow_witness :
  ∃ b0 b1 b2 b3 b4 b5,
    set_header (2 ^ 31) 30 false 1 = [b0; b1; b2; b3; b4; b5] ∧
    be32 b0 b1 b2 b3 = 2 ^ 31 mod 2 ^ 32 ∧
    (Z.shiftr (be32 b0 b1 b2 b3) 28 = 0 ↔ 2 ^ 31 mod 2 ^ 32 < 2 ^ 28) ∧
    Z.testbit (be32 b0 b1 b2 b3) 31 = Z.testbit (2 ^ 31) 31.
Proof. apply (set_header_length_overflow (2 ^ 31) 30 1). lia. Defined.

Lemma ratio_test_exact_witness :
  dgt (ratio (2 ^ 32 - 2) (2 ^ 32 - 1)) zero = true ↔ 2 ^ 32 - 2 < 2 ^ 32 - 1.
Proof. apply (ratio_test_exact (2 ^ 32 - 2) (2 ^ 32 - 1)); lia. Defined.

Lemma Message_compressed_is_shorter_witness :
  length (mBuffer transaction_message) = (headerBytes + length transaction)%nat ∧
  (mBufferCompressed transaction_message ≠ [] →
     length (mBufferCompressed transaction_message) =
       (headerBytes + length (run_length transaction))%nat ∧
     (length (mBufferCompressed transaction_message) <
      length (mBuffer transaction_message))%nat).
Proof.
  apply (Message_compressed_is_shorter mtMANIFESTS mtENDPOINTS mtTRANSACTION
           mtGET_LEDGER mtLEDGER_DATA mtGET_OBJECTS mtVALIDATORLIST Algorithm_LZ4
           run_length false transaction mtTRANSACTION true transaction_message);
    [reflexivity|reflexivity|vm_compute; reflexivity].
Defined.

End MessageMoreOnExamples.
